(** * QuickPizzaBench plotting scripts: smoothing and statistics pipeline

    Shallow embedding of the numerical core of
      - scripts/plot_rps_cdf.py
      - scripts/plot_rps_cdf_smooth.py
      - scripts/plot_request_times.py
      - scripts/plot_request_times_smooth.py

    Numbers.  The scripts compute on IEEE doubles through numpy, pandas and
    scipy.  Here a float is an exact rational ([Q]) and equality of computed
    values is [Qeq] ([==]): the facts proved on them are orderings, bounds
    and counts, and say nothing of the last bits of a value.  The one place
    where the scripts turn a float into an integer that shapes the output,
    [int(len(sorted_rps) * smoothing_factor)], is computed in binary64
    (module [Fl]).  Integer quantities (counts, indices, lengths, nanosecond
    timestamps) are [Z] or [nat].  A NaN entry of a pandas column is [None];
    a call that raises a Python exception returns [None] as a whole.

    Library calls.  The numpy / pandas / scipy functions the scripts call are
    modelled by their documented behaviour in modules [Np], [Pd] and [Sp];
    the script bodies are in [RpsCdf], [RpsCdfSmooth], [RequestTimes] and
    [RequestTimesSmooth].  Definitions come first, facts about them after. *)

From Stdlib Require Import String.
From Stdlib Require Import List ZArith QArith Qround Lia Lqa Bool.
From Stdlib Require Import Permutation Sorted.
From Corelib Require Import SpecFloat.
Import ListNotations.

Open Scope Q_scope.

(* ================================================================== *)
(** * Part I: the programs *)

(* ------------------------------------------------------------------ *)
(** ** Sorting, generically in the comparison *)

Section InsertionSort.
Context {A : Type}.
Variable leb : A -> A -> bool.

Fixpoint insert (x : A) (l : list A) : list A :=
  match l with
  | [] => [x]
  | y :: l' => if leb x y then x :: l else y :: insert x l'
  end.

Fixpoint sort (l : list A) : list A :=
  match l with
  | [] => []
  | x :: l' => insert x (sort l')
  end.
End InsertionSort.

(* ------------------------------------------------------------------ *)
(** ** Rational and list helpers *)

Definition Qsum (l : list Q) : Q := fold_right Qplus 0 l.

Definition Qof_nat (n : nat) : Q := inject_Z (Z.of_nat n).

Fixpoint Qpow (x : Q) (k : nat) : Q :=
  match k with
  | O => 1
  | S k' => x * Qpow x k'
  end.

Definition Qmaxb (x y : Q) : Q := if Qle_bool x y then y else x.
Definition Qminb (x y : Q) : Q := if Qle_bool x y then x else y.

(** Python's [int(x)] on a float: truncation toward zero. *)
Definition int_trunc (x : Q) : Z := Z.quot (Qnum x) (Z.pos (Qden x)).

(** IEEE 754 binary64, as Python's [float]: the operations are those of the
    specification in [SpecFloat] with a 53-bit mantissa. *)
Module Fl.

Definition float := spec_float.
Definition prec : Z := 53.
Definition emax : Z := 1024.

(** [float(n)] for a Python integer: the nearest double. *)
Definition of_Z (n : Z) : float := binary_normalize prec emax n 0 false.

(** [float(s)] for a decimal literal [s] of value [q]: the nearest double
    (an infinity when [q] is beyond the range). *)
Definition of_Q (q : Q) : float :=
  match Qnum q with
  | Z0 => S754_zero false
  | Zpos a =>
      SFdiv prec emax (S754_finite false a 0) (S754_finite false (Qden q) 0)
  | Zneg a =>
      SFdiv prec emax (S754_finite true a 0) (S754_finite false (Qden q) 0)
  end.

Definition mul : float -> float -> float := SFmul prec emax.

(** The value of a finite double. *)
Definition to_Q (x : float) : option Q :=
  match x with
  | S754_zero _ => Some 0
  | S754_finite s m e =>
      let v := match e with
               | Zneg p => Z.pos m # (2 ^ p)
               | _ => inject_Z (Z.pos m * 2 ^ e)
               end in
      Some (if s then - v else v)
  | _ => None
  end.

(** [int(x)]: truncation toward zero; an infinity raises [OverflowError]
    and a NaN [ValueError]. *)
Definition int (x : float) : option Z := option_map int_trunc (to_Q x).

End Fl.

(** The Python slice [l[start:stop]] for [0 <= start]. *)
Definition slice {A} (l : list A) (start stop : nat) : list A :=
  firstn (stop - start) (skipn start l).

(** The values of a column that are not NaN. *)
Fixpoint defined {A} (l : list (option A)) : list A :=
  match l with
  | [] => []
  | Some x :: l' => x :: defined l'
  | None :: l' => defined l'
  end.

(* ------------------------------------------------------------------ *)
(** ** numpy *)

Module Np.

(** [np.sort] on a float array and on an integer array. *)
Definition sortQ : list Q -> list Q := sort Qle_bool.
Definition sortZ : list Z -> list Z := sort Z.leb.

(** [np.mean]. *)
Definition mean (a : list Q) : Q := Qsum a / Qof_nat (length a).

(** [np.max] and [np.min]; numpy raises on an empty array, [0] stands for
    that here and the scripts never reach it. *)
Definition max (a : list Q) : Q :=
  match a with
  | [] => 0
  | x :: l => fold_left Qmaxb l x
  end.

Definition min (a : list Q) : Q :=
  match a with
  | [] => 0
  | x :: l => fold_left Qminb l x
  end.

(** Index clipping of [np.percentile]: positions outside [0, n-1] are moved
    to the nearest end. *)
Definition clip_index (n : nat) (i : Z) : nat :=
  Z.to_nat (Z.max 0 (Z.min i (Z.of_nat n - 1))).

(** [np.percentile(a, q)] with the default method (linear): the virtual
    index is [(n-1) * q/100]; the result interpolates linearly between the
    order statistics at its floor and at the next position. *)
Definition percentile (a : list Q) (q : Q) : Q :=
  let s := sortQ a in
  let n := length s in
  let virtual_index := (Qof_nat n - 1) * (q / 100) in
  let previous := Qfloor virtual_index in
  let gamma := virtual_index - inject_Z previous in
  let lo := nth (clip_index n previous) s 0 in
  let hi := nth (clip_index n (previous + 1)) s 0 in
  lo + (hi - lo) * gamma.

(** [np.arange(1, n + 1) / n]. *)
Definition arange1_over (n : nat) : list Q :=
  map (fun i => Qof_nat i / Qof_nat n) (seq 1 n).

(** [np.linspace(start, stop, num)]: [num] evenly spaced samples with both
    end points; a single sample is [start]; a negative [num] raises. *)
Definition linspace (start stop : Q) (num : Z) : option (list Q) :=
  if (num <? 0)%Z then None
  else
    let n := Z.to_nat num in
    let step := (stop - start) / (Qof_nat n - 1) in
    Some (map (fun i => if (S i =? n)%nat && (1 <? n)%nat then stop
                        else start + Qof_nat i * step)
              (seq 0 n)).

(** Removal of adjacent repetitions, keeping the position of the first
    element of each run; on a sorted array the runs are the distinct values. *)
Fixpoint unique_from (i : nat) (prev : option Z) (a : list Z) : list (Z * nat) :=
  match a with
  | [] => []
  | x :: a' =>
      match prev with
      | Some p => if (p =? x)%Z then unique_from (S i) prev a'
                  else (x, i) :: unique_from (S i) (Some x) a'
      | None => (x, i) :: unique_from (S i) (Some x) a'
      end
  end.

(** First position of [x] in [a]. *)
Fixpoint index_of (x : Z) (a : list Z) : nat :=
  match a with
  | [] => O
  | y :: a' => if (x =? y)%Z then O else S (index_of x a')
  end.

(** [np.unique(a, return_index=True)]: the sorted distinct values of [a] and,
    for each, the index of its first occurrence in [a]. *)
Definition unique_with_index (a : list Z) : list Z * list nat :=
  let u := map fst (unique_from 0 None (sortZ a)) in
  (u, map (fun x => index_of x a) u).

End Np.

(* ------------------------------------------------------------------ *)
(** ** pandas *)

Module Pd.

(** A row of the k6 CSV output ([timestamp] in epoch seconds). *)
Record row := mk_row {
  timestamp : Q;
  metric_name : String.string;
  metric_value : Q
}.

(** [df[df['metric_name'] == name]] *)
Definition filter_metric (name : String.string) (df : list row) : list row :=
  filter (fun r => String.eqb (metric_name r) name) df.

(** The nearest integer, a tie going to the even one. *)
Definition round_half_even (x : Q) : Z :=
  let f := Qfloor x in
  match Qcompare (x - inject_Z f) (1 # 2) with
  | Lt => f
  | Gt => (f + 1)%Z
  | Eq => if Z.even f then f else (f + 1)%Z
  end.

(** [pd.to_datetime(col, unit='s')]: nanoseconds since the epoch, to the
    nearest nanosecond, as a signed 64-bit integer.  A value that does not
    fit raises [OutOfBoundsDatetime] (the least 64-bit integer is [NaT]). *)
Definition ns_per_s : Z := 1000000000.
Definition to_datetime_s (t : Q) : Z := round_half_even (t * inject_Z ns_per_s).

Definition int64_max : Z := 9223372036854775807.

Definition in_bounds (t : Q) : bool :=
  (- int64_max <=? to_datetime_s t)%Z && (to_datetime_s t <=? int64_max)%Z.

Definition to_datetime (col : list Q) : option (list Z) :=
  if forallb in_bounds col then Some (map to_datetime_s col) else None.

(** [Series.dt.floor('s')] *)
Definition floor_s (t : Z) : Z := (t - t mod ns_per_s)%Z.

(** [(t - start).dt.total_seconds()] *)
Definition total_seconds (d : Z) : Q := inject_Z d / inject_Z ns_per_s.

Definition clip (x lo hi : Z) : Z := Z.max lo (Z.min x hi).

(** Window bounds of pandas' fixed window indexer for position [i]
    ([closed = 'right']): the half-open index range [start, stop), clipped
    to the column. *)
Definition fixed_window (num_values window_size : Z) (center : bool) (i : Z)
  : Z * Z :=
  let offset := if center then ((window_size - 1) / 2)%Z else 0%Z in
  let stop := (i + 1 + offset)%Z in
  let start := (stop - window_size)%Z in
  (clip start 0 num_values, clip stop 0 num_values).

(** The samples position [i] averages. *)
Definition window_slice (window : Z) (xs : list Q) (i : nat) : list Q :=
  let '(start, stop) :=
    fixed_window (Z.of_nat (length xs)) window true (Z.of_nat i) in
  slice xs (Z.to_nat start) (Z.to_nat stop).

(** [xs.rolling(window=window, center=True).mean()]: [min_periods] defaults
    to the window size, so a position whose clipped window holds fewer than
    [window] samples (or none) is NaN.  A negative window raises. *)
Definition rolling_mean (window : Z) (xs : list Q) : option (list (option Q)) :=
  if (window <? 0)%Z then None
  else
    Some (map (fun i =>
                 let w := window_slice window xs i in
                 let nobs := Z.of_nat (length w) in
                 if (window <=? nobs)%Z && (0 <? nobs)%Z
                 then Some (Np.mean w) else None)
              (seq 0 (length xs))).

(** One row of [resample(freq)[col].agg(['mean', 'std', 'count'])].  The
    [std] column is the root of [var] (sample variance, [ddof = 1]), which
    is what is kept here. *)
Record bucket := mk_bucket {
  b_timestamp : Z;
  b_mean : option Q;
  b_var : option Q;
  b_count : nat
}.

Definition Zmin_list (l : list Z) : Z :=
  match l with [] => 0%Z | x :: l' => fold_left Z.min l' x end.
Definition Zmax_list (l : list Z) : Z :=
  match l with [] => 0%Z | x :: l' => fold_left Z.max l' x end.

Definition day_ns : Z := (86400 * ns_per_s)%Z.

(** Bin edges of [resample] ([closed = 'left'], [origin = 'start_day']):
    the bins are anchored at midnight of the first sample's day, start at
    the bin holding the first sample and end after the one holding the
    last. *)
Definition range_edges (first last freq : Z) : Z * Z :=
  let origin := (first - first mod day_ns)%Z in
  let foffset := ((first - origin) mod freq)%Z in
  let loffset := ((last - origin) mod freq)%Z in
  let fresult := if (0 <? foffset)%Z then (first - foffset)%Z else first in
  let lresult := if (0 <? loffset)%Z then (last + (freq - loffset))%Z
                 else (last + freq)%Z in
  (fresult, lresult).

Definition in_bucket (lo freq : Z) (s : Z * Q) : bool :=
  (lo <=? fst s)%Z && (fst s <? lo + freq)%Z.

Definition variance (vs : list Q) : option Q :=
  if (length vs <? 2)%nat then None
  else
    let m := Np.mean vs in
    Some (Qsum (map (fun v => (v - m) * (v - m)) vs)
          / (Qof_nat (length vs) - 1)).

Definition aggregate (lo : Z) (vs : list Q) : bucket :=
  {| b_timestamp := lo;
     b_mean := match vs with [] => None | _ => Some (Np.mean vs) end;
     b_var := variance vs;
     b_count := length vs |}.

(** [df.resample(freq)['metric_value'].agg(['mean', 'std', 'count'])] on
    samples indexed by their timestamp: one row per bin of width [freq]
    between the edges, empty bins included. *)
Definition resample (freq : positive) (samples : list (Z * Q)) : list bucket :=
  match samples with
  | [] => []
  | _ =>
      let ts := map fst samples in
      let '(fresult, lresult) :=
        range_edges (Zmin_list ts) (Zmax_list ts) (Z.pos freq) in
      map (fun k =>
             let lo := (fresult + Z.of_nat k * Z.pos freq)%Z in
             aggregate lo (map snd (filter (in_bucket lo (Z.pos freq)) samples)))
          (seq 0 (Z.to_nat ((lresult - fresult) / Z.pos freq)))
  end.

(** [Series.quantile(q)]: the linear rule of [np.percentile(100 q)]. *)
Definition quantile (a : list Q) (q : Q) : Q := Np.percentile a (q * 100).

End Pd.

(* ------------------------------------------------------------------ *)
(** ** Dense linear algebra over the rationals *)

Module Linalg.

Definition matrix := list (list Q).

(** Inner product; the running sum is kept in lowest terms. *)
Definition dot (u v : list Q) : Q :=
  fold_right (fun p acc => Qred (fst p * snd p + acc)) 0 (combine u v).

Definition matvec (M : matrix) (v : list Q) : list Q :=
  map (fun r => dot r v) M.

Definition transpose (ncols : nat) (M : matrix) : matrix :=
  map (fun j => map (fun r => nth j r 0) M) (seq 0 ncols).

(** [A * B^T], entries in lowest terms. *)
Definition mul_transpose (A B : matrix) : matrix :=
  map (fun r => map (fun c => Qred (dot r c)) B) A.

Definition identity (n : nat) : matrix :=
  map (fun i => map (fun j => if (i =? j)%nat then 1 else 0) (seq 0 n))
      (seq 0 n).

(** First row with a non-zero entry in column [col], and the other rows. *)
Fixpoint find_pivot (col : nat) (rows : matrix) : option (list Q * matrix) :=
  match rows with
  | [] => None
  | r :: rs =>
      if Qeq_bool (nth col r 0) 0 then
        match find_pivot col rs with
        | Some (p, rest) => Some (p, r :: rest)
        | None => None
        end
      else Some (r, rs)
  end.

Definition row_scale (c : Q) (r : list Q) : list Q :=
  map (fun x => Qred (c * x)) r.

(** [r - c * p] *)
Definition row_sub_mul (c : Q) (p r : list Q) : list Q :=
  map (fun xy => Qred (snd xy - c * fst xy)) (combine p r).

(** Gauss-Jordan elimination, one column per step: [done] holds the rows
    already used as pivots (in column order), [todo] the others. *)
Fixpoint gauss_jordan (k col : nat) (done todo : matrix) : option matrix :=
  match k with
  | O => Some done
  | S k' =>
      match find_pivot col todo with
      | None => None
      | Some (p, rest) =>
          let p' := row_scale (/ nth col p 0) p in
          let clear r := row_sub_mul (nth col r 0) p' r in
          gauss_jordan k' (S col) (map clear done ++ [p']) (map clear rest)
      end
  end.

(** Inverse of a square matrix; [None] when it is singular. *)
Definition inverse (A : matrix) : option matrix :=
  let n := length A in
  option_map (map (skipn n))
    (gauss_jordan n 0 []
       (map (fun ai => fst ai ++ snd ai) (combine A (identity n)))).

(** Solution of the square system [A x = b]. *)
Definition solve (A : matrix) (b : list Q) : option (list Q) :=
  option_map (fun Ai => matvec Ai b) (inverse A).

(** Pseudo-inverse of a full-rank [m] x [n] matrix: [(A^T A)^-1 A^T] when
    [n <= m], [A^T (A A^T)^-1] otherwise. *)
Definition pinv (ncols : nat) (A : matrix) : option matrix :=
  let At := transpose ncols A in
  if (ncols <=? length A)%nat then
    option_map (fun G => mul_transpose G A) (inverse (mul_transpose At At))
  else
    option_map (fun G => mul_transpose At G) (inverse (mul_transpose A A)).

(** [lstsq(A, y)]: the least-squares solution of [A x = y] (of least norm
    when the system is under-determined). *)
Definition lstsq (ncols : nat) (A : matrix) (y : list Q) : option (list Q) :=
  option_map (fun P => matvec P y) (pinv ncols A).

End Linalg.

(* ------------------------------------------------------------------ *)
(** ** scipy and the numpy polynomial helpers it calls *)

Module Sp.
Import Linalg.

(** Boundary modes of [scipy.ndimage] used by the scripts. *)
Inductive mode := Reflect | Constant (cval : Q).

(** The input extended beyond its ends: [Reflect] is (d c b a | a b c d |
    d c b a), [Constant c] pads with [c]. *)
Definition extend (m : mode) (x : list Q) (i : Z) : Q :=
  let n := Z.of_nat (length x) in
  match m with
  | Constant c =>
      if (0 <=? i)%Z && (i <? n)%Z then nth (Z.to_nat i) x 0 else c
  | Reflect =>
      let p := (i mod (2 * n))%Z in
      nth (Z.to_nat (if (p <? n)%Z then p else 2 * n - 1 - p)%Z) x 0
  end.

(** [correlate1d(input, weights, mode=m)] for weights of odd length
    (origin 0): output [i] is the weighted sum of the window centred at
    [i]. *)
Definition correlate1d (input weights : list Q) (m : mode) : list Q :=
  let h := Z.of_nat (length weights / 2) in
  map (fun i =>
         Qsum (map (fun j => nth j weights 0
                             * extend m input (Z.of_nat i + Z.of_nat j - h))
                   (seq 0 (length weights))))
      (seq 0 (length input)).

(** [convolve1d] is the correlation with the weights reversed. *)
Definition convolve1d (input weights : list Q) (m : mode) : list Q :=
  correlate1d input (rev weights) m.

(** [np.polyfit(x, y, deg)], coefficients by increasing power, and
    [np.polyval]. *)
Definition vander (deg : nat) (x : list Q) : matrix :=
  map (fun xi => map (Qpow xi) (seq 0 (S deg))) x.

Definition polyfit (x y : list Q) (deg : nat) : option (list Q) :=
  lstsq (S deg) (vander deg x) y.

Definition polyval (p : list Q) (x : Q) : Q :=
  Qsum (map (fun kc => snd kc * Qpow x (fst kc)) (combine (seq 0 (length p)) p)).

(** [savgol_coeffs(window_length, polyorder)] ([deriv = 0], [delta = 1],
    [use = 'conv']): the least-norm solution of [A c = e0] where row [k] of
    [A] holds the [k]-th powers of the window positions, reversed.
    [polyorder >= window_length] raises. *)
Definition savgol_coeffs (window_length polyorder : nat) : option (list Q) :=
  if (window_length <=? polyorder)%nat then None
  else
    let halflen := Qof_nat (window_length / 2) in
    let pos := if (window_length mod 2 =? 0)%nat then halflen - (1 # 2)
               else halflen in
    let x := rev (map (fun i => Qof_nat i - pos) (seq 0 window_length)) in
    let A := map (fun k => map (fun xi => Qpow xi k) x) (seq 0 (S polyorder)) in
    let y := map (fun k => if (k =? 0)%nat then 1 else 0) (seq 0 (S polyorder)) in
    lstsq window_length A y.

Definition arangeQ (start stop : nat) : list Q :=
  map Qof_nat (seq start (stop - start)).

(** [_fit_edge]: fit a polynomial to [x[window_start:window_stop]] and write
    its values at [interp_start .. interp_stop - 1] into [y]. *)
Definition fit_edge (x : list Q) (window_start window_stop : nat)
    (interp_start interp_stop : nat) (polyorder : nat) (y : list Q)
  : option (list Q) :=
  let x_edge := slice x window_start window_stop in
  match polyfit (arangeQ 0 (window_stop - window_start)) x_edge polyorder with
  | None => None
  | Some poly_coeffs =>
      let i := arangeQ (interp_start - window_start)
                       (interp_stop - window_start) in
      let values := map (polyval poly_coeffs) i in
      Some (firstn interp_start y ++ values ++ skipn interp_stop y)
  end.

Definition fit_edges_polyfit (x : list Q) (window_length polyorder : nat)
    (y : list Q) : option (list Q) :=
  let halflen := (window_length / 2)%nat in
  let n := length x in
  match fit_edge x 0 window_length 0 halflen polyorder y with
  | None => None
  | Some y1 => fit_edge x (n - window_length) n (n - halflen) n polyorder y1
  end.

(** [savgol_filter(x, window_length, polyorder)] (default [mode =
    'interp']): convolution with the coefficients, then the first and last
    [window_length // 2] outputs are replaced by the values of the polynomial
    fitted to the first and last [window_length] samples.  It raises when
    [polyorder >= window_length] or [window_length > len(x)]. *)
Definition savgol_filter (x : list Q) (window_length polyorder : nat)
  : option (list Q) :=
  match savgol_coeffs window_length polyorder with
  | None => None
  | Some coeffs =>
      if (length x <? window_length)%nat then None
      else
        let y := convolve1d x coeffs (Constant 0) in
        fit_edges_polyfit x window_length polyorder y
  end.

(** Knots of [make_interp_spline(x, y, k=3)] with the default (not-a-knot)
    boundary: [x[2:-2]] between four copies of each end. *)
Definition not_a_knot (x : list Q) : list Q :=
  repeat (hd 0 x) 4 ++ slice x 2 (length x - 2) ++ repeat (last x 0) 4.

(** Index [l] of the knot interval holding [x], [k <= l <= n - 1]: the
    last knot not above [x]; the right end belongs to the last interval. *)
Definition find_interval (t : list Q) (k n : nat) (x : Q) : nat :=
  fold_left (fun best l => if Qle_bool (nth l t 0) x then l else best)
            (seq k (n - k)) k.

(** Cox-de Boor recursion for the B-spline basis function [j] of degree [d]
    on knots [t], at a point [x] of interval [l]. *)
Fixpoint basis (t : list Q) (l : nat) (d j : nat) (x : Q) : Q :=
  match d with
  | O => if (j =? l)%nat then 1 else 0
  | S d' =>
      let tj := nth j t 0 in
      let tj1 := nth (j + 1) t 0 in
      let tjd := nth (j + d) t 0 in
      let tjd1 := nth (j + d + 1) t 0 in
      let left := if Qeq_bool tjd tj then 0
                  else (x - tj) / (tjd - tj) * basis t l d' j x in
      let right := if Qeq_bool tjd1 tj1 then 0
                   else (tjd1 - x) / (tjd1 - tj1) * basis t l d' (j + 1) x in
      Qred (left + right)
  end.

Definition bspline (t c : list Q) (x : Q) : Q :=
  let n := length c in
  let l := find_interval t 3 n x in
  Qsum (map (fun j => nth j c 0 * basis t l 3 j x) (seq 0 n)).

(** [interp1d(x, y, kind='cubic', bounds_error=False, fill_value=(below,
    above))] for increasing [x]: the cubic spline through the points, with
    the fill values outside [x[0], x[-1]].  Fewer than four points raise. *)
Definition interp1d_cubic (x y : list Q) (below above : Q) : option (Q -> Q) :=
  if (length x <? 4)%nat then None
  else
    let t := not_a_knot x in
    let n := length x in
    let A := map (fun xi => let l := find_interval t 3 n xi in
                            map (fun j => basis t l 3 j xi) (seq 0 n)) x in
    match solve A y with
    | None => None
    | Some c =>
        Some (fun x_new =>
                if negb (Qle_bool (hd 0 x) x_new) then below
                else if negb (Qle_bool x_new (last x 0)) then above
                else bspline t c x_new)
    end.

Section Gaussian.
(** [np.exp]; its values are not rational, so it is a parameter of which
    only positivity is used. *)
Variable exp : Q -> Q.

(** [_gaussian_kernel1d(sigma, 0, radius)] *)
Definition gaussian_kernel1d (sigma : Q) (radius : nat) : list Q :=
  let sigma2 := sigma * sigma in
  let x := map (fun i => inject_Z (Z.of_nat i - Z.of_nat radius))
               (seq 0 (2 * radius + 1)) in
  let phi_x := map (fun xi => exp (- (1 # 2) / sigma2 * (xi * xi))) x in
  map (fun p => p / Qsum phi_x) phi_x.

(** [gaussian_filter1d(input, sigma)] ([truncate = 4], [mode = 'reflect']).
    A negative radius raises, and so does [sigma = 0] (division by
    [sigma * sigma]). *)
Definition gaussian_filter1d (input : list Q) (sigma : Q) : option (list Q) :=
  let lw := int_trunc (4 * sigma + (1 # 2)) in
  if (lw <? 0)%Z then None
  else if Qeq_bool sigma 0 then None
  else
    let weights := rev (gaussian_kernel1d sigma (Z.to_nat lw)) in
    Some (correlate1d input weights Reflect).
End Gaussian.

End Sp.

(* ------------------------------------------------------------------ *)
(** ** What a run of a script leaves behind *)

(** Lines printed on standard output, by their role. *)
Inductive message :=
| Loading                             (* "Loading ... from ..." *)
| UsingSmoothing                      (* "Using ... smoothing..." *)
| NoDataFound                         (* "No HTTP ... data found!" *)
| Statistics (values : list Q)        (* the percentile / mean / max lines *)
| SavedAs (output : String.string)    (* "... saved as: ..." *)
| ErrorCaught.                        (* main's "Error: ..." handler *)

(** Where [plt.step] puts the jumps. *)
Inductive step_where := Post | Mid.

(** The observable events of a run, in order: printed lines; the data
    handed to matplotlib by [plt.plot], [plt.step], [plt.errorbar] (with the
    square of its [yerr]), [plt.axvline] and [plt.axhline]; the image written
    by [plt.savefig]; [plt.show]; and, for a script without a handler, the
    traceback of an exception that ends the run.  Labels, colours, titles
    and the other decorations are not recorded. *)
Inductive event :=
| Print (m : message)
| Plot (x : list Q) (y : list (option Q))
| Step (where_ : step_where) (x : list Q) (y : list (option Q))
| ErrorBar (x : list Q) (y : list (option Q)) (yerr2 : list (option Q))
| Axvline (x : Q)
| Axhline (y : Q)
| SaveFig (output : String.string)
| Show
| Traceback.

Definition is_savefig (e : event) : bool :=
  match e with SaveFig _ => true | _ => false end.

Definition is_diagnostic (e : event) : bool :=
  match e with Print NoDataFound => true | _ => false end.

(* ------------------------------------------------------------------ *)
(** ** Per-second request counts (both RPS scripts) *)

Module Rps.

Fixpoint distinct (prev : option Z) (a : list Z) : list Z :=
  match a with
  | [] => []
  | x :: a' =>
      match prev with
      | Some p => if (p =? x)%Z then distinct prev a'
                  else x :: distinct (Some x) a'
      | None => x :: distinct (Some x) a'
      end
  end.

(** [http_reqs.groupby('second').size().values]: the number of rows of each
    second that has rows, by increasing second. *)
Definition per_second (http_reqs : list Pd.row) : list Z :=
  let second := map (fun r => Pd.floor_s (Pd.to_datetime_s (Pd.timestamp r)))
                    http_reqs in
  map (fun s => Z.of_nat (count_occ Z.eq_dec second s))
      (distinct None (Np.sortZ second)).

(** [cumulative = np.arange(1, len(sorted_rps) + 1) / len(sorted_rps)] *)
Definition cumulative (sorted_rps : list Z) : list Q :=
  Np.arange1_over (length sorted_rps).

End Rps.

(* ------------------------------------------------------------------ *)
(** ** scripts/plot_rps_cdf.py *)

Module RpsCdf.

Definition output_name (filename : String.string) : String.string :=
  String.append filename "_rps_cdf.png"%string.

(** [main], from the loaded table on ([filename] with its extensions
    already stripped).  Nothing catches an exception here. *)
Definition main (filename : String.string) (df : list Pd.row) : list event :=
  let http_reqs := Pd.filter_metric "http_reqs"%string df in
  match Pd.to_datetime (map Pd.timestamp http_reqs) with
  | None => [Traceback]
  | Some _ =>
      let sorted_rps := Np.sortZ (Rps.per_second http_reqs) in
      let cumulative := Rps.cumulative sorted_rps in
      [ Plot (map inject_Z sorted_rps) (map Some cumulative);
        SaveFig (output_name filename);
        Print (SavedAs (output_name filename));
        Show ]
  end.

End RpsCdf.

(* ------------------------------------------------------------------ *)
(** ** scripts/plot_rps_cdf_smooth.py *)

Module RpsCdfSmooth.

Inductive smoothing_method := Interpolate | Gaussian | Binned | Both.

Definition method_name (m : smoothing_method) : String.string :=
  match m with
  | Interpolate => "interpolate"%string
  | Gaussian => "gaussian"%string
  | Binned => "binned"%string
  | Both => "both"%string
  end.

(** Lines 47-49: the distinct counts and the cumulative fraction found at
    the index [np.unique] returns for each. *)
Definition unique_points (sorted_rps : list Z) : list Q * list Q :=
  let cumulative := Rps.cumulative sorted_rps in
  let '(unique_rps, unique_indices) := Np.unique_with_index sorted_rps in
  (map inject_Z unique_rps, map (fun i => nth i cumulative 0) unique_indices).

(** Lines 61-69.  The spline is defined on all of [[min, max]] and filled
    outside, so no output is NaN and the mask of lines 66-67 keeps every
    point. *)
Definition interpolate (sorted_rps : list Z) (num_points : Z)
  : option (list Q * list Q) :=
  let '(unique_rps, unique_cumulative) := unique_points sorted_rps in
  if (4 <? length unique_rps)%nat then
    match Sp.interp1d_cubic unique_rps unique_cumulative 0 1 with
    | None => None
    | Some f =>
        match Np.linspace (Np.min unique_rps) (Np.max unique_rps) num_points with
        | None => None
        | Some smooth_x => Some (smooth_x, map f smooth_x)
        end
    end
  else Some (unique_rps, unique_cumulative).

(** Line 81: [max(20, int(len(sorted_rps) * smoothing_factor))], the
    product being that of two doubles; [int] raises when it is not finite. *)
Definition num_bins (n : nat) (smoothing_factor : Q) : option Z :=
  option_map (Z.max 20)
    (Fl.int (Fl.mul (Fl.of_Z (Z.of_nat n)) (Fl.of_Q smoothing_factor))).

Definition bin_centers (bin_edges : list Q) : list Q :=
  map (fun ab => (fst ab + snd ab) / 2)
      (combine (removelast bin_edges) (tl bin_edges)).

(** [np.mean(sorted_rps <= edge)] *)
Definition fraction_le (sorted_rps : list Q) (edge : Q) : Q :=
  Qof_nat (length (filter (fun c => Qle_bool c edge) sorted_rps))
  / Qof_nat (length sorted_rps).

(** Lines 81-91.  The edges and centers are exact here; numpy computes them
    in doubles, so a computed center can differ from the exact one in its
    last bits (and a count that equals the exact center can fall on either
    side of the computed one). *)
Definition binned (sorted_rps : list Z) (smoothing_factor : Q)
  : option (list Q * list Q) :=
  let counts := map inject_Z sorted_rps in
  match num_bins (length sorted_rps) smoothing_factor with
  | None => None
  | Some bins =>
      match Np.linspace (Np.min counts) (Np.max counts) (bins + 1) with
      | None => None
      | Some bin_edges =>
          let centers := bin_centers bin_edges in
          Some (centers, map (fraction_le counts) centers)
      end
  end.

Section WithExp.
Variable exp : Q -> Q.

(** Lines 74-76. *)
Definition gaussian (sorted_rps : list Z) (smoothing_factor : Q)
  : option (list Q * list Q) :=
  let sigma := smoothing_factor * Qof_nat (length sorted_rps) / 100 in
  match Sp.gaussian_filter1d exp (Rps.cumulative sorted_rps) sigma with
  | None => None
  | Some smooth_y => Some (map inject_Z sorted_rps, smooth_y)
  end.

(** Lines 59-104: the smoothed series [(smooth_x, smooth_y)]. *)
Definition smooth (m : smoothing_method) (sorted_rps : list Z)
    (smoothing_factor : Q) (num_points : Z) : option (list Q * list Q) :=
  match m with
  | Interpolate | Both => interpolate sorted_rps num_points
  | Gaussian => gaussian sorted_rps smoothing_factor
  | Binned => binned sorted_rps smoothing_factor
  end.

Definition output_name (base_name : String.string) (m : smoothing_method)
  : String.string :=
  String.append base_name
    (String.append "_rps_cdf_smooth_"%string (String.append (method_name m) ".png"%string)).

(** Lines 109-120: what is drawn for the smoothed series. *)
Definition draw (m : smoothing_method) (sorted_rps : list Z)
    (smooth_x smooth_y : list Q) : list event :=
  match m with
  | Both =>
      [ Step Post (map inject_Z sorted_rps)
             (map Some (Rps.cumulative sorted_rps));
        Plot smooth_x (map Some smooth_y) ]
  | Binned => [Step Mid smooth_x (map Some smooth_y)]
  | Interpolate | Gaussian => [Plot smooth_x (map Some smooth_y)]
  end.

(** [plot_rps_cdf_smooth] under [main]'s exception handler, from the loaded
    table on. *)
Definition plot_rps_cdf_smooth (base_name : String.string) (df : list Pd.row)
    (m : smoothing_method) (smoothing_factor : Q) (num_points : Z)
  : list event :=
  let http_reqs := Pd.filter_metric "http_reqs"%string df in
  [Print Loading; Print UsingSmoothing] ++
  match http_reqs with
  | [] => [Print NoDataFound]
  | _ =>
      match Pd.to_datetime (map Pd.timestamp http_reqs) with
      | None => [Print ErrorCaught]
      | Some _ =>
          let sorted_rps := Np.sortZ (Rps.per_second http_reqs) in
          let counts := map inject_Z sorted_rps in
          let p50 := Np.percentile counts 50 in
          let p95 := Np.percentile counts 95 in
          let p99 := Np.percentile counts 99 in
          let mean_rps := Np.mean counts in
          let max_rps := Np.max counts in
          match smooth m sorted_rps smoothing_factor num_points with
          | None => [Print ErrorCaught]
          | Some (smooth_x, smooth_y) =>
              draw m sorted_rps smooth_x smooth_y ++
              [ Axvline p50; Axvline p95; Axvline p99;
                SaveFig (output_name base_name m);
                Show;
                Print (Statistics [p50; p95; p99; mean_rps; max_rps]);
                Print (SavedAs (output_name base_name m)) ]
          end
      end
  end.
End WithExp.

End RpsCdfSmooth.

(* ------------------------------------------------------------------ *)
(** ** Loading of the latency samples (both request-time scripts) *)

Module Latency.

Definition time_leb (a b : Z * Q) : bool := (fst a <=? fst b)%Z.

(** The filtered rows as (timestamp in ns, metric_value), sorted by
    timestamp ([pd.to_datetime] and [sort_values('timestamp')]).  Samples
    of equal timestamp keep their order here; pandas' default sort does not
    promise that, and nothing below depends on their order. *)
Definition load (rows : list Pd.row) : list (Z * Q) :=
  sort time_leb
    (map (fun r => (Pd.to_datetime_s (Pd.timestamp r), Pd.metric_value r))
         rows).

(** [relative_time = (timestamp - start_time).dt.total_seconds()] *)
Definition relative_time (http_duration : list (Z * Q)) : list Q :=
  let start_time := Pd.Zmin_list (map fst http_duration) in
  map (fun s => Pd.total_seconds (fst s - start_time)) http_duration.

Definition output_prefix (config : String.string) : String.string :=
  String.append "request_times_"%string config.

End Latency.

(* ------------------------------------------------------------------ *)
(** ** scripts/plot_request_times.py *)

Module RequestTimes.

Definition output_file (config : String.string) : String.string :=
  String.append (Latency.output_prefix config) ".png"%string.

(** [plot_request_times] under [main]'s exception handler, from the loaded
    table on ([config] is the label parsed from the file name). *)
Definition plot_request_times (config : String.string) (df : list Pd.row)
  : list event :=
  let rows := Pd.filter_metric "http_req_duration"%string df in
  [Print Loading] ++
  match rows with
  | [] => [Print NoDataFound]
  | _ =>
      match Pd.to_datetime (map Pd.timestamp rows) with
      | None => [Print ErrorCaught]
      | Some _ =>
          let http_duration := Latency.load rows in
          let values := map snd http_duration in
          let p95 := Pd.quantile values (95 # 100) in
          let p99 := Pd.quantile values (99 # 100) in
          [ Plot (Latency.relative_time http_duration) (map Some values);
            Axhline p95; Axhline p99;
            SaveFig (output_file config);
            Show;
            Print (Statistics [p95; p99; Np.mean values; Np.max values]);
            Print (SavedAs (output_file config)) ]
      end
  end.

End RequestTimes.

(* ------------------------------------------------------------------ *)
(** ** scripts/plot_request_times_smooth.py *)

Module RequestTimesSmooth.

Inductive smoothing_method := Rolling | Resample | Savgol | Both.

Definition method_name (m : smoothing_method) : String.string :=
  match m with
  | Rolling => "rolling"%string
  | Resample => "resample"%string
  | Savgol => "savgol"%string
  | Both => "both"%string
  end.

(** What the smoothing step produces: the ['smoothed'] column, one entry per
    sample, or the [resampled] frame. *)
Inductive smoothed :=
| Column (ys : list (option Q))
| Resampled (rows : list Pd.bucket).

(** Line 78: the window handed to the filter. *)
Definition savgol_window (window_size : Z) : Z :=
  if (window_size mod 2 =? 1)%Z then window_size else (window_size + 1)%Z.

(** Line 82: the window of the fall-back average. *)
Definition fallback_window (n : nat) : Z := Z.min 10 (Z.of_nat n / 2).

(** Lines 76-82. *)
Definition smooth_savgol (values : list Q) (window_size : Z)
  : option (list (option Q)) :=
  if (Z.of_nat (length values) >? window_size)%Z then
    option_map (map Some)
      (Sp.savgol_filter values (Z.to_nat (savgol_window window_size)) 3)
  else
    Pd.rolling_mean (fallback_window (length values)) values.

(** Lines 67-71. *)
Definition smooth_resample (http_duration : list (Z * Q))
    (resample_freq : positive) : list Pd.bucket :=
  let resampled := Pd.resample resample_freq http_duration in
  filter (fun b => (3 <=? Pd.b_count b)%nat) resampled.

(** Lines 59-88. *)
Definition smooth (m : smoothing_method) (http_duration : list (Z * Q))
    (window_size : Z) (resample_freq : positive) : option smoothed :=
  let values := map snd http_duration in
  match m with
  | Rolling | Both => option_map Column (Pd.rolling_mean window_size values)
  | Resample => Some (Resampled (smooth_resample http_duration resample_freq))
  | Savgol => option_map Column (smooth_savgol values window_size)
  end.

(** The series drawn for a smoothing result. *)
Definition series (http_duration : list (Z * Q)) (s : smoothed)
  : list Q * list (option Q) :=
  match s with
  | Column ys => (Latency.relative_time http_duration, ys)
  | Resampled rows =>
      let start_time := Pd.Zmin_list (map fst http_duration) in
      (map (fun b => Pd.total_seconds (Pd.b_timestamp b - start_time)) rows,
       map Pd.b_mean rows)
  end.

Definition output_file (config : String.string) (m : smoothing_method)
  : String.string :=
  String.append (Latency.output_prefix config)
    (String.append "_smooth_"%string
       (String.append (method_name m) ".png"%string)).

(** Lines 93-125: what is drawn for a smoothing result. *)
Definition draw (m : smoothing_method) (http_duration : list (Z * Q))
    (s : smoothed) : list event :=
  let x := fst (series http_duration s) in
  let y := snd (series http_duration s) in
  match m, s with
  | Both, _ =>
      [ Plot (Latency.relative_time http_duration)
             (map Some (map snd http_duration));
        Plot x y ]
  | Resample, Resampled rows => [ErrorBar x y (map Pd.b_var rows); Plot x y]
  | _, _ => [Plot x y]
  end.

(** [plot_request_times_smooth] under [main]'s exception handler, from the
    loaded table on. *)
Definition plot_request_times_smooth (config : String.string)
    (df : list Pd.row) (m : smoothing_method) (window_size : Z)
    (resample_freq : positive) : list event :=
  let rows := Pd.filter_metric "http_req_duration"%string df in
  [Print Loading; Print UsingSmoothing] ++
  match rows with
  | [] => [Print NoDataFound]
  | _ =>
      match Pd.to_datetime (map Pd.timestamp rows) with
      | None => [Print ErrorCaught]
      | Some _ =>
          let http_duration := Latency.load rows in
          let values := map snd http_duration in
          let p95 := Pd.quantile values (95 # 100) in
          let p99 := Pd.quantile values (99 # 100) in
          let avg := Np.mean values in
          let max_val := Np.max values in
          match smooth m http_duration window_size resample_freq with
          | None => [Print ErrorCaught]
          | Some s =>
              draw m http_duration s ++
              [ Axhline p95; Axhline p99; Axhline avg;
                SaveFig (output_file config m);
                Show;
                Print (Statistics [p95; p99; avg; max_val]);
                Print (SavedAs (output_file config m)) ]
          end
      end
  end.

End RequestTimesSmooth.

(* ================================================================== *)
(** * Part II: facts *)

(* ------------------------------------------------------------------ *)
(** ** Sorting *)

Section InsertionSortFacts.
Context {A : Type}.
Variable leb : A -> A -> bool.

Lemma insert_perm x l : Permutation (x :: l) (insert leb x l).
Proof.
  induction l as [|y l IH]; simpl; [reflexivity|].
  destruct (leb x y); [reflexivity|].
  rewrite perm_swap. now constructor.
Qed.

Lemma sort_perm l : Permutation l (sort leb l).
Proof.
  induction l as [|x l IH]; simpl; [constructor|].
  rewrite <- insert_perm. now constructor.
Qed.

Lemma sort_length l : length (sort leb l) = length l.
Proof. symmetry. apply Permutation_length, sort_perm. Qed.

Lemma sort_In x l : In x (sort leb l) <-> In x l.
Proof.
  split; apply Permutation_in; [symmetry|]; apply sort_perm.
Qed.

Hypothesis leb_total : forall x y, leb x y = true \/ leb y x = true.
Hypothesis leb_trans : forall x y z,
    leb x y = true -> leb y z = true -> leb x z = true.

Lemma insert_sorted x l :
  StronglySorted (fun a b => leb a b = true) l ->
  StronglySorted (fun a b => leb a b = true) (insert leb x l).
Proof.
  induction 1 as [|y l Hs IH Hy]; simpl.
  - repeat constructor.
  - destruct (leb x y) eqn:E.
    + constructor; [now constructor|].
      constructor; [exact E|].
      eapply Forall_impl; [|exact Hy]. intros z Hz. eapply leb_trans; eauto.
    + constructor; [exact IH|].
      eapply Permutation_Forall; [apply insert_perm|].
      constructor; [|exact Hy].
      destruct (leb_total x y) as [C|C]; [congruence|exact C].
Qed.

Lemma sort_sorted l : StronglySorted (fun a b => leb a b = true) (sort leb l).
Proof.
  induction l; simpl; [constructor|]. now apply insert_sorted.
Qed.
End InsertionSortFacts.

(** In a strongly sorted list, positions are ordered like their contents. *)
Lemma StronglySorted_nth {A} (R : A -> A -> Prop) (d : A) l :
  StronglySorted R l ->
  forall i j, (i < j < length l)%nat -> R (nth i l d) (nth j l d).
Proof.
  induction 1 as [|x l Hs IH Hx]; simpl; intros i j Hij; [lia|].
  destruct j as [|j]; [lia|]. destruct i as [|i].
  - rewrite Forall_forall in Hx. apply Hx, nth_In. lia.
  - apply IH. lia.
Qed.

Lemma Qle_bool_total x y : Qle_bool x y = true \/ Qle_bool y x = true.
Proof.
  rewrite !Qle_bool_iff. destruct (Qlt_le_dec x y); [left|right]; lra.
Qed.

Lemma Qle_bool_trans x y z :
  Qle_bool x y = true -> Qle_bool y z = true -> Qle_bool x z = true.
Proof. rewrite !Qle_bool_iff. lra. Qed.

Lemma sortQ_nth_le (a : list Q) i j :
  (i <= j < length a)%nat -> nth i (Np.sortQ a) 0 <= nth j (Np.sortQ a) 0.
Proof.
  intros Hij. destruct (Nat.eq_dec i j) as [->|Hne]; [lra|].
  apply Qle_bool_iff.
  apply (StronglySorted_nth (fun x y => Qle_bool x y = true)).
  - apply sort_sorted; [apply Qle_bool_total|apply Qle_bool_trans].
  - unfold Np.sortQ. rewrite sort_length. lia.
Qed.

Lemma Zleb_total x y : (x <=? y)%Z = true \/ (y <=? x)%Z = true.
Proof. rewrite !Z.leb_le. lia. Qed.

Lemma Zleb_trans x y z :
  (x <=? y)%Z = true -> (y <=? z)%Z = true -> (x <=? z)%Z = true.
Proof. rewrite !Z.leb_le. lia. Qed.

Lemma StronglySorted_impl {A} (R S : A -> A -> Prop) l :
  (forall x y, R x y -> S x y) -> StronglySorted R l -> StronglySorted S l.
Proof.
  intros HRS. induction 1; constructor; auto.
  eapply Forall_impl; [|eassumption]. auto.
Qed.

Lemma sortZ_sorted (a : list Z) : StronglySorted Z.le (Np.sortZ a).
Proof.
  eapply StronglySorted_impl;
    [|exact (sort_sorted Z.leb Zleb_total Zleb_trans a)].
  intros x y. apply Z.leb_le.
Qed.

(* ------------------------------------------------------------------ *)
(** ** Maximum, minimum, means *)

Lemma fold_Qmaxb_ge l : forall x0,
  x0 <= fold_left Qmaxb l x0 /\ Forall (fun y => y <= fold_left Qmaxb l x0) l.
Proof.
  induction l as [|y l IH]; intros x0; simpl; [split; [lra|constructor]|].
  destruct (IH (Qmaxb x0 y)) as [H1 H2].
  assert (Hm : x0 <= Qmaxb x0 y /\ y <= Qmaxb x0 y).
  { unfold Qmaxb. destruct (Qle_bool x0 y) eqn:E.
    - apply Qle_bool_iff in E. split; lra.
    - split; [lra|]. destruct (Qle_bool_total x0 y) as [C|C]; [congruence|].
      now apply Qle_bool_iff. }
  split; [lra|]. constructor; [lra|exact H2].
Qed.

Lemma fold_Qminb_le l : forall x0,
  fold_left Qminb l x0 <= x0 /\ Forall (fun y => fold_left Qminb l x0 <= y) l.
Proof.
  induction l as [|y l IH]; intros x0; simpl; [split; [lra|constructor]|].
  destruct (IH (Qminb x0 y)) as [H1 H2].
  assert (Hm : Qminb x0 y <= x0 /\ Qminb x0 y <= y).
  { unfold Qminb. destruct (Qle_bool x0 y) eqn:E.
    - apply Qle_bool_iff in E. split; lra.
    - split; [|lra]. destruct (Qle_bool_total x0 y) as [C|C]; [congruence|].
      now apply Qle_bool_iff. }
  split; [lra|]. constructor; [lra|exact H2].
Qed.

Lemma max_ge (a : list Q) x : In x a -> x <= Np.max a.
Proof.
  destruct a as [|x0 l]; simpl; [tauto|].
  destruct (fold_Qmaxb_ge l x0) as [H1 H2]. rewrite Forall_forall in H2.
  intros [<-|Hin]; auto.
Qed.

Lemma min_le (a : list Q) x : In x a -> Np.min a <= x.
Proof.
  destruct a as [|x0 l]; simpl; [tauto|].
  destruct (fold_Qminb_le l x0) as [H1 H2]. rewrite Forall_forall in H2.
  intros [<-|Hin]; auto.
Qed.

Lemma fold_Qmaxb_In l : forall x0, In (fold_left Qmaxb l x0) (x0 :: l).
Proof.
  induction l as [|y l IH]; intros x0; simpl; [now left|].
  destruct (IH (Qmaxb x0 y)) as [H|H].
  - unfold Qmaxb in H at 1. destruct (Qle_bool x0 y); auto.
  - auto.
Qed.


Lemma max_In (a : list Q) : a <> [] -> In (Np.max a) a.
Proof. destruct a; [congruence|]. intros _. apply fold_Qmaxb_In. Qed.


Lemma StronglySorted_map_in {A B} (R : A -> A -> Prop) (S : B -> B -> Prop)
    (f : A -> B) (l : list A) :
  (forall x y, In x l -> In y l -> R x y -> S (f x) (f y)) ->
  StronglySorted R l -> StronglySorted S (map f l).
Proof.
  intros H Hs. induction Hs as [|x l Hs IH Hx]; simpl; constructor.
  - apply IH. intros a b Ha Hb. apply H; now right.
  - apply Forall_forall. intros y Hy. apply in_map_iff in Hy.
    destruct Hy as (z & <- & Hz). rewrite Forall_forall in Hx.
    apply H; [now left|now right|now apply Hx].
Qed.

Lemma seq_increasing (len : nat) : forall start,
  StronglySorted lt (seq start len).
Proof.
  induction len as [|len IH]; intros start; simpl; constructor; [apply IH|].
  apply Forall_forall. intros y Hy. apply in_seq in Hy. lia.
Qed.

Lemma Qof_nat_lt (n m : nat) : (n < m)%nat -> Qof_nat n < Qof_nat m.
Proof. intros H. unfold Qof_nat. rewrite <- Zlt_Qlt. lia. Qed.

(* ------------------------------------------------------------------ *)
(** ** Percentiles *)

(** Linear interpolation stays between its end points and grows with its
    parameter. *)
Lemma lerp_bounds (a b g : Q) :
  a <= b -> 0 <= g <= 1 -> a <= a + (b - a) * g /\ a + (b - a) * g <= b.
Proof.
  intros Hab [Hg0 Hg1].
  assert (H1 : 0 <= (b - a) * g) by (apply Qmult_le_0_compat; lra).
  assert (H2 : 0 <= (b - a) * (1 - g)) by (apply Qmult_le_0_compat; lra).
  split; lra.
Qed.

Lemma lerp_mono (a b g g' : Q) :
  a <= b -> g <= g' -> a + (b - a) * g <= a + (b - a) * g'.
Proof.
  intros Hab Hg.
  assert (H : 0 <= (b - a) * (g' - g)) by (apply Qmult_le_0_compat; lra).
  lra.
Qed.

Lemma Qof_nat_le (n m : nat) : (n <= m)%nat -> Qof_nat n <= Qof_nat m.
Proof. intros H. unfold Qof_nat. rewrite <- Zle_Qle. lia. Qed.

Lemma Qof_nat_pos (n : nat) : (0 < n)%nat -> 0 < Qof_nat n.
Proof.
  intros H. unfold Qof_nat. change 0 with (inject_Z 0). rewrite <- Zlt_Qlt. lia.
Qed.

Section VirtualIndex.
Variable n : nat.
Hypothesis n_pos : (0 < n)%nat.

(** The virtual index of a percentile and the position below it. *)
Definition virtual_index (q : Q) : Q := (Qof_nat n - 1) * (q / 100).

Lemma virtual_index_mono q1 q2 :
  q1 <= q2 -> virtual_index q1 <= virtual_index q2.
Proof.
  intros H. unfold virtual_index.
  assert (Hn : 0 <= Qof_nat n - 1).
  { assert (H1 := Qof_nat_le 1 n ltac:(lia)). change (Qof_nat 1) with 1 in H1. lra. }
  assert (Hq : 0 <= (Qof_nat n - 1) * (q2 / 100 - q1 / 100)).
  { apply Qmult_le_0_compat; [exact Hn|].
    unfold Qdiv. change (/ 100) with (1 # 100). lra. }
  unfold Qdiv in *. change (/ 100) with (1 # 100) in *. lra.
Qed.

Lemma virtual_index_range q :
  0 <= q -> q <= 100 -> 0 <= virtual_index q /\ virtual_index q <= Qof_nat n - 1.
Proof.
  intros H0 H100.
  assert (A := virtual_index_mono 0 q H0).
  assert (B := virtual_index_mono q 100 H100).
  unfold virtual_index, Qdiv in *. change (/ 100) with (1 # 100) in *.
  split; lra.
Qed.

Lemma floor_virtual_index_range q :
  0 <= q -> q <= 100 ->
  (0 <= Qfloor (virtual_index q) <= Z.of_nat n - 1)%Z.
Proof.
  intros H0 H100. destruct (virtual_index_range q H0 H100) as [A B]. split.
  - change 0%Z with (Qfloor 0). now apply Qfloor_resp_le.
  - assert (C := Qfloor_le (virtual_index q)).
    rewrite Zle_Qle. unfold Z.sub. rewrite inject_Z_plus, inject_Z_opp.
    unfold Qof_nat in B. change (inject_Z 1) with 1. lra.
Qed.
End VirtualIndex.

Lemma clip_index_id n p :
  (0 <= p <= Z.of_nat n - 1)%Z -> Np.clip_index n p = Z.to_nat p.
Proof. intros H. unfold Np.clip_index. f_equal. lia. Qed.

Lemma clip_index_succ n p :
  (0 <= p <= Z.of_nat n - 1)%Z ->
  (Z.to_nat p <= Np.clip_index n (p + 1) < n)%nat /\
  forall p', (p < p' <= Z.of_nat n - 1)%Z ->
             (Np.clip_index n (p + 1) <= Z.to_nat p')%nat.
Proof. intros H. unfold Np.clip_index. split; [lia|]. intros p' H'. lia. Qed.

Lemma percentile_unfold (a : list Q) (q : Q) :
  let v := virtual_index (length a) q in
  let lo := nth (Np.clip_index (length a) (Qfloor v)) (Np.sortQ a) 0 in
  let hi := nth (Np.clip_index (length a) (Qfloor v + 1)) (Np.sortQ a) 0 in
  Np.percentile a q = lo + (hi - lo) * (v - inject_Z (Qfloor v)).
Proof.
  unfold Np.percentile, virtual_index. cbv zeta.
  replace (length (Np.sortQ a)) with (length a); [reflexivity|].
  unfold Np.sortQ. now rewrite sort_length.
Qed.

(** The percentile is monotone in the requested percentage. *)
Lemma percentile_mono (a : list Q) (q1 q2 : Q) :
  a <> [] -> 0 <= q1 -> q1 <= q2 -> q2 <= 100 ->
  Np.percentile a q1 <= Np.percentile a q2.
Proof.
  intros Ha H0 H12 H100.
  assert (Hn : (0 < length a)%nat) by (destruct a; [congruence|simpl; lia]).
  rewrite !percentile_unfold. cbv zeta.
  set (v1 := virtual_index (length a) q1).
  set (v2 := virtual_index (length a) q2).
  assert (Hv : v1 <= v2) by (apply virtual_index_mono; auto).
  assert (R1 : (0 <= Qfloor v1 <= Z.of_nat (length a) - 1)%Z)
    by (apply floor_virtual_index_range; auto; lra).
  assert (R2 : (0 <= Qfloor v2 <= Z.of_nat (length a) - 1)%Z)
    by (apply floor_virtual_index_range; auto; lra).
  assert (F12 : (Qfloor v1 <= Qfloor v2)%Z) by now apply Qfloor_resp_le.
  rewrite (clip_index_id _ _ R1), (clip_index_id _ _ R2).
  destruct (clip_index_succ _ _ R1) as [S1 T1].
  destruct (clip_index_succ _ _ R2) as [S2 T2].
  assert (G1 : 0 <= v1 - inject_Z (Qfloor v1) <= 1).
  { assert (A := Qfloor_le v1). assert (B := Qlt_floor v1).
    rewrite inject_Z_plus in B. change (inject_Z 1) with 1 in B. split; lra. }
  assert (G2 : 0 <= v2 - inject_Z (Qfloor v2) <= 1).
  { assert (A := Qfloor_le v2). assert (B := Qlt_floor v2).
    rewrite inject_Z_plus in B. change (inject_Z 1) with 1 in B. split; lra. }
  assert (L1 := sortQ_nth_le a _ _ (conj (proj1 S1) (proj2 S1))).
  assert (L2 := sortQ_nth_le a _ _ (conj (proj1 S2) (proj2 S2))).
  destruct (Z.eq_dec (Qfloor v1) (Qfloor v2)) as [E|NE].
  - rewrite E in *. apply lerp_mono; [exact L2|lra].
  - destruct (lerp_bounds _ _ _ L1 G1) as [_ U1].
    destruct (lerp_bounds _ _ _ L2 G2) as [U2 _].
    assert (M : nth (Np.clip_index (length a) (Qfloor v1 + 1)) (Np.sortQ a) 0
                <= nth (Z.to_nat (Qfloor v2)) (Np.sortQ a) 0).
    { apply sortQ_nth_le. split; [apply T1; lia|lia]. }
    lra.
Qed.

(** No percentile exceeds the maximum. *)
Lemma percentile_le_max (a : list Q) (q : Q) :
  a <> [] -> 0 <= q -> q <= 100 -> Np.percentile a q <= Np.max a.
Proof.
  intros Ha H0 H100.
  assert (Hn : (0 < length a)%nat) by (destruct a; [congruence|simpl; lia]).
  rewrite percentile_unfold. cbv zeta.
  set (v := virtual_index (length a) q).
  assert (R : (0 <= Qfloor v <= Z.of_nat (length a) - 1)%Z)
    by (apply floor_virtual_index_range; auto).
  rewrite (clip_index_id _ _ R).
  destruct (clip_index_succ _ _ R) as [S1 _].
  assert (G : 0 <= v - inject_Z (Qfloor v) <= 1).
  { assert (A := Qfloor_le v). assert (B := Qlt_floor v).
    rewrite inject_Z_plus in B. change (inject_Z 1) with 1 in B. split; lra. }
  assert (L := sortQ_nth_le a _ _ (conj (proj1 S1) (proj2 S1))).
  destruct (lerp_bounds _ _ _ L G) as [_ U].
  assert (M : nth (Np.clip_index (length a) (Qfloor v + 1)) (Np.sortQ a) 0
              <= Np.max a).
  { apply max_ge. apply (sort_In Qle_bool). apply nth_In.
    unfold Np.sortQ. rewrite sort_length. lia. }
  lra.
Qed.

(** C8.  For every non-empty numeric sequence the linear-interpolation
    percentiles are ordered, P50 <= P95 <= P99 <= max: both as the RPS
    script computes them ([np.percentile] at 50, 95, 99) and as the
    request-time scripts do ([Series.quantile] at 0.95, 0.99). *)
Theorem percentiles_ordered (a : list Q) :
  a <> [] ->
  Np.percentile a 50 <= Np.percentile a 95 /\
  Np.percentile a 95 <= Np.percentile a 99 /\
  Np.percentile a 99 <= Np.max a /\
  Pd.quantile a (95 # 100) <= Pd.quantile a (99 # 100) /\
  Pd.quantile a (99 # 100) <= Np.max a.
Proof.
  intros Ha. unfold Pd.quantile.
  repeat split;
    try (apply percentile_mono; auto; lra);
    apply percentile_le_max; auto; lra.
Qed.

Lemma percentiles_ordered_witness :
  Np.percentile [5; 5; 5; 5; 5; 5; 5; 5; 5; 15] 50
    <= Np.percentile [5; 5; 5; 5; 5; 5; 5; 5; 5; 15] 95 /\
  Np.percentile [5; 5; 5; 5; 5; 5; 5; 5; 5; 15] 99
    <= Np.max [5; 5; 5; 5; 5; 5; 5; 5; 5; 15].
Proof.
  destruct (percentiles_ordered [5; 5; 5; 5; 5; 5; 5; 5; 5; 15])
    as (H1 & _ & H3 & _); [discriminate|].
  split; assumption.
Defined.

(* ------------------------------------------------------------------ *)
(** ** Means of non-empty lists *)

Lemma Qof_nat_S (n : nat) : Qof_nat (S n) == Qof_nat n + 1.
Proof.
  unfold Qof_nat. rewrite Nat2Z.inj_succ. unfold Z.succ.
  rewrite inject_Z_plus. reflexivity.
Qed.

Lemma Qsum_le_const (M : Q) (l : list Q) :
  Forall (fun x => x <= M) l -> Qsum l <= Qof_nat (length l) * M.
Proof.
  induction 1 as [|x l Hx Hl IH]; simpl.
  - change (Qof_nat 0) with 0. lra.
  - rewrite Qof_nat_S. lra.
Qed.

Lemma Qsum_ge_const (m : Q) (l : list Q) :
  Forall (fun x => m <= x) l -> Qof_nat (length l) * m <= Qsum l.
Proof.
  induction 1 as [|x l Hx Hl IH]; simpl.
  - change (Qof_nat 0) with 0. lra.
  - rewrite Qof_nat_S. lra.
Qed.

(** A mean lies between any two bounds of the averaged values. *)
Lemma mean_between (l : list Q) (m M : Q) :
  l <> [] -> Forall (fun x => m <= x) l -> Forall (fun x => x <= M) l ->
  m <= Np.mean l /\ Np.mean l <= M.
Proof.
  intros Hl Hm HM. unfold Np.mean.
  assert (Hn : 0 < Qof_nat (length l)).
  { apply Qof_nat_pos. destruct l; [congruence|simpl; lia]. }
  split.
  - apply Qle_shift_div_l; [exact Hn|].
    rewrite Qmult_comm. now apply Qsum_ge_const.
  - apply Qle_shift_div_r; [exact Hn|].
    rewrite Qmult_comm. now apply Qsum_le_const.
Qed.

(** A mean lies between the least and the greatest averaged value. *)
Lemma mean_min_max (l : list Q) :
  l <> [] -> Np.min l <= Np.mean l /\ Np.mean l <= Np.max l.
Proof.
  intros Hl. apply mean_between; [exact Hl| |]; apply Forall_forall; intros x Hx.
  - now apply min_le.
  - now apply max_ge.
Qed.

(** The mean of copies of one value is that value. *)
Lemma mean_const (v : Q) (l : list Q) :
  l <> [] -> Forall (fun x => x == v) l -> Np.mean l == v.
Proof.
  intros Hl Hv.
  destruct (mean_between l v v Hl) as [A B].
  - eapply Forall_impl; [|exact Hv]. intros x Hx. simpl in Hx. lra.
  - eapply Forall_impl; [|exact Hv]. intros x Hx. simpl in Hx. lra.
  - lra.
Qed.

(* ------------------------------------------------------------------ *)
(** ** Columns with NaN entries *)

Lemma defined_app {A} (l1 l2 : list (option A)) :
  defined (l1 ++ l2) = defined l1 ++ defined l2.
Proof.
  induction l1 as [|[x|] l1 IH]; simpl; [reflexivity| |]; now rewrite IH.
Qed.

Lemma defined_map_none {A B} (f : A -> option B) (l : list A) :
  (forall i, In i l -> f i = None) -> defined (map f l) = [].
Proof.
  induction l as [|a l IH]; simpl; intros H; [reflexivity|].
  rewrite (H a) by auto. apply IH. auto.
Qed.

Lemma defined_map_some {A B} (f : A -> option B) (l : list A) :
  (forall i, In i l -> f i <> None) -> length (defined (map f l)) = length l.
Proof.
  induction l as [|a l IH]; simpl; intros H; [reflexivity|].
  destruct (f a) eqn:E; [|exfalso; now apply (H a); auto].
  simpl. f_equal. apply IH. auto.
Qed.

Lemma defined_In {A} (l : list (option A)) (x : A) :
  In x (defined l) <-> In (Some x) l.
Proof.
  induction l as [|[y|] l IH]; simpl; [tauto| |].
  - rewrite IH. split; intros [H|H]; auto; left; congruence.
  - rewrite IH. split; [auto|]. intros [H|H]; [discriminate|auto].
Qed.

Lemma slice_length {A} (l : list A) (s e : nat) :
  length (slice l s e) = Nat.min (e - s) (length l - s).
Proof. unfold slice. now rewrite length_firstn, length_skipn. Qed.

Lemma slice_incl {A} (l : list A) (s e : nat) x : In x (slice l s e) -> In x l.
Proof.
  unfold slice. intros H.
  rewrite <- (firstn_skipn s l). apply in_or_app. right.
  rewrite <- (firstn_skipn (e - s) (skipn s l)). apply in_or_app. now left.
Qed.

(* ------------------------------------------------------------------ *)
(** ** Rolling average *)

(** Linear integer goals with division by a literal. *)
Ltac zdiv := Z.div_mod_to_equations; lia.

Section RollingFacts.
Variable xs : list Q.
Variable w : Z.
Hypothesis w_pos : (1 <= w)%Z.

(** Position [i] has a full window: [w] samples fit around it. *)
Definition full_window (i : nat) : Prop :=
  (w - 1 - (w - 1) / 2 <= Z.of_nat i
   <= Z.of_nat (length xs) - 1 - (w - 1) / 2)%Z.

Lemma window_slice_full (i : nat) :
  full_window i ->
  Z.of_nat (length (Pd.window_slice w xs i)) = w /\
  Pd.window_slice w xs i
  = slice xs (i - Z.to_nat (w / 2)) (i - Z.to_nat (w / 2) + Z.to_nat w).
Proof.
  unfold full_window, Pd.window_slice, Pd.fixed_window, Pd.clip.
  intros H. split.
  - rewrite slice_length. zdiv.
  - f_equal; zdiv.
Qed.

Lemma window_slice_short (i : nat) :
  ~ full_window i -> (Z.of_nat (length (Pd.window_slice w xs i)) < w)%Z.
Proof.
  unfold full_window, Pd.window_slice, Pd.fixed_window, Pd.clip.
  intros H. rewrite slice_length. zdiv.
Qed.

(** One entry of the rolling-average column. *)
Definition rolling_entry (i : nat) : option Q :=
  let sl := Pd.window_slice w xs i in
  let nobs := Z.of_nat (length sl) in
  if (w <=? nobs)%Z && (0 <? nobs)%Z then Some (Np.mean sl) else None.

Lemma rolling_mean_entries :
  Pd.rolling_mean w xs = Some (map rolling_entry (seq 0 (length xs))).
Proof.
  unfold Pd.rolling_mean.
  destruct (w <? 0)%Z eqn:E; [apply Z.ltb_lt in E; lia|reflexivity].
Qed.

Lemma rolling_entry_full (i : nat) :
  full_window i -> rolling_entry i = Some (Np.mean (Pd.window_slice w xs i)).
Proof.
  intros H. destruct (window_slice_full i H) as [L _]. unfold rolling_entry.
  cbv zeta. rewrite L.
  replace (w <=? w)%Z with true by (symmetry; apply Z.leb_le; lia).
  replace (0 <? w)%Z with true by (symmetry; apply Z.ltb_lt; lia).
  reflexivity.
Qed.

Lemma rolling_entry_short (i : nat) :
  ~ full_window i -> rolling_entry i = None.
Proof.
  intros H. assert (L := window_slice_short i H). unfold rolling_entry.
  cbv zeta.
  replace (w <=? _)%Z with false by (symmetry; apply Z.leb_gt; lia).
  reflexivity.
Qed.

Lemma full_window_dec (i : nat) : {full_window i} + {~ full_window i}.
Proof.
  unfold full_window.
  destruct (Z_le_dec (w - 1 - (w - 1) / 2) (Z.of_nat i));
    destruct (Z_le_dec (Z.of_nat i) (Z.of_nat (length xs) - 1 - (w - 1) / 2));
    (left; lia) || (right; lia).
Qed.

(** With at least [w] samples, exactly [n - (w - 1)] entries are defined. *)
Lemma rolling_defined_count :
  (w <= Z.of_nat (length xs))%Z ->
  Z.of_nat (length (defined (map rolling_entry (seq 0 (length xs)))))
  = (Z.of_nat (length xs) - (w - 1))%Z.
Proof.
  intros Hw.
  remember (Z.to_nat (w - 1 - (w - 1) / 2)) as a eqn:Ha.
  remember (Z.to_nat (Z.of_nat (length xs) - (w - 1))) as m eqn:Hm.
  remember (length xs - (a + m))%nat as r eqn:Hr.
  assert (Hsplit : length xs = (a + (m + r))%nat) by zdiv.
  rewrite Hsplit at 1.
  rewrite !seq_app, !map_app, !defined_app, !length_app. simpl.
  rewrite (defined_map_none rolling_entry (seq 0 a)).
  2:{ intros i Hi. apply in_seq in Hi. apply rolling_entry_short.
      unfold full_window. zdiv. }
  rewrite (defined_map_none rolling_entry (seq (a + m) r)).
  2:{ intros i Hi. apply in_seq in Hi. apply rolling_entry_short.
      unfold full_window. zdiv. }
  rewrite defined_map_some.
  2:{ intros i Hi. apply in_seq in Hi. rewrite rolling_entry_full.
      - discriminate.
      - unfold full_window. zdiv. }
  rewrite length_seq. simpl. zdiv.
Qed.

(** With fewer than [w] samples no entry is defined. *)
Lemma rolling_defined_none :
  (Z.of_nat (length xs) < w)%Z ->
  defined (map rolling_entry (seq 0 (length xs))) = [].
Proof.
  intros Hw. apply defined_map_none. intros i Hi. apply in_seq in Hi.
  apply rolling_entry_short. unfold full_window. zdiv.
Qed.

Lemma rolling_entry_inv (i : nat) (y : Q) :
  nth_error (map rolling_entry (seq 0 (length xs))) i = Some (Some y) ->
  full_window i /\ y = Np.mean (Pd.window_slice w xs i).
Proof.
  intros H. rewrite nth_error_map in H.
  destruct (nth_error (seq 0 (length xs)) i) as [k|] eqn:E; [|discriminate].
  assert (Hi : (i < length (seq 0 (length xs)))%nat).
  { apply nth_error_Some. congruence. }
  rewrite length_seq in Hi.
  rewrite nth_error_nth' with (d := O) in E by (rewrite length_seq; lia).
  rewrite seq_nth in E by lia. injection E as <-. simpl in H.
  destruct (full_window_dec i) as [F|F].
  - rewrite rolling_entry_full in H by assumption. split; [exact F|congruence].
  - rewrite rolling_entry_short in H by assumption. discriminate.
Qed.
End RollingFacts.

(** C6.  For a window of [w >= 1] samples the rolling average of [n]
    samples has [n - (w - 1)] defined entries when [n >= w] and none when
    [n < w]; an entry defined at position [i] is the mean of the [w] samples
    [xs[i - w/2 : i - w/2 + w]] and lies between their minimum and their
    maximum. *)
Theorem rolling_average_shape (xs : list Q) (w : Z) :
  (1 <= w)%Z ->
  exists ys,
    Pd.rolling_mean w xs = Some ys /\
    length ys = length xs /\
    ((w <= Z.of_nat (length xs))%Z ->
     Z.of_nat (length (defined ys)) = (Z.of_nat (length xs) - (w - 1))%Z) /\
    ((Z.of_nat (length xs) < w)%Z -> defined ys = []) /\
    forall i y, nth_error ys i = Some (Some y) ->
      let sl := Pd.window_slice w xs i in
      Z.of_nat (length sl) = w /\
      sl = slice xs (i - Z.to_nat (w / 2)) (i - Z.to_nat (w / 2) + Z.to_nat w) /\
      y = Np.mean sl /\
      Np.min sl <= y /\ y <= Np.max sl.
Proof.
  intros Hw. exists (map (rolling_entry xs w) (seq 0 (length xs))).
  split; [now apply rolling_mean_entries|].
  split; [now rewrite length_map, length_seq|].
  split; [now apply rolling_defined_count|].
  split; [now apply rolling_defined_none|].
  intros i y H sl.
  destruct (rolling_entry_inv xs w Hw i y H) as [F ->].
  destruct (window_slice_full xs w Hw i F) as [L S].
  fold sl in L, S |- *.
  assert (Hne : sl <> []) by (intros E; rewrite E in L; simpl in L; lia).
  destruct (mean_min_max sl Hne) as [A B].
  repeat split; assumption.
Qed.

Lemma rolling_average_shape_witness :
  exists ys,
    Pd.rolling_mean 3 [1; 2; 6; 4; 5] = Some ys /\
    Z.of_nat (length (defined ys)) = 3%Z.
Proof.
  destruct (rolling_average_shape [1; 2; 6; 4; 5] 3 ltac:(lia))
    as (ys & E & _ & C & _).
  exists ys. split; [exact E|]. apply C. simpl. lia.
Defined.

(* ------------------------------------------------------------------ *)
(** ** Bucketed resample *)

Definition total_count (rows : list Pd.bucket) : nat :=
  list_sum (map Pd.b_count rows).

Lemma total_count_filter (p : Pd.bucket -> bool) (rows : list Pd.bucket) :
  (total_count (filter p rows) <= total_count rows)%nat.
Proof.
  unfold total_count. induction rows as [|b rows IH]; simpl; [lia|].
  destruct (p b); simpl; lia.
Qed.

Lemma list_sum_map_add {A} (f g : A -> nat) (l : list A) :
  list_sum (map (fun k => (f k + g k)%nat) l)
  = (list_sum (map f l) + list_sum (map g l))%nat.
Proof. induction l; simpl; lia. Qed.

Section Buckets.
Variable fresult : Z.
Variable freq : Z.
Hypothesis freq_pos : (0 < freq)%Z.

(** Left edge of bin [k]. *)
Definition bin_start (k : nat) : Z := (fresult + Z.of_nat k * freq)%Z.

(** The bins are disjoint: a sample falls in at most one of them. *)
Lemma in_bucket_unique (s : Z * Q) (k k' : nat) :
  Pd.in_bucket (bin_start k) freq s = true ->
  Pd.in_bucket (bin_start k') freq s = true -> k = k'.
Proof.
  unfold Pd.in_bucket, bin_start. rewrite !andb_true_iff, !Z.leb_le, !Z.ltb_lt.
  intros [A B] [C D]. remember (fst s) as t eqn:Et. clear Et s.
  destruct (Nat.lt_trichotomy k k') as [H|[H|H]]; [exfalso|exact H|exfalso].
  - assert ((Z.of_nat k + 1) * freq <= Z.of_nat k' * freq)%Z
      by (apply Z.mul_le_mono_nonneg_r; lia).
    lia.
  - assert ((Z.of_nat k' + 1) * freq <= Z.of_nat k * freq)%Z
      by (apply Z.mul_le_mono_nonneg_r; lia).
    lia.
Qed.

Lemma membership_once (s : Z * Q) (ks : list nat) :
  NoDup ks ->
  (list_sum (map (fun k => if Pd.in_bucket (bin_start k) freq s
                           then 1 else 0)%nat ks) <= 1)%nat.
Proof.
  induction 1 as [|k ks Hk Hnd IH]; simpl; [lia|].
  destruct (Pd.in_bucket (bin_start k) freq s) eqn:E; [|lia].
  assert (Z0 : list_sum (map (fun k0 => if Pd.in_bucket (bin_start k0) freq s
                                        then 1 else 0)%nat ks) = 0%nat).
  { clear IH Hnd. induction ks as [|k' ks IH]; simpl; [reflexivity|].
    destruct (Pd.in_bucket (bin_start k') freq s) eqn:E'.
    - exfalso. apply Hk. left. symmetry. eapply in_bucket_unique; eauto.
    - apply IH. intros H. apply Hk. now right. }
  lia.
Qed.

(** Over distinct bins, the bin sizes add up to no more than the number of
    samples. *)
Lemma bin_sizes_bounded (samples : list (Z * Q)) (ks : list nat) :
  NoDup ks ->
  (list_sum (map (fun k => length (filter (Pd.in_bucket (bin_start k) freq)
                                          samples)) ks)
   <= length samples)%nat.
Proof.
  intros Hnd. induction samples as [|s samples IH]; simpl.
  - induction ks; simpl; [lia|]. apply IHks. now inversion Hnd.
  - assert (M := membership_once s ks Hnd).
    erewrite map_ext with
      (g := fun k => ((if Pd.in_bucket (bin_start k) freq s then 1 else 0)
                      + length (filter (Pd.in_bucket (bin_start k) freq)
                                       samples))%nat).
    + rewrite list_sum_map_add. lia.
    + intros k. destruct (Pd.in_bucket (bin_start k) freq s); reflexivity.
Qed.
End Buckets.

Lemma resample_total_count (freq : positive) (samples : list (Z * Q)) :
  (total_count (Pd.resample freq samples) <= length samples)%nat.
Proof.
  unfold Pd.resample.
  destruct samples as [|s0 samples']; [unfold total_count; simpl; lia|].
  set (samples := s0 :: samples').
  destruct (Pd.range_edges _ _ _) as [fresult lresult].
  unfold total_count. rewrite map_map.
  erewrite map_ext.
  - apply (bin_sizes_bounded fresult (Z.pos freq)); [lia|]. apply seq_NoDup.
  - intros k. unfold Pd.aggregate. simpl. now rewrite length_map.
Qed.

(** C7.  The bucketed resample keeps only buckets of at least three
    samples, and the kept buckets together count no more samples than there
    are in the input. *)
Theorem resample_retained_buckets (http_duration : list (Z * Q))
    (resample_freq : positive) :
  let resampled :=
    RequestTimesSmooth.smooth_resample http_duration resample_freq in
  Forall (fun b => (3 <= Pd.b_count b)%nat) resampled /\
  (total_count resampled <= length http_duration)%nat.
Proof.
  unfold RequestTimesSmooth.smooth_resample. cbv zeta. split.
  - apply Forall_forall. intros b Hb. apply filter_In in Hb.
    destruct Hb as [_ Hb]. now apply Nat.leb_le in Hb.
  - etransitivity; [apply total_count_filter|apply resample_total_count].
Qed.

(* ------------------------------------------------------------------ *)
(** ** Distinct counts and their cumulative fractions *)

(** The distinct values [np.unique] returns. *)
Definition unique_values (a : list Z) : list Z :=
  map fst (Np.unique_from 0 None (Np.sortZ a)).

Lemma unique_with_index_eq (a : list Z) :
  Np.unique_with_index a
  = (unique_values a, map (fun x => Np.index_of x a) (unique_values a)).
Proof. reflexivity. Qed.

Lemma unique_from_In (a : list Z) : forall i prev x,
  In x a -> In x (map fst (Np.unique_from i prev a)) \/ prev = Some x.
Proof.
  induction a as [|y a IH]; simpl; intros i prev x Hx; [tauto|].
  destruct prev as [p|].
  - destruct (Z.eqb_spec p y) as [->|Hne].
    + destruct Hx as [->|Hx]; [now right|]. now apply IH.
    + simpl. destruct Hx as [->|Hx]; [now left; left|].
      destruct (IH (S i) (Some y) x Hx) as [H|H]; [left; now right|].
      left. left. congruence.
  - simpl. destruct Hx as [->|Hx]; [now left; left|].
    destruct (IH (S i) (Some y) x Hx) as [H|H]; [left; now right|].
    left. left. congruence.
Qed.

Lemma unique_from_sub (a : list Z) : forall i prev x,
  In x (map fst (Np.unique_from i prev a)) -> In x a.
Proof.
  induction a as [|y a IH]; simpl; intros i prev x Hx; [tauto|].
  destruct prev as [p|]; [destruct (Z.eqb_spec p y)|]; simpl in Hx.
  - right. eapply IH; eauto.
  - destruct Hx as [->|Hx]; [now left|right; eapply IH; eauto].
  - destruct Hx as [->|Hx]; [now left|right; eapply IH; eauto].
Qed.

Lemma unique_values_In (a : list Z) (x : Z) : In x (unique_values a) <-> In x a.
Proof.
  unfold unique_values, Np.sortZ. split; intros H.
  - apply unique_from_sub in H. now apply sort_In in H.
  - destruct (unique_from_In (sort Z.leb a) 0 None x) as [G|G];
      [now apply sort_In|exact G|discriminate].
Qed.

(** On a sorted array the values kept are strictly increasing. *)
Lemma unique_from_increasing (a : list Z) : forall i prev,
  StronglySorted Z.le a ->
  (forall p, prev = Some p -> Forall (fun y => (p <= y)%Z) a) ->
  StronglySorted Z.lt (map fst (Np.unique_from i prev a)) /\
  (forall p, prev = Some p ->
             Forall (fun y => (p < y)%Z) (map fst (Np.unique_from i prev a))).
Proof.
  induction a as [|y a IH]; simpl; intros i prev Hs Hp.
  - split; [constructor|intros; constructor].
  - inversion Hs as [|? ? Hs' Hy]; subst.
    assert (Step : StronglySorted Z.lt
                     (y :: map fst (Np.unique_from (S i) (Some y) a))).
    { destruct (IH (S i) (Some y) Hs') as [S1 S2].
      - intros p [= <-]. exact Hy.
      - constructor; [exact S1|]. now apply S2. }
    destruct prev as [p|]; [|split; [exact Step|discriminate]].
    assert (Hpy := Hp p eq_refl). inversion Hpy as [|? ? Hpy1 Hpy2]; subst.
    destruct (Z.eqb_spec p y) as [->|Hne].
    + apply IH; [exact Hs'|]. intros q [= <-]. exact Hpy2.
    + simpl. split; [exact Step|]. intros q [= <-].
      inversion Step as [|? ? _ Hall]; subst.
      constructor; [lia|]. eapply Forall_impl; [|exact Hall].
      intros z Hz. simpl in Hz. lia.
Qed.

Lemma unique_values_increasing (a : list Z) :
  StronglySorted Z.lt (unique_values a).
Proof.
  apply (unique_from_increasing (Np.sortZ a) 0 None).
  - apply sortZ_sorted.
  - discriminate.
Qed.

Lemma index_of_lt (x : Z) (a : list Z) :
  In x a -> (Np.index_of x a < length a)%nat.
Proof.
  induction a as [|y a IH]; simpl; [tauto|]. intros H.
  destruct (Z.eqb_spec x y); [lia|].
  destruct H as [H|H]; [congruence|]. apply IH in H. lia.
Qed.

(** [index_of] is the first position holding the value. *)
Lemma index_of_first (a : list Z) : forall i x,
  nth_error a i = Some x ->
  (forall j, (j < i)%nat -> nth_error a j <> Some x) ->
  Np.index_of x a = i.
Proof.
  induction a as [|y a IH]; intros i x Hi Hfirst.
  - destruct i; discriminate.
  - simpl. destruct (Z.eqb_spec x y) as [->|Hne].
    + destruct i as [|i]; [reflexivity|].
      exfalso. apply (Hfirst 0%nat); [lia|reflexivity].
    + destruct i as [|i]; [simpl in Hi; congruence|].
      f_equal. apply IH; [exact Hi|].
      intros j Hj. apply (Hfirst (S j)). lia.
Qed.

Lemma index_of_spec (a : list Z) (x : Z) :
  In x a ->
  nth_error a (Np.index_of x a) = Some x /\
  forall j, (j < Np.index_of x a)%nat -> nth_error a j <> Some x.
Proof.
  induction a as [|y a IH]; simpl; [tauto|]. intros H.
  destruct (Z.eqb_spec x y) as [->|Hne].
  - split; [reflexivity|]. intros j Hj. lia.
  - destruct H as [H|H]; [congruence|]. destruct (IH H) as [A B].
    split; [exact A|]. intros [|j] Hj; simpl; [congruence|]. apply B. lia.
Qed.

(** In a sorted array a larger value is first met later. *)
Lemma index_of_increasing (a : list Z) (x y : Z) :
  StronglySorted Z.le a -> In x a -> In y a -> (x < y)%Z ->
  (Np.index_of x a < Np.index_of y a)%nat.
Proof.
  induction 1 as [|z a Hs IH Hz]; simpl; [tauto|]. intros Hx Hy Hxy.
  rewrite Forall_forall in Hz.
  destruct (Z.eqb_spec x z) as [->|Hxz].
  - destruct (Z.eqb_spec y z); lia.
  - destruct Hx as [Hx|Hx]; [congruence|].
    destruct (Z.eqb_spec y z) as [->|Hyz].
    + apply Hz in Hx. lia.
    + destruct Hy as [Hy|Hy]; [congruence|]. apply -> Nat.succ_lt_mono.
      now apply IH.
Qed.

Lemma nth_map_in {A B} (f : A -> B) (l : list A) (d : B) (d' : A) : forall i,
  (i < length l)%nat -> nth i (map f l) d = f (nth i l d').
Proof.
  induction l as [|x l IH]; simpl; intros i Hi; [lia|].
  destruct i; [reflexivity|]. apply IH. lia.
Qed.

Lemma cumulative_nth (sorted_rps : list Z) (i : nat) :
  (i < length sorted_rps)%nat ->
  nth i (Rps.cumulative sorted_rps) 0
  = Qof_nat (S i) / Qof_nat (length sorted_rps).
Proof.
  intros Hi. unfold Rps.cumulative, Np.arange1_over.
  rewrite nth_map_in with (d' := O) by (rewrite length_seq; exact Hi).
  rewrite seq_nth by exact Hi. reflexivity.
Qed.

(** The fraction attached to a distinct count. *)
Definition first_fraction (sorted_rps : list Z) (c : Z) : Q :=
  Qof_nat (S (Np.index_of c sorted_rps)) / Qof_nat (length sorted_rps).

Lemma unique_points_eq (sorted_rps : list Z) :
  RpsCdfSmooth.unique_points sorted_rps
  = (map inject_Z (unique_values sorted_rps),
     map (first_fraction sorted_rps) (unique_values sorted_rps)).
Proof.
  unfold RpsCdfSmooth.unique_points. rewrite unique_with_index_eq.
  f_equal. rewrite map_map. apply map_ext_in. intros c Hc.
  apply cumulative_nth, index_of_lt. now apply unique_values_In.
Qed.

Lemma In_combine_map {A B C} (f : A -> B) (g : A -> C) (l : list A) (x : A) :
  In x l -> In (f x, g x) (combine (map f l) (map g l)).
Proof.
  induction l as [|y l IH]; simpl; [tauto|].
  intros [->|H]; [now left|right; auto].
Qed.

Lemma In_combine_map_inv {A B C} (f : A -> B) (g : A -> C) (l : list A)
    (b : B) (c : C) :
  In (b, c) (combine (map f l) (map g l)) ->
  exists x, In x l /\ b = f x /\ c = g x.
Proof.
  induction l as [|y l IH]; simpl; [tauto|].
  intros [E|H].
  - injection E as <- <-. exists y. auto.
  - destruct (IH H) as (x & Hx & E1 & E2). exists x. auto.
Qed.

Lemma map_fst_combine_map {A B C} (f : A -> B) (g : A -> C) (l : list A) :
  map fst (combine (map f l) (map g l)) = map f l.
Proof. induction l; simpl; [reflexivity|]. now f_equal. Qed.

(** C2 (as the code has it).  Deduplication collapses every group of equal
    counts to one point, that of the group's first occurrence.  For every
    count [c] of the sorted series, with [i] the smallest index at which [c]
    appears: the deduplicated points hold the pair [(c, (i + 1) / n)]; they
    hold no other pair for [c]; and their x-values increase strictly, so no
    count has two points.  [np.unique(..., return_index=True)] reports first
    occurrences. *)
Theorem unique_points_first_occurrence (counts : list Z) (c : Z) (i : nat) :
  let sorted_rps := Np.sortZ counts in
  let points := combine (fst (RpsCdfSmooth.unique_points sorted_rps))
                        (snd (RpsCdfSmooth.unique_points sorted_rps)) in
  nth_error sorted_rps i = Some c ->
  (forall j, (j < i)%nat -> nth_error sorted_rps j <> Some c) ->
  In (inject_Z c, Qof_nat (S i) / Qof_nat (length sorted_rps)) points /\
  (forall y, In (inject_Z c, y) points ->
             y = Qof_nat (S i) / Qof_nat (length sorted_rps)) /\
  StronglySorted Qlt (map fst points).
Proof.
  intros sorted_rps points Hi Hfirst. subst points.
  rewrite unique_points_eq. simpl.
  rewrite <- (index_of_first sorted_rps i c Hi Hfirst).
  split; [|split].
  - apply (In_combine_map inject_Z (first_fraction sorted_rps)).
    apply unique_values_In. eapply nth_error_In; eauto.
  - intros y Hy. apply In_combine_map_inv in Hy.
    destruct Hy as (u & _ & Eu & ->).
    injection Eu as Eu. subst u. reflexivity.
  - rewrite map_fst_combine_map.
    apply (StronglySorted_map_in Z.lt);
      [|apply unique_values_increasing].
    intros x y _ _ Hxy. now rewrite <- Zlt_Qlt.
Qed.

Lemma unique_points_first_occurrence_witness :
  In (inject_Z 5, Qof_nat 1 / Qof_nat 3)
     (combine (fst (RpsCdfSmooth.unique_points (Np.sortZ [5; 7; 5]%Z)))
              (snd (RpsCdfSmooth.unique_points (Np.sortZ [5; 7; 5]%Z)))) /\
  forall y,
    In (inject_Z 5, y)
       (combine (fst (RpsCdfSmooth.unique_points (Np.sortZ [5; 7; 5]%Z)))
                (snd (RpsCdfSmooth.unique_points (Np.sortZ [5; 7; 5]%Z)))) ->
    y = Qof_nat 1 / Qof_nat 3.
Proof.
  destruct (unique_points_first_occurrence [5; 7; 5]%Z 5%Z 0%nat) as (A & B & _).
  - reflexivity.
  - intros j Hj. lia.
  - split; [exact A|exact B].
Defined.

(** C2 as stated fails: in the sorted series [5, 5, 7] the count 5 appears
    last at index 1, which would give the fraction 2/3; the deduplicated pair
    for 5 carries 1/3. *)
Lemma unique_points_not_last_occurrence :
  let sorted_rps := Np.sortZ [5; 5; 7]%Z in
  nth_error sorted_rps 1 = Some 5%Z /\
  (forall j, nth_error sorted_rps j = Some 5%Z -> (j <= 1)%nat) /\
  combine (fst (RpsCdfSmooth.unique_points sorted_rps))
          (snd (RpsCdfSmooth.unique_points sorted_rps))
  = [(5, 1 # 3); (7, 3 # 3)] /\
  ~ (exists y, In (inject_Z 5, y)
                  (combine (fst (RpsCdfSmooth.unique_points sorted_rps))
                           (snd (RpsCdfSmooth.unique_points sorted_rps)))
               /\ y == Qof_nat (1 + 1) / Qof_nat (length sorted_rps)).
Proof.
  cbv zeta. split; [reflexivity|]. split.
  - intros [|[|[|j]]] H; simpl in H; try lia; try discriminate.
    destruct j; discriminate.
  - split; [reflexivity|].
    intros (y & Hin & Hy). vm_compute in Hin.
    destruct Hin as [E|[E|[]]]; inversion E; subst y; vm_compute in Hy;
      discriminate.
Qed.

(* ------------------------------------------------------------------ *)
(** ** Evenly spaced samples *)

Section Linspace.
Variables start stop : Q.
Variable n : nat.

(** Sample [i] of [linspace start stop n]. *)
Definition linspace_sample (i : nat) : Q :=
  if (S i =? n)%nat && (1 <? n)%nat then stop
  else start + Qof_nat i * ((stop - start) / (Qof_nat n - 1)).

Lemma linspace_samples :
  Np.linspace start stop (Z.of_nat n)
  = Some (map linspace_sample (seq 0 n)).
Proof.
  unfold Np.linspace.
  destruct (Z.of_nat n <? 0)%Z eqn:E; [apply Z.ltb_lt in E; lia|].
  rewrite Nat2Z.id. reflexivity.
Qed.

(** Every sample, the last included, is [start + i * step]. *)
Lemma linspace_sample_eq (i : nat) :
  (i < n)%nat -> (1 < n)%nat ->
  linspace_sample i == start + Qof_nat i * ((stop - start) / (Qof_nat n - 1)).
Proof.
  intros Hi Hn. unfold linspace_sample.
  destruct (Nat.eqb_spec (S i) n) as [E|E]; simpl; [|reflexivity].
  destruct (Nat.ltb_spec 1 n) as [_|F]; [|lia].
  assert (Hd : Qof_nat n - 1 == Qof_nat i).
  { rewrite <- E, Qof_nat_S. lra. }
  assert (Hpos : 0 < Qof_nat i) by (apply Qof_nat_pos; lia).
  rewrite Hd. field. lra.
Qed.
End Linspace.

Lemma removelast_map_seq {A} (f : nat -> A) (n : nat) :
  removelast (map f (seq 0 (S n))) = map f (seq 0 n).
Proof. rewrite seq_S, map_app. simpl. apply removelast_last. Qed.

Lemma tl_map_seq {A} (f : nat -> A) (n : nat) :
  tl (map f (seq 0 (S n))) = map (fun i => f (S i)) (seq 0 n).
Proof. simpl. rewrite <- seq_shift, map_map. reflexivity. Qed.

Lemma combine_map_same {A B C} (f : A -> B) (g : A -> C) (l : list A) :
  combine (map f l) (map g l) = map (fun x => (f x, g x)) l.
Proof. induction l; simpl; [reflexivity|]. now f_equal. Qed.

(** Centers of the bins between [n + 1] evenly spaced edges. *)
Lemma bin_centers_linspace (start stop : Q) (n : nat) :
  RpsCdfSmooth.bin_centers (map (linspace_sample start stop (S n)) (seq 0 (S n)))
  = map (fun i => (linspace_sample start stop (S n) i
                   + linspace_sample start stop (S n) (S i)) / 2)
        (seq 0 n).
Proof.
  unfold RpsCdfSmooth.bin_centers.
  rewrite removelast_map_seq, tl_map_seq, combine_map_same, map_map.
  reflexivity.
Qed.

(* ------------------------------------------------------------------ *)
(** ** Binned CDF *)

Lemma filter_length_le {A} (p : A -> bool) (l : list A) :
  (length (filter p l) <= length l)%nat.
Proof. induction l as [|x l IH]; simpl; [lia|]. destruct (p x); simpl; lia. Qed.





Lemma num_bins_ge_20 (n : nat) (f : Q) (bins : Z) :
  RpsCdfSmooth.num_bins n f = Some bins -> (20 <= bins)%Z.
Proof.
  unfold RpsCdfSmooth.num_bins.
  destruct (Fl.int _) as [p|]; [|discriminate]. intros [= <-]. lia.
Qed.

Section Binned.
Variable counts : list Z.
Variable smoothing_factor : Q.
Variable bins : Z.
Hypothesis counts_nonempty : counts <> [].
Hypothesis bins_eq :
  RpsCdfSmooth.num_bins (length (Np.sortZ counts)) smoothing_factor
  = Some bins.

(** The sorted counts as rationals, the number of bins, and the bin width. *)
Definition binned_counts : list Q := map inject_Z (Np.sortZ counts).
Definition binned_bins : nat := Z.to_nat bins.
Definition binned_width : Q :=
  (Np.max binned_counts - Np.min binned_counts) / Qof_nat binned_bins.
Definition binned_center (i : nat) : Q :=
  let e := linspace_sample (Np.min binned_counts) (Np.max binned_counts)
                           (S binned_bins) in
  (e i + e (S i)) / 2.

Lemma binned_bins_ge_20 : (20 <= binned_bins)%nat.
Proof.
  unfold binned_bins. assert (H := num_bins_ge_20 _ _ _ bins_eq). lia.
Qed.

Lemma binned_counts_nonempty : binned_counts <> [].
Proof.
  unfold binned_counts, Np.sortZ. intros E. apply map_eq_nil in E.
  apply counts_nonempty. apply length_zero_iff_nil.
  rewrite <- (sort_length Z.leb), E. reflexivity.
Qed.

Lemma binned_eq :
  RpsCdfSmooth.binned (Np.sortZ counts) smoothing_factor
  = Some (map binned_center (seq 0 binned_bins),
          map (RpsCdfSmooth.fraction_le binned_counts)
              (map binned_center (seq 0 binned_bins))).
Proof.
  unfold RpsCdfSmooth.binned. fold binned_counts. rewrite bins_eq.
  replace (bins + 1)%Z with (Z.of_nat (S binned_bins)).
  - rewrite linspace_samples, bin_centers_linspace. reflexivity.
  - assert (H := num_bins_ge_20 _ _ _ bins_eq). unfold binned_bins. lia.
Qed.

Lemma binned_center_eq (k : nat) :
  (k < binned_bins)%nat ->
  binned_center k
  == Np.min binned_counts + (Qof_nat k + (1 # 2)) * binned_width.
Proof.
  intros Hk. assert (H20 := binned_bins_ge_20). unfold binned_center. cbv zeta.
  rewrite !linspace_sample_eq by lia.
  unfold binned_width.
  assert (Hd : Qof_nat (S binned_bins) - 1 == Qof_nat binned_bins)
    by (rewrite Qof_nat_S; lra).
  assert (Hpos : 0 < Qof_nat binned_bins) by (apply Qof_nat_pos; lia).
  rewrite Hd, Qof_nat_S. field. lra.
Qed.

Lemma binned_width_nonneg : 0 <= binned_width.
Proof.
  assert (H20 := binned_bins_ge_20).
  assert (Hmm : Np.min binned_counts <= Np.max binned_counts)
    by (apply min_le, max_In, binned_counts_nonempty).
  assert (Hpos : 0 < Qof_nat binned_bins) by (apply Qof_nat_pos; lia).
  unfold binned_width. apply Qle_shift_div_l; [exact Hpos|]. lra.
Qed.

Lemma binned_center_mono (i j : nat) :
  (i < j < binned_bins)%nat -> binned_center i <= binned_center j.
Proof.
  intros Hij. rewrite !binned_center_eq by lia.
  assert (Hw := binned_width_nonneg).
  assert (Hd : Qof_nat i <= Qof_nat j) by (apply Qof_nat_le; lia).
  assert (P : 0 <= (Qof_nat j - Qof_nat i) * binned_width)
    by (apply Qmult_le_0_compat; lra).
  lra.
Qed.

Lemma binned_last_center :
  binned_center (binned_bins - 1)
  == Np.max binned_counts - (1 # 2) * binned_width.
Proof.
  assert (H20 := binned_bins_ge_20).
  rewrite binned_center_eq by lia.
  assert (Hpos : 0 < Qof_nat binned_bins) by (apply Qof_nat_pos; lia).
  assert (Hp : Qof_nat (binned_bins - 1) == Qof_nat binned_bins - 1).
  { replace binned_bins with (S (binned_bins - 1)) at 2 by lia.
    rewrite Qof_nat_S. lra. }
  rewrite Hp. unfold binned_width. field. lra.
Qed.

Lemma binned_center_range (k : nat) :
  (k < binned_bins)%nat ->
  Np.min binned_counts <= binned_center k /\
  binned_center k <= Np.max binned_counts.
Proof.
  intros Hk. assert (Hw := binned_width_nonneg).
  assert (Hlast := binned_last_center).
  assert (Hk0 : 0 <= Qof_nat k)
    by (change 0 with (Qof_nat 0); apply Qof_nat_le; lia).
  assert (P : 0 <= (Qof_nat k + (1 # 2)) * binned_width)
    by (apply Qmult_le_0_compat; lra).
  split.
  - rewrite binned_center_eq by lia. lra.
  - destruct (Nat.eq_dec k (binned_bins - 1)%nat) as [->|Hk1]; [lra|].
    assert (M := binned_center_mono k (binned_bins - 1)%nat ltac:(lia)).
    lra.
Qed.

Lemma binned_centers_sorted :
  StronglySorted Qle (map binned_center (seq 0 binned_bins)).
Proof.
  apply (StronglySorted_map_in lt); [|apply seq_increasing].
  intros i j Hi Hj Hij. apply in_seq in Hi, Hj.
  apply binned_center_mono. lia.
Qed.

Lemma binned_centers_range :
  Forall (fun c => Np.min binned_counts <= c /\ c <= Np.max binned_counts)
         (map binned_center (seq 0 binned_bins)).
Proof.
  apply Forall_forall. intros c Hc. apply in_map_iff in Hc.
  destruct Hc as (k & <- & Hk). apply in_seq in Hk.
  apply binned_center_range. lia.
Qed.
End Binned.







(** The bin count truncates the binary64 product: 3 counts with factor 7.9
    give [int(3 * 7.9) = 23] bins where rounding would give 24, and 30
    counts with factor 0.7 give 21 bins, the product of the two doubles
    being 21.0 although the double nearest to 0.7 is below 0.7. *)
Example num_bins_truncates :
  RpsCdfSmooth.num_bins 3 (79 # 10) = Some 23%Z /\
  RpsCdfSmooth.num_bins 30 (7 # 10) = Some 21%Z /\
  RpsCdfSmooth.num_bins 50 (58 # 100) = Some 28%Z.
Proof. vm_compute. repeat split. Qed.

(* ------------------------------------------------------------------ *)
(** ** Weighted averages *)

Lemma Qsum_app (l1 l2 : list Q) : Qsum (l1 ++ l2) == Qsum l1 + Qsum l2.
Proof. induction l1 as [|x l1 IH]; simpl; [lra|]. rewrite IH. lra. Qed.





(* ------------------------------------------------------------------ *)
(** ** Gaussian smoothing of the cumulative fractions *)

Lemma int_trunc_nonneg (q : Q) : 0 <= q -> (0 <= int_trunc q)%Z.
Proof.
  destruct q as [num den]. unfold Qle, int_trunc. simpl. intros H.
  apply Z.quot_pos; lia.
Qed.

Section GaussianFacts.
Variable exp : Q -> Q.
Hypothesis exp_pos : forall x, 0 < exp x.




End GaussianFacts.

Lemma cumulative_bounds (sorted_rps : list Z) :
  Forall (fun y => 1 / Qof_nat (length sorted_rps) <= y /\ y <= 1)
         (Rps.cumulative sorted_rps).
Proof.
  unfold Rps.cumulative, Np.arange1_over.
  apply Forall_forall. intros y Hy. apply in_map_iff in Hy.
  destruct Hy as (k & <- & Hk). apply in_seq in Hk.
  set (n := length sorted_rps) in *.
  assert (Hn : 0 < Qof_nat n) by (apply Qof_nat_pos; lia).
  assert (H1 : 1 <= Qof_nat k) by (apply (Qof_nat_le 1 k); lia).
  assert (H2 : Qof_nat k <= Qof_nat n) by (apply Qof_nat_le; lia).
  split.
  - apply Qle_shift_div_l; [exact Hn|].
    assert (E : 1 / Qof_nat n * Qof_nat n == 1) by (field; lra).
    lra.
  - apply Qle_shift_div_r; [exact Hn|]. lra.
Qed.


(** A positive rational stand-in for the exponential (its second-order
    approximation on non-positive arguments). *)
Definition exp_approx (x : Q) : Q := / (1 - x + (1 # 2) * (x * x)).



(* ------------------------------------------------------------------ *)
(** ** Tables with no row of the target metric *)

Lemma per_second_nil : Rps.per_second [] = [].
Proof. reflexivity. Qed.

(** The three guarded entry points print the diagnostic and stop: nothing
    is plotted or saved. *)
Lemma plot_rps_cdf_smooth_empty exp base_name df m factor num_points :
  Pd.filter_metric "http_reqs"%string df = [] ->
  RpsCdfSmooth.plot_rps_cdf_smooth exp base_name df m factor num_points
  = [Print Loading; Print UsingSmoothing; Print NoDataFound].
Proof.
  intros E. unfold RpsCdfSmooth.plot_rps_cdf_smooth. now rewrite E.
Qed.

Lemma plot_request_times_empty config df :
  Pd.filter_metric "http_req_duration"%string df = [] ->
  RequestTimes.plot_request_times config df
  = [Print Loading; Print NoDataFound].
Proof.
  intros E. unfold RequestTimes.plot_request_times. now rewrite E.
Qed.

Lemma plot_request_times_smooth_empty config df m window_size freq :
  Pd.filter_metric "http_req_duration"%string df = [] ->
  RequestTimesSmooth.plot_request_times_smooth config df m window_size freq
  = [Print Loading; Print UsingSmoothing; Print NoDataFound].
Proof.
  intros E. unfold RequestTimesSmooth.plot_request_times_smooth.
  now rewrite E.
Qed.

(** [plot_rps_cdf.py] has no such guard: with no [http_reqs] row it plots
    two empty arrays, writes the image and reports it as saved. *)
Lemma rps_cdf_main_empty filename df :
  Pd.filter_metric "http_reqs"%string df = [] ->
  RpsCdf.main filename df
  = [ Plot [] [];
      SaveFig (RpsCdf.output_name filename);
      Print (SavedAs (RpsCdf.output_name filename));
      Show ].
Proof. intros E. unfold RpsCdf.main. rewrite E. reflexivity. Qed.

(** C5 fails for [plot_rps_cdf.py].  On a table whose only row belongs to
    another metric, the script writes an image and prints no diagnostic,
    while [plot_rps_cdf_smooth.py] on the same table prints the diagnostic
    and writes nothing. *)
Theorem rps_cdf_main_saves_image_without_data :
  let df := [Pd.mk_row 0 "http_req_duration"%string 1] in
  Pd.filter_metric "http_reqs"%string df = [] /\
  existsb is_savefig (RpsCdf.main "run"%string df) = true /\
  existsb is_diagnostic (RpsCdf.main "run"%string df) = false /\
  existsb is_savefig
    (RpsCdfSmooth.plot_rps_cdf_smooth exp_approx "run"%string df
       RpsCdfSmooth.Interpolate (1 # 2) 500) = false /\
  existsb is_diagnostic
    (RpsCdfSmooth.plot_rps_cdf_smooth exp_approx "run"%string df
       RpsCdfSmooth.Interpolate (1 # 2) 500) = true.
Proof. cbv zeta. repeat split; reflexivity. Qed.

(* ------------------------------------------------------------------ *)
(** ** Cubic interpolation of the CDF *)

(** The points the cubic is fitted through increase strictly in both
    coordinates. *)
Lemma unique_points_increasing (counts : list Z) :
  let sorted_rps := Np.sortZ counts in
  StronglySorted Qlt (fst (RpsCdfSmooth.unique_points sorted_rps)) /\
  StronglySorted Qlt (snd (RpsCdfSmooth.unique_points sorted_rps)).
Proof.
  intros sorted_rps. rewrite unique_points_eq. simpl.
  assert (Hu := unique_values_increasing sorted_rps).
  split.
  - eapply StronglySorted_map_in; [|exact Hu].
    intros x y _ _ Hxy. now rewrite <- Zlt_Qlt.
  - eapply StronglySorted_map_in; [|exact Hu].
    intros x y Hx Hy Hxy.
    apply (proj1 (unique_values_In _ _)) in Hx.
    apply (proj1 (unique_values_In _ _)) in Hy.
    assert (Hi := index_of_increasing sorted_rps x y
                    (sortZ_sorted counts) Hx Hy Hxy).
    unfold first_fraction.
    assert (Hn : 0 < Qof_nat (length sorted_rps)).
    { apply Qof_nat_pos. destruct sorted_rps; [destruct Hx|simpl; lia]. }
    assert (Hlt : Qof_nat (S (Np.index_of x sorted_rps))
                  < Qof_nat (S (Np.index_of y sorted_rps)))
      by (apply Qof_nat_lt; lia).
    apply Qlt_shift_div_l; [exact Hn|].
    setoid_replace (Qof_nat (S (Np.index_of x sorted_rps))
                    / Qof_nat (length sorted_rps) * Qof_nat (length sorted_rps))
      with (Qof_nat (S (Np.index_of x sorted_rps))) by (field; lra).
    exact Hlt.
Qed.

Section LinspaceOrder.
Variables start stop : Q.
Variable n : nat.
Hypothesis start_le_stop : start <= stop.





End LinspaceOrder.






(* ------------------------------------------------------------------ *)
(** ** Elimination succeeds on a matrix with trivial kernel *)

Lemma Qsum_ext {A} (f g : A -> Q) (l : list A) :
  (forall a, In a l -> f a == g a) -> Qsum (map f l) == Qsum (map g l).
Proof.
  induction l as [|a l IH]; simpl; intros H; [reflexivity|].
  rewrite (H a) by now left. rewrite IH; [reflexivity|].
  intros b Hb. apply H. now right.
Qed.

Lemma Qsum_zero {A} (f : A -> Q) (l : list A) :
  (forall a, In a l -> f a == 0) -> Qsum (map f l) == 0.
Proof.
  induction l as [|a l IH]; simpl; intros H; [reflexivity|].
  rewrite (H a) by now left. rewrite IH; [lra|].
  intros b Hb. apply H. now right.
Qed.

Lemma Qsum_scale {A} (c : Q) (f : A -> Q) (l : list A) :
  Qsum (map (fun a => c * f a) l) == c * Qsum (map f l).
Proof. induction l as [|a l IH]; simpl; [lra|]. rewrite IH. ring. Qed.

Lemma Qsum_plus {A} (f g : A -> Q) (l : list A) :
  Qsum (map (fun a => f a + g a) l) == Qsum (map f l) + Qsum (map g l).
Proof. induction l as [|a l IH]; simpl; [lra|]. rewrite IH. ring. Qed.

Lemma Qsum_swap {A B} (f : A -> B -> Q) (la : list A) (lb : list B) :
  Qsum (map (fun a => Qsum (map (f a) lb)) la)
  == Qsum (map (fun b => Qsum (map (fun a => f a b) la)) lb).
Proof.
  induction la as [|a la IH]; simpl.
  - symmetry. apply Qsum_zero. reflexivity.
  - rewrite IH, <- Qsum_plus. reflexivity.
Qed.

(** A sum against an indicator picks one term. *)
Lemma Qsum_indicator (i : nat) (f : nat -> Q) : forall n,
  (i < n)%nat ->
  Qsum (map (fun j => (if (i =? j)%nat then 1 else 0) * f j) (seq 0 n))
  == f i.
Proof.
  induction n as [|n IH]; intros Hi; [lia|].
  rewrite seq_S, map_app, Qsum_app. simpl.
  destruct (Nat.eq_dec i n) as [->|Hn].
  - rewrite Nat.eqb_refl. rewrite Qsum_zero; [lra|].
    intros j Hj. apply in_seq in Hj.
    destruct (Nat.eqb_spec n j); [lia|lra].
  - rewrite IH by lia. destruct (Nat.eqb_spec i n); [lia|lra].
Qed.

(** The product of a row, cut to its first [n] entries, with a vector. *)
Definition rsum (n : nat) (r : list Q) (x : nat -> Q) : Q :=
  Qsum (map (fun j => nth j r 0 * x j) (seq 0 n)).

Lemma nth_row_scale (c : Q) (r : list Q) : forall j,
  nth j (Linalg.row_scale c r) 0 == c * nth j r 0.
Proof.
  unfold Linalg.row_scale.
  induction r as [|a r IH]; intros [|j]; cbn [map nth]; try ring.
  - apply Qred_correct.
  - apply IH.
Qed.

Lemma nth_row_sub_mul (c : Q) : forall (p r : list Q) j,
  length p = length r ->
  nth j (Linalg.row_sub_mul c p r) 0 == nth j r 0 - c * nth j p 0.
Proof.
  unfold Linalg.row_sub_mul.
  induction p as [|a p IH]; intros [|b r] [|j] H; simpl in H;
    cbn [map combine nth fst snd]; try discriminate; try ring.
  - apply Qred_correct.
  - apply IH. lia.
Qed.

Lemma row_scale_length (c : Q) (r : list Q) :
  length (Linalg.row_scale c r) = length r.
Proof. unfold Linalg.row_scale. apply length_map. Qed.

Lemma row_sub_mul_length (c : Q) (p r : list Q) :
  length p = length r -> length (Linalg.row_sub_mul c p r) = length r.
Proof.
  intros H. unfold Linalg.row_sub_mul.
  rewrite length_map, length_combine. lia.
Qed.

Lemma rsum_row_scale (n : nat) (c : Q) (r : list Q) (x : nat -> Q) :
  rsum n (Linalg.row_scale c r) x == c * rsum n r x.
Proof.
  unfold rsum. rewrite <- Qsum_scale. apply Qsum_ext.
  intros j _. rewrite nth_row_scale. ring.
Qed.

Lemma rsum_row_sub_mul (n : nat) (c : Q) (p r : list Q) (x : nat -> Q) :
  length p = length r ->
  rsum n (Linalg.row_sub_mul c p r) x == rsum n r x - c * rsum n p x.
Proof.
  intros H. unfold rsum.
  setoid_replace (Qsum (map (fun j => nth j r 0 * x j) (seq 0 n))
                  - c * Qsum (map (fun j => nth j p 0 * x j) (seq 0 n)))
    with (Qsum (map (fun j => nth j r 0 * x j
                              + (- c) * (nth j p 0 * x j)) (seq 0 n))).
  - apply Qsum_ext. intros j _. rewrite nth_row_sub_mul by exact H. ring.
  - rewrite Qsum_plus, Qsum_scale. ring.
Qed.

Lemma find_pivot_none (col : nat) (rows : Linalg.matrix) :
  Linalg.find_pivot col rows = None ->
  forall r, In r rows -> nth col r 0 == 0.
Proof.
  induction rows as [|a rows IH]; simpl; [tauto|].
  destruct (Qeq_bool (nth col a 0) 0) eqn:E; [|discriminate].
  destruct (Linalg.find_pivot col rows) as [[p rest]|]; [discriminate|].
  intros _ r [<-|H]; [now apply Qeq_bool_iff|now apply IH].
Qed.

Lemma find_pivot_some (col : nat) (rows : Linalg.matrix) :
  forall p rest,
  Linalg.find_pivot col rows = Some (p, rest) ->
  ~ nth col p 0 == 0 /\ (forall r, In r rows <-> r = p \/ In r rest).
Proof.
  induction rows as [|a rows IH]; simpl; [discriminate|]. intros p rest.
  destruct (Qeq_bool (nth col a 0) 0) eqn:E.
  - destruct (Linalg.find_pivot col rows) as [[p' rest']|]; [|discriminate].
    intros [= <- <-]. destruct (IH p' rest' eq_refl) as [Hp Hin].
    split; [exact Hp|]. intros r. simpl. rewrite Hin.
    split; intros H; intuition (subst; auto).
  - intros [= <- <-]. split.
    + intros H. apply Qeq_bool_iff in H. congruence.
    + intros r. split; intros [H|H]; auto.
Qed.

Section Elimination.
Variables n m : nat.

Definition unit_cols (col : nat) (done : Linalg.matrix) : Prop :=
  forall i r, nth_error done i = Some r ->
  forall j, (j < col)%nat -> nth j r 0 == (if (i =? j)%nat then 1 else 0).

Definition zero_cols (col : nat) (todo : Linalg.matrix) : Prop :=
  forall r, In r todo -> forall j, (j < col)%nat -> nth j r 0 == 0.

Definition trivial_kernel (rows : Linalg.matrix) : Prop :=
  forall x : nat -> Q,
    (forall r, In r rows -> rsum n r x == 0) ->
    forall j, (j < n)%nat -> x j == 0.

Definition widths (rows : Linalg.matrix) : Prop :=
  forall r, In r rows -> length r = m.

(** With no pivot left in a column, a non-zero vector is in the kernel. *)
Lemma no_pivot_kernel (col : nat) (done todo : Linalg.matrix) :
  (col < n)%nat -> length done = col ->
  unit_cols col done -> zero_cols col todo ->
  (forall r, In r todo -> nth col r 0 == 0) ->
  ~ trivial_kernel (done ++ todo).
Proof.
  intros Hcol Hlen Hunit Hzero Hnone Htriv.
  set (x := fun j => if (j <? col)%nat then - nth col (nth j done []) 0
                     else if (j =? col)%nat then 1 else 0).
  assert (Hx : x col == 0).
  { apply Htriv; [|exact Hcol]. intros r Hr. unfold rsum.
    replace n with (col + S (n - col - 1))%nat by lia.
    rewrite seq_app, map_app, Qsum_app. simpl.
    assert (Htail : Qsum (map (fun j => nth j r 0 * x j)
                            (seq (S col) (n - col - 1))) == 0).
    { apply Qsum_zero. intros j Hj. apply in_seq in Hj. unfold x.
      destruct (Nat.ltb_spec j col); [lia|].
      destruct (Nat.eqb_spec j col); [lia|ring]. }
    assert (Hc : x col = 1).
    { unfold x. rewrite Nat.ltb_irrefl, Nat.eqb_refl. reflexivity. }
    rewrite Htail, Hc. apply in_app_or in Hr. destruct Hr as [Hr|Hr].
    - apply In_nth_error in Hr. destruct Hr as [i Hi].
      assert (Hi' : (i < col)%nat).
      { rewrite <- Hlen. apply nth_error_Some. congruence. }
      rewrite (Qsum_ext _ (fun j => (if (i =? j)%nat then 1 else 0) * x j)).
      + rewrite Qsum_indicator by exact Hi'. unfold x.
        destruct (Nat.ltb_spec i col); [|lia].
        rewrite (nth_error_nth _ _ _ Hi). ring.
      + intros j Hj. apply in_seq in Hj.
        rewrite (Hunit i r Hi j) by lia. reflexivity.
    - rewrite Qsum_zero.
      + rewrite (Hnone r Hr). ring.
      + intros j Hj. apply in_seq in Hj. rewrite (Hzero r Hr j) by lia. ring. }
  unfold x in Hx. rewrite Nat.ltb_irrefl, Nat.eqb_refl in Hx.
  discriminate Hx.
Qed.

Lemma gauss_jordan_succeeds : forall k col done todo,
  (col + k = n)%nat -> length done = col ->
  widths (done ++ todo) ->
  unit_cols col done -> zero_cols col todo ->
  trivial_kernel (done ++ todo) ->
  exists R, Linalg.gauss_jordan k col done todo = Some R.
Proof.
  induction k as [|k IH]; intros col done todo Hk Hlen Hw Hunit Hzero Htriv.
  - eexists. reflexivity.
  - simpl. destruct (Linalg.find_pivot col todo) as [[p rest]|] eqn:Ep.
    + destruct (find_pivot_some _ _ _ _ Ep) as [Hp Hin].
      assert (Hpin : In p todo) by (apply Hin; now left).
      assert (Hrest : forall r, In r rest -> In r todo)
        by (intros r Hr; apply Hin; now right).
      assert (Lp : length p = m) by (apply Hw, in_or_app; now right).
      remember (Linalg.row_scale (/ nth col p 0) p) as p' eqn:Ep'.
      assert (Lp' : length p' = m) by (subst p'; now rewrite row_scale_length).
      assert (Hp'j : forall j, (j < col)%nat -> nth j p' 0 == 0).
      { intros j Hj. subst p'. rewrite nth_row_scale, (Hzero p Hpin j Hj).
        ring. }
      assert (Hp'c : nth col p' 0 == 1).
      { subst p'. rewrite nth_row_scale. field. exact Hp. }
      assert (Hclear : forall r j, length r = m ->
                nth j (Linalg.row_sub_mul (nth col r 0) p' r) 0
                == nth j r 0 - nth col r 0 * nth j p' 0).
      { intros r j Lr. apply nth_row_sub_mul. congruence. }
      apply IH.
      * lia.
      * rewrite length_app, length_map. simpl. lia.
      * intros r Hr. apply in_app_or in Hr. destruct Hr as [Hr|Hr].
        -- apply in_app_or in Hr. destruct Hr as [Hr|[<-|[]]]; [|exact Lp'].
           apply in_map_iff in Hr. destruct Hr as (r0 & <- & Hr0).
           assert (L0 : length r0 = m) by (apply Hw, in_or_app; now left).
           rewrite row_sub_mul_length; congruence.
        -- apply in_map_iff in Hr. destruct Hr as (r0 & <- & Hr0).
           assert (L0 : length r0 = m)
             by (apply Hw, in_or_app; right; now apply Hrest).
           rewrite row_sub_mul_length; congruence.
      * intros i r Hi j Hj.
        destruct (Nat.lt_ge_cases i (length done)) as [Hid|Hid].
        -- rewrite nth_error_app1 in Hi by (rewrite length_map; exact Hid).
           rewrite nth_error_map in Hi.
           destruct (nth_error done i) as [r0|] eqn:E0; [|discriminate].
           injection Hi as <-.
           assert (L0 : length r0 = m).
           { apply Hw, in_or_app. left. eapply nth_error_In; eauto. }
           rewrite Hclear by exact L0.
           destruct (Nat.eq_dec j col) as [->|Hjc].
           ++ rewrite Hp'c. destruct (Nat.eqb_spec i col); [lia|ring].
           ++ rewrite (Hp'j j) by lia. rewrite (Hunit i r0 E0 j) by lia. ring.
        -- rewrite nth_error_app2 in Hi by (rewrite length_map; exact Hid).
           rewrite length_map in Hi.
           destruct (i - length done)%nat as [|d] eqn:Ed;
             [|destruct d; discriminate].
           injection Hi as <-. assert (i = col) by lia. subst i.
           destruct (Nat.eqb_spec col j) as [<-|Hjc]; [exact Hp'c|].
           apply Hp'j. lia.
      * intros r Hr j Hj. apply in_map_iff in Hr.
        destruct Hr as (r0 & <- & Hr0).
        assert (L0 : length r0 = m)
          by (apply Hw, in_or_app; right; now apply Hrest).
        rewrite Hclear by exact L0.
        destruct (Nat.eq_dec j col) as [->|Hjc].
        -- rewrite Hp'c. ring.
        -- rewrite (Hp'j j) by lia.
           rewrite (Hzero r0 (Hrest r0 Hr0) j) by lia. ring.
      * intros x Hx. apply Htriv.
        assert (Hxp' : rsum n p' x == 0).
        { apply Hx, in_or_app. left. apply in_or_app. right. now left. }
        assert (Hxc : forall r0, length r0 = m ->
                  rsum n (Linalg.row_sub_mul (nth col r0 0) p' r0) x == 0 ->
                  rsum n r0 x == 0).
        { intros r0 L0 H0. rewrite rsum_row_sub_mul in H0 by congruence.
          rewrite Hxp' in H0. lra. }
        intros r Hr. apply in_app_or in Hr. destruct Hr as [Hr|Hr].
        -- apply Hxc; [apply Hw, in_or_app; now left|].
           apply Hx, in_or_app. left. apply in_or_app. left.
           apply in_map_iff. exists r. split; [reflexivity|exact Hr].
        -- apply Hin in Hr. destruct Hr as [->|Hr].
           ++ subst p'. rewrite rsum_row_scale in Hxp'.
              assert (Hi : ~ / nth col p 0 == 0).
              { intros H0. apply Hp.
                rewrite <- (Qinv_involutive (nth col p 0)), H0.
                reflexivity. }
              destruct (Qmult_integral _ _ Hxp') as [H0|H0];
                [contradiction|exact H0].
           ++ apply Hxc; [apply Hw, in_or_app; right; now apply Hrest|].
              apply Hx, in_or_app. right.
              apply in_map_iff. exists r. split; [reflexivity|exact Hr].
    + exfalso.
      apply (no_pivot_kernel col done todo); try assumption; [lia|].
      now apply find_pivot_none.
Qed.
End Elimination.

(* ------------------------------------------------------------------ *)
(** ** Savitzky-Golay filter: shape of the output *)

Lemma correlate1d_length (input weights : list Q) (m : Sp.mode) :
  length (Sp.correlate1d input weights m) = length input.
Proof. unfold Sp.correlate1d. now rewrite length_map, length_seq. Qed.

Lemma arangeQ_length (a b : nat) : length (Sp.arangeQ a b) = (b - a)%nat.
Proof. unfold Sp.arangeQ. now rewrite length_map, length_seq. Qed.

Lemma fit_edge_length x ws we i_start i_stop deg y y' :
  Sp.fit_edge x ws we i_start i_stop deg y = Some y' ->
  (ws <= i_start <= i_stop)%nat -> (i_stop <= length y)%nat ->
  length y' = length y.
Proof.
  unfold Sp.fit_edge. destruct (Sp.polyfit _ _ _) as [p|]; [|discriminate].
  intros [= <-] H1 H2.
  rewrite !length_app, length_firstn, length_map, arangeQ_length, length_skipn.
  lia.
Qed.

(** Whenever the filter returns, it returns one value per sample. *)
Lemma savgol_filter_length (x : list Q) (window_length : nat) (ys : list Q) :
  Sp.savgol_filter x window_length 3 = Some ys -> length ys = length x.
Proof.
  unfold Sp.savgol_filter, Sp.fit_edges_polyfit, Sp.convolve1d.
  destruct (Sp.savgol_coeffs window_length 3) as [c|]; [|discriminate].
  destruct (Nat.ltb_spec (length x) window_length) as [|Hw]; [discriminate|].
  destruct (Sp.fit_edge x 0 window_length 0 _ 3 _) as [y1|] eqn:E1;
    [|discriminate].
  intros E2.
  assert (Hh : (window_length / 2 <= window_length)%nat)
    by (apply Nat.Div0.div_le_upper_bound; lia).
  apply fit_edge_length in E1;
    [|lia|rewrite correlate1d_length; lia].
  rewrite correlate1d_length in E1.
  apply fit_edge_length in E2; [|lia|lia]. lia.
Qed.

(* ------------------------------------------------------------------ *)
(** ** Inner products *)

Lemma dot_cons (x y : Q) (r ys : list Q) :
  Linalg.dot (x :: r) (y :: ys) == x * y + Linalg.dot r ys.
Proof.
  change (Linalg.dot (x :: r) (y :: ys))
    with (Qred (x * y + Linalg.dot r ys)).
  apply Qred_correct.
Qed.

Lemma dot_nil_r (r : list Q) : Linalg.dot r [] = 0.
Proof. destruct r; reflexivity. Qed.

(* ------------------------------------------------------------------ *)
(** ** The least-squares fits of the filter always succeed *)

Lemma in_combine_l_exists {A B} (a : A) : forall (l : list A) (l' : list B),
  (length l <= length l')%nat -> In a l -> exists b, In (a, b) (combine l l').
Proof.
  induction l as [|y l IH]; intros [|b l'] H Ha; simpl in *;
    try tauto; try lia.
  destruct Ha as [->|Ha]; [exists b; now left|].
  destruct (IH l' ltac:(lia) Ha) as [b' Hb]. exists b'. now right.
Qed.

Lemma identity_rows (n : nat) (e : list Q) :
  In e (Linalg.identity n) -> length e = n.
Proof.
  unfold Linalg.identity. intros H. apply in_map_iff in H.
  destruct H as (i & <- & _). now rewrite length_map, length_seq.
Qed.

(** A square matrix whose kernel is trivial has an inverse. *)
Lemma inverse_exists (A : Linalg.matrix) (n : nat) :
  length A = n -> (forall a, In a A -> length a = n) ->
  trivial_kernel n A ->
  exists Ai, Linalg.inverse A = Some Ai.
Proof.
  intros Hn Hrows Htriv. unfold Linalg.inverse. rewrite Hn.
  destruct (gauss_jordan_succeeds n (n + n) n 0 []
              (map (fun ai => fst ai ++ snd ai)
                   (combine A (Linalg.identity n)))) as [R HR].
  - lia.
  - reflexivity.
  - intros r Hr. simpl in Hr. apply in_map_iff in Hr.
    destruct Hr as ([a e] & <- & Hae). simpl.
    rewrite length_app, (Hrows a (in_combine_l _ _ _ _ Hae)),
      (identity_rows n e (in_combine_r _ _ _ _ Hae)). reflexivity.
  - intros i r Hi. destruct i; discriminate Hi.
  - intros r _ j Hj. lia.
  - intros x Hx. apply Htriv. intros a Ha.
    destruct (in_combine_l_exists a A (Linalg.identity n)) as [e He].
    + unfold Linalg.identity. rewrite length_map, length_seq. lia.
    + exact Ha.
    + assert (H := Hx (a ++ e)). simpl in H.
      rewrite <- H.
      * unfold rsum. apply Qsum_ext. intros j Hj. apply in_seq in Hj.
        rewrite app_nth1 by (rewrite (Hrows a Ha); lia). reflexivity.
      * apply in_map_iff. exists (a, e). split; [reflexivity|exact He].
  - rewrite HR. eexists. reflexivity.
Qed.

Lemma Qsum_seq_S (f : nat -> Q) (n : nat) :
  Qsum (map f (seq 0 (S n))) == f O + Qsum (map (fun t => f (S t)) (seq 0 n)).
Proof. simpl. rewrite <- seq_shift, map_map. reflexivity. Qed.

Lemma dot_sum : forall (u v : list Q) (w : nat),
  length u = w -> length v = w ->
  Linalg.dot u v == Qsum (map (fun t => nth t u 0 * nth t v 0) (seq 0 w)).
Proof.
  induction u as [|a u IH]; intros [|b v] [|w] Hu Hv; simpl in Hu, Hv;
    try discriminate; try lia.
  - reflexivity.
  - rewrite dot_cons, Qsum_seq_S. cbn [nth].
    rewrite (IH v w) by lia. reflexivity.
Qed.

Lemma square_nonneg (a : Q) : 0 <= a * a.
Proof.
  destruct (Qlt_le_dec a 0) as [H|H].
  - setoid_replace (a * a) with ((- a) * (- a)) by ring.
    apply Qmult_le_0_compat; lra.
  - apply Qmult_le_0_compat; lra.
Qed.

Lemma Qsum_squares_nonneg {A} (f : A -> Q) (l : list A) :
  0 <= Qsum (map (fun t => f t * f t) l).
Proof.
  induction l as [|a l IH]; simpl; [lra|].
  assert (H := square_nonneg (f a)). lra.
Qed.

Lemma Qsum_squares_zero {A} (f : A -> Q) (l : list A) :
  Qsum (map (fun t => f t * f t) l) == 0 ->
  forall t, In t l -> f t == 0.
Proof.
  induction l as [|a l IH]; simpl; intros H t Ht; [tauto|].
  assert (H1 := square_nonneg (f a)).
  assert (H2 := Qsum_squares_nonneg f l).
  destruct Ht as [<-|Ht].
  - assert (E : f a * f a == 0) by lra.
    destruct (Qmult_integral _ _ E); assumption.
  - apply IH; [lra|exact Ht].
Qed.

(** The Gram matrix of linearly independent rows has an inverse. *)
Lemma gram_inverse (V : Linalg.matrix) (k w : nat) :
  length V = k -> (forall r, In r V -> length r = w) ->
  (forall x : nat -> Q,
     (forall t, (t < w)%nat ->
        Qsum (map (fun j => x j * nth t (nth j V []) 0) (seq 0 k)) == 0) ->
     forall j, (j < k)%nat -> x j == 0) ->
  exists Gi, Linalg.inverse (Linalg.mul_transpose V V) = Some Gi.
Proof.
  intros Hk Hw Hind. apply (inverse_exists _ k).
  - unfold Linalg.mul_transpose. now rewrite length_map.
  - intros a Ha. unfold Linalg.mul_transpose in Ha. apply in_map_iff in Ha.
    destruct Ha as (r & <- & _). now rewrite length_map.
  - intros x Hx. apply Hind.
    set (v := fun t => Qsum (map (fun j => x j * nth t (nth j V []) 0)
                                 (seq 0 k))).
    assert (HA : forall r, In r V ->
              Qsum (map (fun t => nth t r 0 * v t) (seq 0 w)) == 0).
    { intros r Hr.
      rewrite <- (Hx (map (fun c => Qred (Linalg.dot r c)) V)).
      - unfold rsum, v.
        rewrite (Qsum_ext (fun t => nth t r 0 * _)
                   (fun t => Qsum (map (fun j => nth t r 0
                                          * (x j * nth t (nth j V []) 0))
                                       (seq 0 k)))).
        + rewrite Qsum_swap. apply Qsum_ext. intros j Hj.
          apply in_seq in Hj.
          rewrite nth_map_in with (d' := []) by lia.
          rewrite Qred_correct.
          rewrite (dot_sum r (nth j V []) w).
          * rewrite Qmult_comm, <- Qsum_scale. apply Qsum_ext.
            intros t _. ring.
          * now apply Hw.
          * apply Hw, nth_In. lia.
        + intros t _. now rewrite Qsum_scale.
      - unfold Linalg.mul_transpose. apply in_map_iff.
        exists r. split; [reflexivity|exact Hr]. }
    assert (HB : Qsum (map (fun t => v t * v t) (seq 0 w)) == 0).
    { rewrite (Qsum_ext (fun t => v t * v t)
                 (fun t => Qsum (map (fun j => x j * (nth t (nth j V []) 0
                                                     * v t)) (seq 0 k)))).
      - rewrite Qsum_swap. apply Qsum_zero. intros j Hj. apply in_seq in Hj.
        rewrite Qsum_scale. rewrite (HA (nth j V [])); [ring|].
        apply nth_In. lia.
      - intros t _. unfold v at 1.
        rewrite Qmult_comm, <- Qsum_scale. apply Qsum_ext.
        intros j _. ring. }
    intros t Ht. apply (Qsum_squares_zero v (seq 0 w) HB).
    apply in_seq. lia.
Qed.

(** A cubic that vanishes at four distinct points is zero. *)
Lemma cubic_zero (a b c d x0 x1 x2 x3 : Q) :
  ~ a == b -> ~ a == c -> ~ a == d -> ~ b == c -> ~ b == d -> ~ c == d ->
  x0 + x1 * a + x2 * (a * a) + x3 * (a * (a * a)) == 0 ->
  x0 + x1 * b + x2 * (b * b) + x3 * (b * (b * b)) == 0 ->
  x0 + x1 * c + x2 * (c * c) + x3 * (c * (c * c)) == 0 ->
  x0 + x1 * d + x2 * (d * d) + x3 * (d * (d * d)) == 0 ->
  x0 == 0 /\ x1 == 0 /\ x2 == 0 /\ x3 == 0.
Proof.
  intros Hab Hac Had Hbc Hbd Hcd Pa Pb Pc Pd.
  assert (cancel : forall u v e, ~ u == v -> (v - u) * e == 0 -> e == 0).
  { intros u v e Hu H. destruct (Qmult_integral _ _ H) as [H0|H0];
      [exfalso; apply Hu; lra|exact H0]. }
  assert (Qab : x1 + x2 * (a + b) + x3 * (a * a + a * b + b * b) == 0).
  { apply (cancel a b); [exact Hab|].
    setoid_replace ((b - a) * (x1 + x2 * (a + b)
                               + x3 * (a * a + a * b + b * b)))
      with ((x0 + x1 * b + x2 * (b * b) + x3 * (b * (b * b)))
            - (x0 + x1 * a + x2 * (a * a) + x3 * (a * (a * a)))) by ring.
    rewrite Pa, Pb. ring. }
  assert (Qac : x1 + x2 * (a + c) + x3 * (a * a + a * c + c * c) == 0).
  { apply (cancel a c); [exact Hac|].
    setoid_replace ((c - a) * (x1 + x2 * (a + c)
                               + x3 * (a * a + a * c + c * c)))
      with ((x0 + x1 * c + x2 * (c * c) + x3 * (c * (c * c)))
            - (x0 + x1 * a + x2 * (a * a) + x3 * (a * (a * a)))) by ring.
    rewrite Pa, Pc. ring. }
  assert (Qad : x1 + x2 * (a + d) + x3 * (a * a + a * d + d * d) == 0).
  { apply (cancel a d); [exact Had|].
    setoid_replace ((d - a) * (x1 + x2 * (a + d)
                               + x3 * (a * a + a * d + d * d)))
      with ((x0 + x1 * d + x2 * (d * d) + x3 * (d * (d * d)))
            - (x0 + x1 * a + x2 * (a * a) + x3 * (a * (a * a)))) by ring.
    rewrite Pa, Pd. ring. }
  assert (Sabc : x2 + x3 * (a + b + c) == 0).
  { apply (cancel b c); [exact Hbc|].
    setoid_replace ((c - b) * (x2 + x3 * (a + b + c)))
      with ((x1 + x2 * (a + c) + x3 * (a * a + a * c + c * c))
            - (x1 + x2 * (a + b) + x3 * (a * a + a * b + b * b))) by ring.
    rewrite Qab, Qac. ring. }
  assert (Sabd : x2 + x3 * (a + b + d) == 0).
  { apply (cancel b d); [exact Hbd|].
    setoid_replace ((d - b) * (x2 + x3 * (a + b + d)))
      with ((x1 + x2 * (a + d) + x3 * (a * a + a * d + d * d))
            - (x1 + x2 * (a + b) + x3 * (a * a + a * b + b * b))) by ring.
    rewrite Qab, Qad. ring. }
  assert (X3 : x3 == 0).
  { apply (cancel c d); [exact Hcd|].
    setoid_replace ((d - c) * x3)
      with ((x2 + x3 * (a + b + d)) - (x2 + x3 * (a + b + c))) by ring.
    rewrite Sabc, Sabd. ring. }
  assert (X2 : x2 == 0) by (rewrite X3 in Sabc; lra).
  assert (X1 : x1 == 0) by (rewrite X3, X2 in Qab; lra).
  assert (X0 : x0 == 0) by (rewrite X3, X2, X1 in Pa; lra).
  auto.
Qed.

(** The Gram matrix of the rows [(node t)^j], [j = 0..3], over at least
    four nodes of which the first four differ, has an inverse. *)
Lemma vandermonde_gram (V : Linalg.matrix) (w : nat) (node : nat -> Q) :
  length V = 4%nat -> (forall r, In r V -> length r = w) -> (4 <= w)%nat ->
  (forall j t, (j < 4)%nat -> (t < w)%nat ->
     nth t (nth j V []) 0 == Qpow (node t) j) ->
  (forall s t, (s < t < 4)%nat -> ~ node s == node t) ->
  exists Gi, Linalg.inverse (Linalg.mul_transpose V V) = Some Gi.
Proof.
  intros HV Hrows Hw Hentry Hnodes. apply (gram_inverse V 4 w HV Hrows).
  intros x H.
  assert (P : forall t, (t < w)%nat ->
            x 0%nat + x 1%nat * node t + x 2%nat * (node t * node t)
            + x 3%nat * (node t * (node t * node t)) == 0).
  { intros t Ht. rewrite <- (H t Ht). unfold Qsum. cbn [seq map fold_right].
    rewrite !Hentry by lia. cbn [Qpow]. ring. }
  destruct (cubic_zero (node 0%nat) (node 1%nat) (node 2%nat) (node 3%nat)
              (x 0%nat) (x 1%nat) (x 2%nat) (x 3%nat))
    as (X0 & X1 & X2 & X3);
    try (apply Hnodes; lia); try (apply P; lia).
  intros j Hj.
  destruct j as [|[|[|[|j]]]]; [assumption..|lia].
Qed.

Lemma Qof_nat_neq (a b : nat) (c : Q) :
  a <> b -> ~ Qof_nat a - c == Qof_nat b - c.
Proof.
  intros Hab H.
  destruct (Nat.lt_total a b) as [L|[E|L]]; [|contradiction|];
    apply Qof_nat_lt in L; lra.
Qed.

(** [np.polyfit] of degree 3 on the positions [0 .. w - 1] returns,
    whatever the values, as soon as there are four positions. *)
Lemma polyfit_returns (w : nat) (y : list Q) :
  (4 <= w)%nat -> exists p, Sp.polyfit (Sp.arangeQ 0 w) y 3 = Some p.
Proof.
  intros Hw. unfold Sp.polyfit, Linalg.lstsq, Linalg.pinv.
  set (A := Sp.vander 3 (Sp.arangeQ 0 w)).
  assert (LA : length A = w).
  { unfold A, Sp.vander. now rewrite length_map, arangeQ_length, Nat.sub_0_r. }
  rewrite LA. destruct (Nat.leb_spec 4 w) as [_|]; [|lia].
  destruct (vandermonde_gram (Linalg.transpose 4 A) w Qof_nat) as [Gi E].
  - unfold Linalg.transpose. now rewrite length_map, length_seq.
  - intros r Hr. unfold Linalg.transpose in Hr. apply in_map_iff in Hr.
    destruct Hr as (j & <- & _). now rewrite length_map.
  - exact Hw.
  - intros j t Hj Ht. unfold Linalg.transpose.
    rewrite nth_map_in with (d' := O) by (rewrite length_seq; lia).
    rewrite seq_nth by lia. cbn [Nat.add].
    rewrite nth_map_in with (d' := []) by lia.
    unfold A, Sp.vander.
    rewrite nth_map_in with (d' := 0)
      by (rewrite arangeQ_length; lia).
    rewrite nth_map_in with (d' := O) by (rewrite length_seq; lia).
    rewrite seq_nth by lia. cbn [Nat.add].
    unfold Sp.arangeQ.
    rewrite nth_map_in with (d' := O) by (rewrite length_seq; lia).
    rewrite seq_nth by lia. reflexivity.
  - intros s t Hst H.
    apply (Qof_nat_neq s t 0); [lia|]. lra.
  - rewrite E. eexists. reflexivity.
Qed.

(** [savgol_coeffs] of degree 3 returns for every window of five or more
    positions. *)
Lemma savgol_coeffs_returns (w : nat) :
  (5 <= w)%nat -> exists c, Sp.savgol_coeffs w 3 = Some c.
Proof.
  intros Hw. unfold Sp.savgol_coeffs.
  destruct (Nat.leb_spec w 3) as [|_]; [lia|]. cbv zeta.
  remember (if (w mod 2 =? 0)%nat then Qof_nat (w / 2) - (1 # 2)
            else Qof_nat (w / 2)) as pos eqn:Epos. clear Epos.
  remember (rev (map (fun i => Qof_nat i - pos) (seq 0 w))) as x eqn:Ex.
  assert (Lx : length x = w)
    by (subst x; now rewrite length_rev, length_map, length_seq).
  unfold Linalg.lstsq, Linalg.pinv.
  rewrite length_map, length_seq.
  destruct (Nat.leb_spec w 4) as [|_]; [lia|].
  destruct (vandermonde_gram
              (map (fun k => map (fun xi => Qpow xi k) x) (seq 0 4)) w
              (fun t => nth t x 0)) as [Gi E].
  - now rewrite length_map, length_seq.
  - intros r Hr. apply in_map_iff in Hr. destruct Hr as (k & <- & _).
    now rewrite length_map.
  - lia.
  - intros j t Hj Ht.
    rewrite nth_map_in with (d' := O) by (rewrite length_seq; lia).
    rewrite seq_nth by lia. cbn [Nat.add].
    rewrite nth_map_in with (d' := 0) by lia. reflexivity.
  - intros s t Hst. subst x.
    rewrite !rev_nth by (rewrite length_map, length_seq; lia).
    rewrite length_map, length_seq.
    rewrite !nth_map_in with (d' := O) by (rewrite length_seq; lia).
    rewrite !seq_nth by lia. cbn [Nat.add].
    apply Qof_nat_neq. lia.
  - rewrite E. eexists. reflexivity.
Qed.

(** The filter of degree 3 returns on every series at least as long as
    its window of five or more positions. *)
Lemma savgol_filter_returns (x : list Q) (window_length : nat) :
  (5 <= window_length <= length x)%nat ->
  exists ys, Sp.savgol_filter x window_length 3 = Some ys.
Proof.
  intros Hw.
  destruct (savgol_coeffs_returns window_length ltac:(lia)) as [c Ec].
  unfold Sp.savgol_filter. rewrite Ec.
  destruct (Nat.ltb_spec (length x) window_length) as [|_]; [lia|].
  unfold Sp.fit_edges_polyfit, Sp.fit_edge.
  rewrite Nat.sub_0_r.
  destruct (polyfit_returns window_length (slice x 0 window_length)
              ltac:(lia)) as [pl El].
  rewrite El.
  replace (length x - (length x - window_length))%nat with window_length
    by lia.
  destruct (polyfit_returns window_length
              (slice x (length x - window_length) (length x)) ltac:(lia))
    as [pr Er].
  rewrite Er. eexists. reflexivity.
Qed.
(* ------------------------------------------------------------------ *)
(** ** Choice between the Savitzky-Golay filter and its fall-back *)

Lemma defined_map_Some {A} (l : list A) : defined (map Some l) = l.
Proof. induction l; simpl; [reflexivity|]. now f_equal. Qed.

Lemma savgol_window_odd (window_size : Z) :
  Z.odd (RequestTimesSmooth.savgol_window window_size) = true /\
  RequestTimesSmooth.savgol_window window_size
  = (if Z.even window_size then window_size + 1 else window_size)%Z.
Proof.
  unfold RequestTimesSmooth.savgol_window.
  rewrite <- Z.negb_odd, (Zmod_odd window_size).
  destruct (Z.odd window_size) eqn:E; simpl; split; try reflexivity.
  - exact E.
  - rewrite Z.odd_add, E. reflexivity.
Qed.

Lemma savgol_filter_rejects (x : list Q) (window_length : nat) :
  (window_length <= 3)%nat -> Sp.savgol_filter x window_length 3 = None.
Proof.
  intros H. unfold Sp.savgol_filter, Sp.savgol_coeffs.
  destruct (Nat.leb_spec window_length 3) as [_|]; [reflexivity|lia].
Qed.

(** C4 (as the code has it).  The fall-back average, with window
    [min(10, n // 2)], is taken exactly when the series is no longer than
    the requested window ([n <= window_size]); a longer series goes to the
    degree-3 filter with an odd window (an even one is incremented).  For
    every window of 4 or more the filter returns one defined value per
    sample; it rejects windows of 3 or less. *)
Theorem savgol_dispatch (values : list Q) (window_size : Z) :
  let n := Z.of_nat (length values) in
  let window_length := RequestTimesSmooth.savgol_window window_size in
  ((n <= window_size)%Z ->
   RequestTimesSmooth.smooth_savgol values window_size
   = Pd.rolling_mean (RequestTimesSmooth.fallback_window (length values))
                     values) /\
  ((window_size < n)%Z ->
   RequestTimesSmooth.smooth_savgol values window_size
   = option_map (map Some)
       (Sp.savgol_filter values (Z.to_nat window_length) 3) /\
   Z.odd window_length = true /\
   window_length
   = (if Z.even window_size then window_size + 1 else window_size)%Z /\
   ((4 <= window_size)%Z ->
    exists ys,
      RequestTimesSmooth.smooth_savgol values window_size = Some ys /\
      length ys = length values /\
      length (defined ys) = length values) /\
   ((window_size <= 3)%Z ->
    RequestTimesSmooth.smooth_savgol values window_size = None)).
Proof.
  intros n window_length. unfold RequestTimesSmooth.smooth_savgol.
  fold n. fold window_length. rewrite Z.gtb_ltb.
  destruct (savgol_window_odd window_size) as [Hodd Heq].
  fold window_length in Hodd, Heq.
  split; intros Hn.
  - destruct (Z.ltb_spec window_size n) as [|_]; [lia|reflexivity].
  - destruct (Z.ltb_spec window_size n) as [_|]; [|lia].
    split; [reflexivity|]. split; [exact Hodd|]. split; [exact Heq|].
    split.
    + intros Hw.
      assert (Hwl : (5 <= window_length <= n)%Z).
      { rewrite Heq. destruct (Z.even window_size) eqn:Ev; [lia|].
        assert (window_size <> 4)%Z by (intros ->; discriminate). lia. }
      destruct (savgol_filter_returns values (Z.to_nat window_length))
        as [zs Ez]; [unfold n in Hwl; lia|].
      rewrite Ez. exists (map Some zs). split; [reflexivity|].
      apply savgol_filter_length in Ez.
      rewrite defined_map_Some, length_map. split; exact Ez.
    + intros Hw. rewrite savgol_filter_rejects; [reflexivity|].
      rewrite Heq. destruct (Z.even window_size) eqn:Ev; [|lia].
      assert (window_size <> 3)%Z by (intros ->; discriminate). lia.
Qed.

Lemma savgol_dispatch_witness :
  (exists ys,
     RequestTimesSmooth.smooth_savgol [1; 4; 9; 16; 25; 36] 4 = Some ys /\
     length ys = 6%nat /\ length (defined ys) = 6%nat) /\
  RequestTimesSmooth.smooth_savgol [1; 4; 9; 16] 4
  = Pd.rolling_mean 2 [1; 4; 9; 16].
Proof.
  split.
  - apply (savgol_dispatch [1; 4; 9; 16; 25; 36] 4); simpl; lia.
  - apply (savgol_dispatch [1; 4; 9; 16] 4). simpl. lia.
Defined.

(** C4 as stated fails when the series is exactly as long as the window:
    with 5 samples and window 5 the code takes the fall-back average of
    window 2, whose first entry is undefined, although the filter accepts
    these 5 samples and would return 5 values. *)
Lemma savgol_not_applied_at_window_length :
  let values := [1; 2; 3; 4; 5] in
  (Z.of_nat (length values) >= 5)%Z /\
  RequestTimesSmooth.smooth_savgol values 5
  = Some [None; Some (3 # 2); Some (5 # 2); Some (7 # 2); Some (9 # 2)] /\
  exists ys,
    Sp.savgol_filter values 5 3 = Some ys /\
    length ys = 5%nat /\
    RequestTimesSmooth.smooth_savgol values 5 <> Some (map Some ys).
Proof.
  cbv zeta.
  assert (E1 : RequestTimesSmooth.smooth_savgol [1; 2; 3; 4; 5] 5
               = Some [None; Some (3 # 2); Some (5 # 2); Some (7 # 2);
                       Some (9 # 2)])
    by (vm_compute; reflexivity).
  split; [simpl; lia|]. split; [exact E1|].
  destruct (savgol_filter_returns [1; 2; 3; 4; 5] 5) as [ys E2];
    [simpl; lia|].
  exists ys. split; [exact E2|].
  assert (L := savgol_filter_length _ _ _ E2). split; [exact L|].
  rewrite E1. destruct ys as [|y ys]; [discriminate L|]. discriminate.
Qed.

(* ------------------------------------------------------------------ *)
(** ** Timestamps within the range of [datetime64[ns]] *)

Lemma to_datetime_some (rows : list Pd.row) :
  Forall (fun r => Pd.in_bounds (Pd.timestamp r) = true) rows ->
  Pd.to_datetime (map Pd.timestamp rows)
  = Some (map Pd.to_datetime_s (map Pd.timestamp rows)).
Proof.
  intros H. unfold Pd.to_datetime.
  replace (forallb Pd.in_bounds (map Pd.timestamp rows)) with true;
    [reflexivity|].
  symmetry. apply forallb_forall. intros t Ht. apply in_map_iff in Ht.
  destruct Ht as (r & <- & Hr). rewrite Forall_forall in H. now apply H.
Qed.

Lemma to_datetime_none (rows : list Pd.row) (r : Pd.row) :
  In r rows -> Pd.in_bounds (Pd.timestamp r) = false ->
  Pd.to_datetime (map Pd.timestamp rows) = None.
Proof.
  intros Hr Hb. unfold Pd.to_datetime.
  destruct (forallb Pd.in_bounds (map Pd.timestamp rows)) eqn:E;
    [|reflexivity].
  rewrite forallb_forall in E.
  rewrite (E (Pd.timestamp r)) in Hb by now apply in_map.
  discriminate.
Qed.

(* ================================================================== *)
(** * Part III: further facts about the scripts *)

(* ------------------------------------------------------------------ *)
(** ** Per-second request counts *)

Lemma distinct_unique_from (a : list Z) : forall i prev,
  Rps.distinct prev a = map fst (Np.unique_from i prev a).
Proof.
  induction a as [|x a IH]; intros i prev; simpl; [reflexivity|].
  destruct prev as [p|]; [destruct (p =? x)%Z|]; simpl;
    try f_equal; apply IH.
Qed.

Lemma distinct_sorted_values (a : list Z) :
  Rps.distinct None (Np.sortZ a) = unique_values a.
Proof. apply distinct_unique_from. Qed.

Lemma StronglySorted_lt_NoDup (l : list Z) : StronglySorted Z.lt l -> NoDup l.
Proof.
  induction 1 as [|x l Hs IH Hx]; constructor; [|exact IH].
  intros Hin. rewrite Forall_forall in Hx. apply Hx in Hin. lia.
Qed.

Lemma indicator_sum_one (x : Z) (ks : list Z) :
  NoDup ks -> In x ks ->
  list_sum (map (fun k => if Z.eq_dec x k then 1 else 0)%nat ks) = 1%nat.
Proof.
  induction 1 as [|k ks Hk Hnd IH]; simpl; [tauto|]. intros [->|Hin].
  - destruct (Z.eq_dec x x) as [_|]; [|congruence].
    assert (Z0 : list_sum (map (fun k => if Z.eq_dec x k then 1 else 0)%nat ks)
                 = 0%nat).
    { clear IH Hnd. induction ks as [|k' ks IH]; simpl; [reflexivity|].
      destruct (Z.eq_dec x k') as [->|_]; [exfalso; apply Hk; now left|].
      apply IH. intros H. apply Hk. now right. }
    lia.
  - destruct (Z.eq_dec x k) as [->|_]; [contradiction|]. now apply IH.
Qed.

(** Counting every key of a duplicate-free list that covers [s] counts
    every element of [s] once. *)
Lemma count_occ_total (s ks : list Z) :
  NoDup ks -> (forall x, In x s -> In x ks) ->
  list_sum (map (count_occ Z.eq_dec s) ks) = length s.
Proof.
  intros Hnd. induction s as [|x s IH]; intros Hcov.
  - clear Hnd Hcov. induction ks; simpl; [reflexivity|assumption].
  - assert (E : map (count_occ Z.eq_dec (x :: s)) ks
               = map (fun k => ((if Z.eq_dec x k then 1 else 0)
                                + count_occ Z.eq_dec s k)%nat) ks).
    { apply map_ext. intros k. simpl. destruct (Z.eq_dec x k); reflexivity. }
    rewrite E, list_sum_map_add.
    rewrite (indicator_sum_one x ks Hnd) by (apply Hcov; now left).
    rewrite IH; [reflexivity|]. intros y Hy. apply Hcov. now right.
Qed.

Definition Zsum (l : list Z) : Z := fold_right Z.add 0%Z l.

Lemma Zsum_of_nat (l : list nat) :
  Zsum (map Z.of_nat l) = Z.of_nat (list_sum l).
Proof. induction l; simpl; [reflexivity|]. rewrite IHl. lia. Qed.

Lemma count_occ_map_filter {A} (f : A -> Z) (l : list A) (s : Z) :
  count_occ Z.eq_dec (map f l) s = length (filter (fun a => (f a =? s)%Z) l).
Proof.
  induction l as [|a l IH]; simpl; [reflexivity|].
  destruct (Z.eq_dec (f a) s) as [E|E].
  - rewrite (proj2 (Z.eqb_eq _ _) E). simpl. now f_equal.
  - rewrite (proj2 (Z.eqb_neq _ _) E). exact IH.
Qed.

(** X1.  The per-second series has exactly one count for each second that
    holds at least one request, by increasing second, and that count is the
    number of request rows falling in the second.  So every count is at
    least 1 (seconds without requests are absent, not zero), the counts add
    up to the number of request rows, and there are no more counts than
    rows. *)
Theorem per_second_counts (http_reqs : list Pd.row) :
  let second := fun r => Pd.floor_s (Pd.to_datetime_s (Pd.timestamp r)) in
  (exists seconds,
     StronglySorted Z.lt seconds /\
     (forall s, In s seconds <-> exists r, In r http_reqs /\ second r = s) /\
     Rps.per_second http_reqs
     = map (fun s => Z.of_nat (length (filter (fun r => (second r =? s)%Z)
                                              http_reqs)))
           seconds) /\
  Forall (fun c => (1 <= c)%Z) (Rps.per_second http_reqs) /\
  Zsum (Rps.per_second http_reqs) = Z.of_nat (length http_reqs) /\
  (length (Rps.per_second http_reqs) <= length http_reqs)%nat.
Proof.
  intros second_of. unfold Rps.per_second.
  change (map (fun r => Pd.floor_s (Pd.to_datetime_s (Pd.timestamp r)))
              http_reqs) with (map second_of http_reqs).
  remember (map second_of http_reqs) as second eqn:Es.
  rewrite distinct_sorted_values.
  assert (Hnd : NoDup (unique_values second))
    by (apply StronglySorted_lt_NoDup, unique_values_increasing).
  assert (Hlen : length second = length http_reqs)
    by (subst second; apply length_map).
  assert (Hsum : list_sum (map (count_occ Z.eq_dec second)
                               (unique_values second)) = length second).
  { apply count_occ_total; [exact Hnd|].
    intros x Hx. now apply unique_values_In. }
  assert (Hpos : Forall (fun k => (1 <= count_occ Z.eq_dec second k)%nat)
                        (unique_values second)).
  { apply Forall_forall. intros k Hk.
    apply (proj1 (unique_values_In _ _)) in Hk.
    apply (proj1 (count_occ_In Z.eq_dec _ _)) in Hk. lia. }
  split; [|split; [|split]].
  - exists (unique_values second).
    split; [apply unique_values_increasing|]. split.
    + intros s. rewrite unique_values_In. subst second.
      rewrite in_map_iff. split; intros (r & H1 & H2); exists r; auto.
    + apply map_ext. intros s. subst second.
      now rewrite count_occ_map_filter.
  - apply Forall_forall. intros c Hc. apply in_map_iff in Hc.
    destruct Hc as (k & <- & Hk). rewrite Forall_forall in Hpos.
    apply Hpos in Hk. lia.
  - rewrite <- map_map with (g := Z.of_nat) (f := count_occ Z.eq_dec second).
    rewrite Zsum_of_nat, Hsum, Hlen. reflexivity.
  - rewrite length_map, <- Hlen, <- Hsum.
    clear Hsum Hnd. induction Hpos as [|k ks Hk _ IH]; simpl; lia.
Qed.

(* ------------------------------------------------------------------ *)
(** ** The raw CDF *)

Lemma cumulative_length (sorted_rps : list Z) :
  length (Rps.cumulative sorted_rps) = length sorted_rps.
Proof.
  unfold Rps.cumulative, Np.arange1_over. now rewrite length_map, length_seq.
Qed.

Lemma cumulative_increasing (sorted_rps : list Z) :
  StronglySorted Qlt (Rps.cumulative sorted_rps).
Proof.
  unfold Rps.cumulative, Np.arange1_over.
  eapply StronglySorted_map_in; [|apply seq_increasing].
  intros i j Hi _ Hij. apply in_seq in Hi.
  assert (Hn : 0 < Qof_nat (length sorted_rps)) by (apply Qof_nat_pos; lia).
  assert (Hlt := Qof_nat_lt i j Hij).
  apply Qlt_shift_div_l; [exact Hn|].
  setoid_replace (Qof_nat i / Qof_nat (length sorted_rps)
                  * Qof_nat (length sorted_rps))
    with (Qof_nat i) by (field; lra).
  exact Hlt.
Qed.

Lemma cumulative_last (sorted_rps : list Z) :
  sorted_rps <> [] -> last (Rps.cumulative sorted_rps) 0 == 1.
Proof.
  intros Hne. unfold Rps.cumulative, Np.arange1_over.
  destruct (length sorted_rps) as [|m] eqn:E.
  - destruct sorted_rps; [congruence|discriminate].
  - rewrite seq_S, map_app. simpl map at 2. rewrite last_last.
    assert (Hn : 0 < Qof_nat (S m)) by (apply Qof_nat_pos; lia).
    simpl Nat.add. field. lra.
Qed.

Lemma per_second_nonempty (http_reqs : list Pd.row) :
  http_reqs <> [] -> Rps.per_second http_reqs <> [].
Proof.
  intros Hne E. unfold Rps.per_second in E. apply map_eq_nil in E.
  rewrite distinct_sorted_values in E.
  destruct http_reqs as [|r rows]; [congruence|].
  assert (H : In (Pd.floor_s (Pd.to_datetime_s (Pd.timestamp r)))
                 (unique_values
                    (map (fun r => Pd.floor_s (Pd.to_datetime_s (Pd.timestamp r)))
                         (r :: rows))))
    by (apply unique_values_In; now left).
  rewrite E in H. destruct H.
Qed.

Lemma sortZ_nonempty (a : list Z) : a <> [] -> Np.sortZ a <> [].
Proof.
  intros Hne E. apply Hne, length_zero_iff_nil.
  unfold Np.sortZ in E. rewrite <- (sort_length Z.leb), E. reflexivity.
Qed.

(** X2.  [plot_rps_cdf.py] has no exception handler: a request timestamp
    beyond the range of [datetime64[ns]] ends the run in a traceback, with
    nothing plotted or saved.  On a table with at least one [http_reqs] row,
    all in range, it draws the per-second counts (one point per populated
    second) in non-decreasing order against cumulative fractions that rise
    strictly and end at 1; it then saves the image, reports it and shows
    it. *)
Theorem rps_cdf_main_plots_raw_cdf (filename : String.string)
    (df : list Pd.row) :
  let http_reqs := Pd.filter_metric "http_reqs"%string df in
  ((exists r, In r http_reqs /\ Pd.in_bounds (Pd.timestamp r) = false) ->
   RpsCdf.main filename df = [Traceback]) /\
  (http_reqs <> [] ->
   Forall (fun r => Pd.in_bounds (Pd.timestamp r) = true) http_reqs ->
   exists sorted_rps cumulative,
     RpsCdf.main filename df
     = [ Plot (map inject_Z sorted_rps) (map Some cumulative);
         SaveFig (RpsCdf.output_name filename);
         Print (SavedAs (RpsCdf.output_name filename));
         Show ] /\
     Permutation (Rps.per_second http_reqs) sorted_rps /\
     sorted_rps <> [] /\
     length cumulative = length sorted_rps /\
     StronglySorted Z.le sorted_rps /\
     StronglySorted Qlt cumulative /\
     Forall (fun y => 0 < y /\ y <= 1) cumulative /\
     last cumulative 0 == 1).
Proof.
  intros http_reqs. split.
  - intros (r & Hr & Hb). unfold RpsCdf.main. fold http_reqs.
    now rewrite (to_datetime_none http_reqs r Hr Hb).
  - intros Hne Hb.
    set (sorted_rps := Np.sortZ (Rps.per_second http_reqs)).
    assert (Hs : sorted_rps <> [])
      by (apply sortZ_nonempty, per_second_nonempty, Hne).
    exists sorted_rps, (Rps.cumulative sorted_rps).
    split.
    { unfold RpsCdf.main. fold http_reqs.
      now rewrite (to_datetime_some http_reqs Hb). }
    split; [apply sort_perm|].
    split; [exact Hs|].
    split; [apply cumulative_length|].
    split; [apply sortZ_sorted|].
    split; [apply cumulative_increasing|].
    split; [|now apply cumulative_last].
    assert (Hn : 0 < Qof_nat (length sorted_rps)).
    { apply Qof_nat_pos. destruct sorted_rps; [congruence|simpl; lia]. }
    eapply Forall_impl; [|apply cumulative_bounds].
    intros y [A B]. split; [|exact B].
    assert (0 < 1 / Qof_nat (length sorted_rps))
      by (apply Qlt_shift_div_l; lra).
    lra.
Qed.

Lemma rps_cdf_main_plots_raw_cdf_witness :
  RpsCdf.main "run"%string
    [Pd.mk_row 0 "http_reqs"%string 1;
     Pd.mk_row 10000000000 "http_reqs"%string 1]
  = [Traceback] /\
  exists sorted_rps cumulative,
    RpsCdf.main "run"%string
      [Pd.mk_row 0 "http_reqs"%string 1; Pd.mk_row (1 # 2) "http_reqs"%string 1;
       Pd.mk_row 1 "http_reqs"%string 1]
    = [ Plot (map inject_Z sorted_rps) (map Some cumulative);
        SaveFig (RpsCdf.output_name "run"%string);
        Print (SavedAs (RpsCdf.output_name "run"%string));
        Show ] /\
    last cumulative 0 == 1.
Proof.
  split.
  - apply (rps_cdf_main_plots_raw_cdf "run"%string
             [Pd.mk_row 0 "http_reqs"%string 1;
              Pd.mk_row 10000000000 "http_reqs"%string 1]).
    exists (Pd.mk_row 10000000000 "http_reqs"%string 1).
    split; [right; now left|vm_compute; reflexivity].
  - destruct (rps_cdf_main_plots_raw_cdf "run"%string
                [Pd.mk_row 0 "http_reqs"%string 1;
                 Pd.mk_row (1 # 2) "http_reqs"%string 1;
                 Pd.mk_row 1 "http_reqs"%string 1]) as [_ H].
    destruct H as (s & c & E & _ & _ & _ & _ & _ & _ & L);
      [discriminate|repeat constructor|].
    exists s, c. split; [exact E|exact L].
Defined.

(* ------------------------------------------------------------------ *)
(** ** The deduplicated points *)

Lemma sort_sorted_id {A} (leb : A -> A -> bool) (l : list A) :
  StronglySorted (fun a b => leb a b = true) l -> sort leb l = l.
Proof.
  induction 1 as [|x l Hs IH Hx]; simpl; [reflexivity|]. rewrite IH.
  destruct l as [|y l]; simpl; [reflexivity|].
  inversion Hx as [|? ? Hxy _]; subst. now rewrite Hxy.
Qed.

Lemma sortZ_idempotent (a : list Z) : Np.sortZ (Np.sortZ a) = Np.sortZ a.
Proof.
  unfold Np.sortZ. apply sort_sorted_id.
  apply sort_sorted; [apply Zleb_total|apply Zleb_trans].
Qed.

Lemma nth_error_last {A} (l : list A) (d : A) :
  l <> [] -> nth_error l (length l - 1) = Some (last l d).
Proof.
  induction l as [|x l IH]; [congruence|]. intros _.
  destruct l as [|y l]; [reflexivity|].
  replace (length (x :: y :: l) - 1)%nat with (S (length (y :: l) - 1))
    by (simpl; lia).
  change (nth_error (y :: l) (length (y :: l) - 1)
          = Some (last (y :: l) d)).
  apply IH. discriminate.
Qed.

Lemma inject_Z_In (c : Z) (l : list Z) :
  In (inject_Z c) (map inject_Z l) <-> In c l.
Proof.
  split; [|apply in_map]. intros H. apply in_map_iff in H.
  destruct H as (c' & E & H). injection E as ->. exact H.
Qed.

Lemma first_fraction_bounds (sorted_rps : list Z) (c : Z) :
  In c sorted_rps ->
  1 / Qof_nat (length sorted_rps) <= first_fraction sorted_rps c /\
  first_fraction sorted_rps c <= 1.
Proof.
  intros Hc. assert (Hi := index_of_lt c sorted_rps Hc).
  assert (B := cumulative_bounds sorted_rps). rewrite Forall_forall in B.
  unfold first_fraction. rewrite <- cumulative_nth by exact Hi.
  apply B, nth_In. now rewrite cumulative_length.
Qed.

Lemma unique_values_head (counts : list Z) (x : Z) (l : list Z) :
  Np.sortZ counts = x :: l ->
  exists rest, unique_values (x :: l) = x :: rest.
Proof.
  intros E. unfold unique_values. rewrite <- E, sortZ_idempotent, E. simpl.
  eexists. reflexivity.
Qed.

(** X3.  Deduplication keeps each distinct count once, in strictly
    increasing order, with strictly increasing fractions between [1/n] and
    1; the first point is the least count with the fraction [1/n], however
    often that count occurs. *)
Theorem unique_points_shape (counts : list Z) :
  counts <> [] ->
  let sorted_rps := Np.sortZ counts in
  let unique_rps := fst (RpsCdfSmooth.unique_points sorted_rps) in
  let unique_cumulative := snd (RpsCdfSmooth.unique_points sorted_rps) in
  length unique_rps = length unique_cumulative /\
  (length unique_rps <= length counts)%nat /\
  (forall c, In (inject_Z c) unique_rps <-> In c counts) /\
  StronglySorted Qlt unique_rps /\
  StronglySorted Qlt unique_cumulative /\
  Forall (fun y => 1 / Qof_nat (length counts) <= y /\ y <= 1)
         unique_cumulative /\
  hd_error unique_rps = Some (inject_Z (hd 0%Z sorted_rps)) /\
  Forall (fun c => (hd 0%Z sorted_rps <= c)%Z) counts /\
  hd_error unique_cumulative = Some (Qof_nat 1 / Qof_nat (length counts)).
Proof.
  intros Hne. cbv zeta.
  destruct (unique_points_increasing counts) as [Sx Sy].
  assert (Hlen : length (Np.sortZ counts) = length counts)
    by (apply (sort_length Z.leb)).
  assert (Hin : forall c, In c (Np.sortZ counts) <-> In c counts)
    by (intros c; apply (sort_In Z.leb)).
  assert (Hs : StronglySorted Z.le (Np.sortZ counts)) by apply sortZ_sorted.
  assert (Hsne := sortZ_nonempty counts Hne).
  rewrite unique_points_eq in *. simpl fst in *. simpl snd in *.
  split; [now rewrite !length_map|]. split; [|split].
  - rewrite length_map, <- Hlen. apply NoDup_incl_length.
    + apply StronglySorted_lt_NoDup, unique_values_increasing.
    + intros c Hc. now apply unique_values_In.
  - intros c. rewrite inject_Z_In, unique_values_In. apply Hin.
  - split; [exact Sx|]. split; [exact Sy|]. split; [|split; [|split]].
    + apply Forall_forall. intros y Hy. apply in_map_iff in Hy.
      destruct Hy as (c & <- & Hc). rewrite <- Hlen.
      apply first_fraction_bounds. now apply unique_values_In.
    + destruct (Np.sortZ counts) as [|x l] eqn:E; [congruence|].
      destruct (unique_values_head counts x l E) as [rest R].
      rewrite R. reflexivity.
    + apply Forall_forall. intros c Hc. apply Hin in Hc.
      destruct (Np.sortZ counts) as [|x l]; [destruct Hc|]. simpl.
      inversion Hs as [|? ? _ Hx]; subst. destruct Hc as [->|Hc]; [lia|].
      rewrite Forall_forall in Hx. now apply Hx.
    + rewrite <- Hlen.
      destruct (Np.sortZ counts) as [|x l] eqn:E; [congruence|].
      destruct (unique_values_head counts x l E) as [rest R].
      rewrite R. simpl. unfold first_fraction. simpl. now rewrite Z.eqb_refl.
Qed.

Lemma unique_points_shape_witness :
  hd_error (snd (RpsCdfSmooth.unique_points (Np.sortZ [7; 5; 5]%Z)))
  = Some (Qof_nat 1 / Qof_nat 3).
Proof.
  apply (unique_points_shape [7; 5; 5]%Z). discriminate.
Defined.

Lemma Qof_nat_div_one (k n : nat) :
  (0 < n)%nat -> (Qof_nat k / Qof_nat n == 1 <-> k = n).
Proof.
  intros Hn. assert (Hq := Qof_nat_pos n Hn). split.
  - intros E. assert (E' : Qof_nat k == Qof_nat n).
    { setoid_replace (Qof_nat k) with (Qof_nat k / Qof_nat n * Qof_nat n)
        by (field; lra).
      rewrite E. ring. }
    unfold Qof_nat in E'. apply (proj1 (inject_Z_injective _ _)) in E'. lia.
  - intros ->. field. lra.
Qed.

(** X4.  The deduplicated curve reaches 1 exactly when the greatest count
    occurs once: a repeated maximum is represented by its first occurrence,
    whose fraction is below 1. *)
Theorem unique_points_reach_one (counts : list Z) :
  counts <> [] ->
  let sorted_rps := Np.sortZ counts in
  (exists y, In y (snd (RpsCdfSmooth.unique_points sorted_rps)) /\ y == 1)
  <->
  (forall j, (j < length sorted_rps - 1)%nat ->
             nth_error sorted_rps j <> Some (last sorted_rps 0%Z)).
Proof.
  intros Hne sorted_rps.
  assert (Hs : sorted_rps <> []) by now apply sortZ_nonempty.
  assert (Hn : (0 < length sorted_rps)%nat)
    by (destruct sorted_rps; [congruence|simpl; lia]).
  assert (Hlast := nth_error_last sorted_rps 0%Z Hs).
  rewrite unique_points_eq. simpl snd. split.
  - intros (y & Hy & E). apply in_map_iff in Hy.
    destruct Hy as (c & <- & Hc).
    apply (proj1 (unique_values_In _ _)) in Hc.
    unfold first_fraction in E.
    apply (proj1 (Qof_nat_div_one _ _ Hn)) in E.
    destruct (index_of_spec sorted_rps c Hc) as [A B].
    replace (Np.index_of c sorted_rps) with (length sorted_rps - 1)%nat
      in A, B by lia.
    rewrite Hlast in A. injection A as ->. exact B.
  - intros H. exists (first_fraction sorted_rps (last sorted_rps 0%Z)). split.
    + apply in_map, unique_values_In. eapply nth_error_In; eauto.
    + unfold first_fraction.
      rewrite (index_of_first sorted_rps _ _ Hlast H).
      apply Qof_nat_div_one; lia.
Qed.

Lemma unique_points_reach_one_witness :
  ~ (exists y,
       In y (snd (RpsCdfSmooth.unique_points (Np.sortZ [5; 9; 9]%Z))) /\ y == 1).
Proof.
  intros H.
  assert (G := proj1 (unique_points_reach_one [5; 9; 9]%Z ltac:(discriminate)) H).
  apply (G 1%nat); [simpl; lia|reflexivity].
Defined.

(** X5.  With at most four distinct counts the Interpolate method (and the
    smoothed part of "both") fits nothing: it returns the deduplicated
    points themselves for every [num_points], also a negative one, so its
    curve is strictly increasing in x and in y. *)
Theorem interpolate_few_points (counts : list Z) (num_points : Z) :
  let sorted_rps := Np.sortZ counts in
  (length (fst (RpsCdfSmooth.unique_points sorted_rps)) <= 4)%nat ->
  exists smooth_x smooth_y,
    RpsCdfSmooth.interpolate sorted_rps num_points = Some (smooth_x, smooth_y) /\
    (smooth_x, smooth_y) = RpsCdfSmooth.unique_points sorted_rps /\
    StronglySorted Qlt smooth_x /\ StronglySorted Qlt smooth_y.
Proof.
  intros sorted_rps Hlen.
  destruct (unique_points_increasing counts) as [Sx Sy].
  fold sorted_rps in Sx, Sy. unfold RpsCdfSmooth.interpolate.
  destruct (RpsCdfSmooth.unique_points sorted_rps) as [ux uy].
  simpl in Hlen, Sx, Sy.
  destruct (Nat.ltb_spec 4 (length ux)) as [|_]; [lia|].
  exists ux, uy. repeat split; assumption.
Qed.

Lemma interpolate_few_points_witness :
  exists smooth_x smooth_y,
    RpsCdfSmooth.interpolate (Np.sortZ [5; 5; 7; 9]%Z) (-3)
    = Some (smooth_x, smooth_y) /\
    StronglySorted Qlt smooth_y.
Proof.
  destruct (interpolate_few_points [5; 5; 7; 9]%Z (-3))
    as (x & y & E & _ & _ & S); [vm_compute; lia|].
  exists x, y. split; [exact E|exact S].
Defined.

(* ------------------------------------------------------------------ *)
(** ** Order of the binned CDF *)

Lemma filter_length_mono {A} (p q : A -> bool) (l : list A) :
  (forall x, p x = true -> q x = true) ->
  (length (filter p l) <= length (filter q l))%nat.
Proof.
  intros H. induction l as [|x l IH]; simpl; [lia|].
  destruct (p x) eqn:P.
  - rewrite (H x P). simpl. lia.
  - destruct (q x); simpl; lia.
Qed.

Lemma fraction_le_mono (counts : list Q) (e1 e2 : Q) :
  e1 <= e2 ->
  RpsCdfSmooth.fraction_le counts e1 <= RpsCdfSmooth.fraction_le counts e2.
Proof.
  intros H. unfold RpsCdfSmooth.fraction_le, Qdiv.
  apply Qmult_le_compat_r.
  - apply Qof_nat_le, filter_length_mono. intros x Hx.
    apply Qle_bool_iff. apply Qle_bool_iff in Hx. lra.
  - apply Qinv_le_0_compat. change 0 with (Qof_nat 0). apply Qof_nat_le. lia.
Qed.

Lemma fraction_le_range (counts : list Q) (e : Q) :
  counts <> [] ->
  0 <= RpsCdfSmooth.fraction_le counts e /\
  RpsCdfSmooth.fraction_le counts e <= 1.
Proof.
  intros Hne. unfold RpsCdfSmooth.fraction_le.
  assert (Hn : 0 < Qof_nat (length counts)).
  { apply Qof_nat_pos. destruct counts; [congruence|simpl; lia]. }
  assert (H0 : 0 <= Qof_nat (length (filter (fun c => Qle_bool c e) counts)))
    by (change 0 with (Qof_nat 0); apply Qof_nat_le; lia).
  assert (H1 := Qof_nat_le _ _ (filter_length_le (fun c => Qle_bool c e) counts)).
  split.
  - apply Qle_shift_div_l; [exact Hn|]. lra.
  - apply Qle_shift_div_r; [exact Hn|]. lra.
Qed.

(** X6.  For a non-empty count series and a smoothing factor of at most
    2.0 (the end of its documented range; zero and negative factors
    included) whose product with the number of counts is finite, the Binned
    method returns: its bin centers are in non-decreasing order within
    [[min, max]], and its y-values are non-decreasing fractions in
    [[0, 1]]. *)
Theorem binned_cdf_monotone (counts : list Z) (smoothing_factor : Q)
    (bins : Z) :
  counts <> [] ->
  smoothing_factor <= 2 ->
  let sorted_rps := Np.sortZ counts in
  let cq := map inject_Z sorted_rps in
  RpsCdfSmooth.num_bins (length sorted_rps) smoothing_factor = Some bins ->
  exists centers ys,
    RpsCdfSmooth.binned sorted_rps smoothing_factor = Some (centers, ys) /\
    Z.of_nat (length centers) = bins /\
    length ys = length centers /\
    StronglySorted Qle centers /\
    Forall (fun c => Np.min cq <= c /\ c <= Np.max cq) centers /\
    StronglySorted Qle ys /\
    Forall (fun y => 0 <= y /\ y <= 1) ys.
Proof.
  intros Hne _ sorted_rps cq Hb. subst sorted_rps cq.
  fold (binned_counts counts).
  assert (H20 := binned_bins_ge_20 counts smoothing_factor bins Hb).
  assert (Hcq := binned_counts_nonempty counts Hne).
  do 2 eexists. split; [apply (binned_eq counts smoothing_factor bins Hb)|].
  split; [rewrite length_map, length_seq; unfold binned_bins in *; lia|].
  split; [now rewrite !length_map|].
  split; [apply (binned_centers_sorted counts smoothing_factor bins Hne Hb)|].
  split; [apply (binned_centers_range counts smoothing_factor bins Hne Hb)|].
  rewrite map_map. split.
  - apply (StronglySorted_map_in lt); [|apply seq_increasing].
    intros i j Hi Hj Hij. apply in_seq in Hi, Hj.
    apply fraction_le_mono.
    apply (binned_center_mono counts smoothing_factor bins Hne Hb). lia.
  - apply Forall_forall. intros y Hy. apply in_map_iff in Hy.
    destruct Hy as (k & <- & _). now apply fraction_le_range.
Qed.

Lemma binned_cdf_monotone_witness :
  exists centers ys,
    RpsCdfSmooth.binned (Np.sortZ [5; 15; 5]%Z) (- (3 # 1))
    = Some (centers, ys) /\
    Z.of_nat (length centers) = 20%Z /\
    StronglySorted Qle ys.
Proof.
  destruct (binned_cdf_monotone [5; 15; 5]%Z (- (3 # 1)) 20
              ltac:(discriminate) ltac:(vm_compute; discriminate)
              ltac:(vm_compute; reflexivity))
    as (c & y & E & L & _ & _ & _ & S & _).
  exists c, y. split; [exact E|]. split; [exact L|exact S].
Defined.

(* ------------------------------------------------------------------ *)
(** ** Parameters the libraries reject *)

Lemma gaussian_filter1d_zero_sigma exp (input : list Q) (sigma : Q) :
  sigma == 0 -> Sp.gaussian_filter1d exp input sigma = None.
Proof.
  intros Hs. unfold Sp.gaussian_filter1d. cbv zeta.
  assert (Hl : (0 <= int_trunc (4 * sigma + (1 # 2)))%Z)
    by (apply int_trunc_nonneg; lra).
  destruct (Z.ltb_spec (int_trunc (4 * sigma + (1 # 2))) 0); [lia|].
  apply Qeq_bool_iff in Hs. now rewrite Hs.
Qed.

(** X7.  A smoothing factor of zero makes the Gaussian method divide by
    [sigma * sigma = 0]: on any table with [http_reqs] rows the run ends in
    [main]'s error handler, after the two banner lines, without plotting or
    saving anything. *)
Theorem gaussian_zero_factor_is_caught (exp : Q -> Q)
    (base_name : String.string) (df : list Pd.row) (smoothing_factor : Q)
    (num_points : Z) :
  Pd.filter_metric "http_reqs"%string df <> [] ->
  smoothing_factor == 0 ->
  RpsCdfSmooth.plot_rps_cdf_smooth exp base_name df RpsCdfSmooth.Gaussian
    smoothing_factor num_points
  = [Print Loading; Print UsingSmoothing; Print ErrorCaught].
Proof.
  intros Hne Hf. unfold RpsCdfSmooth.plot_rps_cdf_smooth.
  destruct (Pd.filter_metric "http_reqs"%string df) as [|r rows];
    [congruence|].
  cbv zeta. unfold RpsCdfSmooth.smooth, RpsCdfSmooth.gaussian. cbv zeta.
  rewrite gaussian_filter1d_zero_sigma;
    [destruct (Pd.to_datetime _); reflexivity|].
  rewrite Hf. unfold Qdiv. ring.
Qed.

Lemma gaussian_zero_factor_is_caught_witness :
  RpsCdfSmooth.plot_rps_cdf_smooth exp_approx "run"%string
    [Pd.mk_row 0 "http_reqs"%string 1] RpsCdfSmooth.Gaussian 0 500
  = [Print Loading; Print UsingSmoothing; Print ErrorCaught].
Proof.
  apply gaussian_zero_factor_is_caught; [discriminate|reflexivity].
Defined.


Lemma load_length (rows : list Pd.row) :
  length (Latency.load rows) = length rows.
Proof. unfold Latency.load. now rewrite sort_length, length_map. Qed.

(** X8.  Windows the libraries reject end the latency script in [main]'s
    error handler with no plot and no image: a negative window for the
    rolling average (also in "both"), and a window of 3 or less for the
    Savitzky-Golay method when there are more samples than the window. *)
Theorem rejected_window_is_caught (config : String.string) (df : list Pd.row)
    (m : RequestTimesSmooth.smoothing_method) (window_size : Z)
    (resample_freq : positive) :
  let rows := Pd.filter_metric "http_req_duration"%string df in
  rows <> [] ->
  ((m = RequestTimesSmooth.Rolling \/ m = RequestTimesSmooth.Both) /\
   (window_size < 0)%Z) \/
  (m = RequestTimesSmooth.Savgol /\ (window_size <= 3)%Z /\
   (window_size < Z.of_nat (length rows))%Z) ->
  RequestTimesSmooth.plot_request_times_smooth config df m window_size
    resample_freq
  = [Print Loading; Print UsingSmoothing; Print ErrorCaught].
Proof.
  intros rows Hne H. unfold RequestTimesSmooth.plot_request_times_smooth.
  fold rows.
  assert (Hlen := load_length rows).
  destruct rows as [|r rows'] eqn:Er; [congruence|]. rewrite <- Er in *.
  cbv zeta.
  assert (S : RequestTimesSmooth.smooth m (Latency.load rows) window_size
                resample_freq = None).
  { unfold RequestTimesSmooth.smooth.
    destruct H as [[Hm Hw]|(Hm & Hw & Hn)].
    - assert (R : forall xs, Pd.rolling_mean window_size xs = None).
      { intros xs. unfold Pd.rolling_mean.
        destruct (Z.ltb_spec window_size 0); [reflexivity|lia]. }
      destruct Hm as [-> | ->]; now rewrite R.
    - subst m. unfold RequestTimesSmooth.smooth_savgol.
      rewrite length_map, Hlen, Z.gtb_ltb.
      destruct (Z.ltb_spec window_size (Z.of_nat (length rows))); [|lia].
      rewrite savgol_filter_rejects; [reflexivity|].
      destruct (savgol_window_odd window_size) as [_ ->].
      destruct (Z.even window_size) eqn:Ev; [|lia].
      assert (window_size <> 3)%Z by (intros ->; discriminate). lia. }
  rewrite S. destruct (Pd.to_datetime _); reflexivity.
Qed.

Lemma rejected_window_is_caught_witness :
  RequestTimesSmooth.plot_request_times_smooth "run"%string
    [Pd.mk_row 0 "http_req_duration"%string 12;
     Pd.mk_row 1 "http_req_duration"%string 15;
     Pd.mk_row 2 "http_req_duration"%string 11;
     Pd.mk_row 3 "http_req_duration"%string 14]
    RequestTimesSmooth.Savgol 3 1
  = [Print Loading; Print UsingSmoothing; Print ErrorCaught].
Proof.
  apply rejected_window_is_caught; [discriminate|].
  right. split; [reflexivity|]. split; [lia|simpl; lia].
Defined.

(* ------------------------------------------------------------------ *)
(** ** Loading and relative time *)





Lemma fold_Zmin_le l : forall x0,
  (fold_left Z.min l x0 <= x0)%Z /\
  Forall (fun y => (fold_left Z.min l x0 <= y)%Z) l.
Proof.
  induction l as [|y l IH]; intros x0; simpl; [split; [lia|constructor]|].
  destruct (IH (Z.min x0 y)) as [H1 H2]. split; [lia|].
  constructor; [lia|exact H2].
Qed.

Lemma Zmin_list_le (l : list Z) (x : Z) : In x l -> (Pd.Zmin_list l <= x)%Z.
Proof.
  destruct l as [|x0 l]; simpl; [tauto|].
  destruct (fold_Zmin_le l x0) as [H1 H2]. rewrite Forall_forall in H2.
  intros [<-|Hin]; auto.
Qed.

Lemma fold_Zmin_In l : forall x0, In (fold_left Z.min l x0) (x0 :: l).
Proof.
  induction l as [|y l IH]; intros x0; simpl; [now left|].
  destruct (IH (Z.min x0 y)) as [H|H]; [|right; now right].
  destruct (Z.min_spec x0 y) as [[_ E]|[_ E]]; rewrite E in *.
  - now left.
  - right. now left.
Qed.

Lemma Zmin_list_In (l : list Z) : l <> [] -> In (Pd.Zmin_list l) l.
Proof. destruct l; [congruence|]. intros _. apply fold_Zmin_In. Qed.






(* ------------------------------------------------------------------ *)
(** ** The resample bins cover every sample *)

Lemma fold_Zmax_ge l : forall x0,
  (x0 <= fold_left Z.max l x0)%Z /\
  Forall (fun y => (y <= fold_left Z.max l x0)%Z) l.
Proof.
  induction l as [|y l IH]; intros x0; simpl; [split; [lia|constructor]|].
  destruct (IH (Z.max x0 y)) as [H1 H2]. split; [lia|].
  constructor; [lia|exact H2].
Qed.

Lemma Zmax_list_ge (l : list Z) (x : Z) : In x l -> (x <= Pd.Zmax_list l)%Z.
Proof.
  destruct l as [|x0 l]; simpl; [tauto|].
  destruct (fold_Zmax_ge l x0) as [H1 H2]. rewrite Forall_forall in H2.
  intros [<-|Hin]; auto.
Qed.

(** The bin edges: the first bin holds [first], the last bin holds [last],
    and a whole number of bins lies between the edges. *)
Lemma range_edges_spec (first last freq : Z) :
  (0 < freq)%Z -> (first <= last)%Z ->
  exists nb,
    (0 < nb)%Z /\
    (snd (Pd.range_edges first last freq)
     = fst (Pd.range_edges first last freq) + nb * freq)%Z /\
    (fst (Pd.range_edges first last freq) <= first
     < fst (Pd.range_edges first last freq) + freq)%Z /\
    (last < snd (Pd.range_edges first last freq))%Z.
Proof.
  intros Hf Hfl. unfold Pd.range_edges. cbv zeta.
  set (origin := (first - first mod Pd.day_ns)%Z).
  assert (Ha := Z.div_mod (first - origin) freq ltac:(lia)).
  assert (Hb := Z.div_mod (last - origin) freq ltac:(lia)).
  assert (Ra := Z.mod_pos_bound (first - origin) freq Hf).
  assert (Rb := Z.mod_pos_bound (last - origin) freq Hf).
  assert (Hq : ((first - origin) / freq <= (last - origin) / freq)%Z)
    by (apply Z.div_le_mono; lia).
  remember ((first - origin) / freq)%Z as qa.
  remember ((last - origin) / freq)%Z as qb.
  remember ((first - origin) mod freq)%Z as ra.
  remember ((last - origin) mod freq)%Z as rb.
  exists (qb - qa + 1)%Z.
  destruct (Z.ltb_spec 0 ra); destruct (Z.ltb_spec 0 rb); simpl;
    (split; [lia|]); (split; [|split]); lia.
Qed.

Section Cover.
Variable fresult : Z.
Variable freq : Z.
Hypothesis freq_pos : (0 < freq)%Z.
Variable nb : nat.

Lemma bin_cover (s : Z * Q) :
  (fresult <= fst s < fresult + Z.of_nat nb * freq)%Z ->
  exists k, (k < nb)%nat /\
            Pd.in_bucket (bin_start fresult freq k) freq s = true.
Proof.
  intros H. remember (fst s) as t eqn:Et.
  assert (Hd := Z.div_mod (t - fresult) freq ltac:(lia)).
  assert (Hr := Z.mod_pos_bound (t - fresult) freq freq_pos).
  assert (Hq0 : (0 <= (t - fresult) / freq)%Z) by (apply Z.div_pos; lia).
  assert (Hq1 : ((t - fresult) / freq < Z.of_nat nb)%Z)
    by (apply Z.div_lt_upper_bound; lia).
  exists (Z.to_nat ((t - fresult) / freq)). split; [lia|].
  unfold Pd.in_bucket, bin_start. rewrite <- Et, Z2Nat.id by exact Hq0.
  apply andb_true_iff. rewrite Z.leb_le, Z.ltb_lt.
  remember ((t - fresult) / freq)%Z as q.
  remember ((t - fresult) mod freq)%Z as r.
  lia.
Qed.

Lemma list_sum_ge_member {A} (f : A -> nat) (l : list A) (k : A) :
  In k l -> (f k <= list_sum (map f l))%nat.
Proof.
  induction l as [|x l IH]; simpl; [tauto|]. intros [->|H]; [lia|].
  specialize (IH H). lia.
Qed.

Lemma membership_exactly_once (s : Z * Q) :
  (fresult <= fst s < fresult + Z.of_nat nb * freq)%Z ->
  list_sum (map (fun k => if Pd.in_bucket (bin_start fresult freq k) freq s
                          then 1 else 0)%nat (seq 0 nb)) = 1%nat.
Proof.
  intros H. destruct (bin_cover s H) as (k & Hk & Hin).
  assert (U := membership_once fresult freq freq_pos s (seq 0 nb)
                 (seq_NoDup nb 0)).
  assert (L := list_sum_ge_member
                 (fun k => if Pd.in_bucket (bin_start fresult freq k) freq s
                           then 1 else 0)%nat (seq 0 nb) k).
  cbv beta in L. rewrite Hin in L.
  specialize (L ltac:(apply in_seq; lia)). lia.
Qed.

(** When the bins cover the samples, the bin sizes add up to the number of
    samples. *)
Lemma bin_sizes_total (samples : list (Z * Q)) :
  Forall (fun s => (fresult <= fst s < fresult + Z.of_nat nb * freq)%Z)
         samples ->
  list_sum (map (fun k => length (filter (Pd.in_bucket (bin_start fresult freq k)
                                                       freq) samples))
                (seq 0 nb))
  = length samples.
Proof.
  induction 1 as [|s samples Hs _ IH]; simpl.
  - induction (seq 0 nb); simpl; [reflexivity|assumption].
  - assert (M := membership_exactly_once s Hs).
    assert (E : map (fun k => length
                       (if Pd.in_bucket (bin_start fresult freq k) freq s
                        then s :: filter (Pd.in_bucket (bin_start fresult freq k)
                                                       freq) samples
                        else filter (Pd.in_bucket (bin_start fresult freq k)
                                                  freq) samples))
                    (seq 0 nb)
                = map (fun k =>
                         ((if Pd.in_bucket (bin_start fresult freq k) freq s
                           then 1 else 0)
                          + length (filter (Pd.in_bucket
                                              (bin_start fresult freq k) freq)
                                           samples))%nat)
                      (seq 0 nb)).
    { apply map_ext. intros k.
      destruct (Pd.in_bucket (bin_start fresult freq k) freq s); reflexivity. }
    rewrite E, list_sum_map_add, M, IH. reflexivity.
Qed.
End Cover.

Lemma total_count_split (p : Pd.bucket -> bool) (rows : list Pd.bucket) :
  (total_count (filter p rows) + total_count (filter (fun b => negb (p b)) rows)
   = total_count rows)%nat.
Proof.
  unfold total_count. induction rows as [|b rows IH]; simpl; [reflexivity|].
  destruct (p b); simpl; lia.
Qed.

(** X10.  Before the count filter, [resample] loses nothing: its bins are
    consecutive intervals of the bucket width, the first one holding the
    earliest sample, every bin counts the samples whose timestamp falls in
    it, and the counts add up to the number of samples.  So the samples
    missing from the plotted series are exactly those of the buckets with
    fewer than three samples. *)
Theorem resample_partitions_samples (freq : positive)
    (samples : list (Z * Q)) :
  samples <> [] ->
  let buckets := Pd.resample freq samples in
  let start := Pd.b_timestamp (hd (Pd.aggregate 0 []) buckets) in
  buckets <> [] /\
  (start <= Pd.Zmin_list (map fst samples) < start + Z.pos freq)%Z /\
  (forall k b, nth_error buckets k = Some b ->
     Pd.b_timestamp b = (start + Z.of_nat k * Z.pos freq)%Z /\
     Pd.b_count b
     = length (filter (fun s => (Pd.b_timestamp b <=? fst s)%Z
                                && (fst s <? Pd.b_timestamp b + Z.pos freq)%Z)
                      samples)) /\
  total_count buckets = length samples /\
  (total_count (RequestTimesSmooth.smooth_resample samples freq)
   + total_count (filter (fun b => (Pd.b_count b <? 3)%nat) buckets)
   = length samples)%nat.
Proof.
  intros Hne. cbv zeta.
  set (ts := map fst samples).
  assert (Hts : ts <> []) by (intros E; apply map_eq_nil in E; contradiction).
  assert (Hmm : (Pd.Zmin_list ts <= Pd.Zmax_list ts)%Z)
    by (apply Zmax_list_ge, Zmin_list_In, Hts).
  destruct (range_edges_spec (Pd.Zmin_list ts) (Pd.Zmax_list ts) (Z.pos freq)
              ltac:(lia) Hmm) as (nb & Hnb & Hl & Hf & Hlast).
  assert (Hres : Pd.resample freq samples
                 = map (fun k =>
                          Pd.aggregate
                            (bin_start (fst (Pd.range_edges (Pd.Zmin_list ts)
                                               (Pd.Zmax_list ts) (Z.pos freq)))
                                       (Z.pos freq) k)
                            (map snd
                               (filter
                                  (Pd.in_bucket
                                     (bin_start
                                        (fst (Pd.range_edges (Pd.Zmin_list ts)
                                                (Pd.Zmax_list ts) (Z.pos freq)))
                                        (Z.pos freq) k)
                                     (Z.pos freq)) samples)))
                       (seq 0 (Z.to_nat nb))).
  { unfold Pd.resample. destruct samples as [|s0 rest]; [congruence|].
    fold ts. destruct (Pd.range_edges _ _ _) as [fresult lresult] eqn:Ee.
    simpl fst in *. simpl snd in *. rewrite Hl.
    replace ((fresult + nb * Z.pos freq - fresult) / Z.pos freq)%Z with nb
      by (replace (fresult + nb * Z.pos freq - fresult)%Z
            with (nb * Z.pos freq)%Z by lia;
          now rewrite Z.div_mul by lia).
    reflexivity. }
  remember (fst (Pd.range_edges (Pd.Zmin_list ts) (Pd.Zmax_list ts)
                   (Z.pos freq))) as fresult eqn:Ef.
  rewrite Hres.
  assert (Hnat : (0 < Z.to_nat nb)%nat) by lia.
  destruct (Z.to_nat nb) as [|n'] eqn:En; [lia|]. rewrite <- En in *.
  assert (Hhd : Pd.b_timestamp
                  (hd (Pd.aggregate 0 [])
                      (map (fun k =>
                              Pd.aggregate (bin_start fresult (Z.pos freq) k)
                                (map snd
                                   (filter
                                      (Pd.in_bucket
                                         (bin_start fresult (Z.pos freq) k)
                                         (Z.pos freq)) samples)))
                           (seq 0 (Z.to_nat nb)))) = fresult).
  { rewrite En. simpl. unfold bin_start. lia. }
  rewrite Hhd.
  assert (Htot : total_count
                   (map (fun k =>
                           Pd.aggregate (bin_start fresult (Z.pos freq) k)
                             (map snd
                                (filter
                                   (Pd.in_bucket
                                      (bin_start fresult (Z.pos freq) k)
                                      (Z.pos freq)) samples)))
                        (seq 0 (Z.to_nat nb))) = length samples).
  { unfold total_count. rewrite map_map.
    erewrite map_ext; [apply (bin_sizes_total fresult (Z.pos freq)); [lia|]|].
    - apply Forall_forall. intros s Hs.
      assert (Hin : In (fst s) ts) by (apply in_map; exact Hs).
      assert (A := Zmin_list_le ts _ Hin). assert (B := Zmax_list_ge ts _ Hin).
      rewrite Z2Nat.id by lia. lia.
    - intros k. unfold Pd.aggregate. simpl. now rewrite length_map. }
  split; [rewrite En; discriminate|]. split; [lia|]. split; [|split].
  - intros k b Hk. rewrite nth_error_map in Hk.
    destruct (nth_error (seq 0 (Z.to_nat nb)) k) as [k'|] eqn:Ek;
      [|discriminate].
    assert (Hlt : (k < length (seq 0 (Z.to_nat nb)))%nat)
      by (apply nth_error_Some; congruence).
    rewrite length_seq in Hlt.
    rewrite nth_error_nth' with (d := O) in Ek by (rewrite length_seq; lia).
    rewrite seq_nth in Ek by lia. injection Ek as <-. simpl in Hk.
    injection Hk as <-. unfold Pd.aggregate. simpl.
    split; [reflexivity|]. rewrite length_map. reflexivity.
  - exact Htot.
  - unfold RequestTimesSmooth.smooth_resample. rewrite Hres.
    rewrite (filter_ext (fun b => (Pd.b_count b <? 3)%nat)
                        (fun b => negb (3 <=? Pd.b_count b)%nat)).
    + rewrite total_count_split. exact Htot.
    + intros b. destruct (Nat.leb_spec 3 (Pd.b_count b));
        destruct (Nat.ltb_spec (Pd.b_count b) 3); simpl; try reflexivity; lia.
Qed.

Lemma resample_partitions_samples_witness :
  total_count (Pd.resample 1000000000
                 [(0%Z, 5); (400000000%Z, 6); (2500000000%Z, 7)]) = 3%nat.
Proof.
  apply (resample_partitions_samples 1000000000
           [(0%Z, 5); (400000000%Z, 6); (2500000000%Z, 7)]).
  discriminate.
Defined.

(* ------------------------------------------------------------------ *)
(** ** How a run of the smoothing scripts can end *)








(* ------------------------------------------------------------------ *)
(** ** Which positions the rolling average defines *)

(** X13.  With a window of [w >= 1] samples, position [i] of the rolling
    average is defined exactly when [w // 2] samples precede it and
    [(w - 1) // 2] follow it: the first [w // 2] and the last [(w - 1) // 2]
    positions are NaN, so an even window drops one more point at the start
    than at the end. *)
Theorem rolling_defined_positions (xs : list Q) (w : Z) (i : nat) :
  (1 <= w)%Z -> (i < length xs)%nat ->
  exists ys,
    Pd.rolling_mean w xs = Some ys /\
    ((exists y, nth_error ys i = Some (Some y)) <->
     (w / 2 <= Z.of_nat i /\
      Z.of_nat i + (w - 1) / 2 < Z.of_nat (length xs))%Z) /\
    (nth_error ys i = Some None <->
     (Z.of_nat i < w / 2 \/
      Z.of_nat (length xs) <= Z.of_nat i + (w - 1) / 2)%Z).
Proof.
  intros Hw Hi. exists (map (rolling_entry xs w) (seq 0 (length xs))).
  split; [now apply rolling_mean_entries|].
  assert (Hnth : nth_error (map (rolling_entry xs w) (seq 0 (length xs))) i
                 = Some (rolling_entry xs w i)).
  { rewrite nth_error_map.
    rewrite nth_error_nth' with (d := O) by (rewrite length_seq; lia).
    now rewrite seq_nth by lia. }
  rewrite Hnth.
  assert (Hfull : full_window xs w i <->
                  (w / 2 <= Z.of_nat i /\
                   Z.of_nat i + (w - 1) / 2 < Z.of_nat (length xs))%Z)
    by (unfold full_window; split; intros H; zdiv).
  destruct (full_window_dec xs w i) as [F|F].
  - rewrite (rolling_entry_full xs w Hw i F). split.
    + split; [intros _; now apply Hfull|intros _; eexists; reflexivity].
    + split; [discriminate|]. intros H. exfalso. apply Hfull in F. zdiv.
  - rewrite (rolling_entry_short xs w Hw i F). split.
    + split; [intros [y Hy]; discriminate|]. intros H. exfalso.
      now apply F, Hfull.
    + split; [|reflexivity]. intros _.
      assert (N : ~ (w / 2 <= Z.of_nat i /\
                     Z.of_nat i + (w - 1) / 2 < Z.of_nat (length xs))%Z)
        by (intros H; now apply F, Hfull).
      lia.
Qed.

Lemma rolling_defined_positions_witness :
  exists ys,
    Pd.rolling_mean 4 [1; 2; 3; 4; 5; 6] = Some ys /\
    nth_error ys 1 = Some None.
Proof.
  destruct (rolling_defined_positions [1; 2; 3; 4; 5; 6] 4 1)
    as (ys & E & _ & H); [lia|simpl; lia|].
  exists ys. split; [exact E|]. apply H. left. reflexivity.
Defined.

(* ------------------------------------------------------------------ *)
(** ** The fall-back of the Savitzky-Golay method *)

(** X14.  When the series is not longer than the requested window, the
    Savitzky-Golay method never raises: it returns a rolling average of
    window [min(10, n // 2)], with one entry per sample.  For two or more
    samples that window is between 1 and 10 and exactly
    [n - (min(10, n // 2) - 1)] entries are defined; a single sample gets
    window 0 and its only entry is NaN. *)
Theorem savgol_fallback_shape (values : list Q) (window_size : Z) :
  values <> [] ->
  (Z.of_nat (length values) <= window_size)%Z ->
  let fallback := RequestTimesSmooth.fallback_window (length values) in
  exists ys,
    RequestTimesSmooth.smooth_savgol values window_size = Some ys /\
    length ys = length values /\
    (length values = 1%nat -> fallback = 0%Z /\ ys = [None]) /\
    ((2 <= length values)%nat ->
     (1 <= fallback <= 10)%Z /\
     Z.of_nat (length (defined ys))
     = (Z.of_nat (length values) - (fallback - 1))%Z).
Proof.
  intros Hne Hn. cbv zeta.
  unfold RequestTimesSmooth.smooth_savgol. rewrite Z.gtb_ltb.
  destruct (Z.ltb_spec window_size (Z.of_nat (length values))); [lia|].
  destruct values as [|x [|x' rest]] eqn:Ev; [congruence| |].
  - exists [None]. split; [reflexivity|]. split; [reflexivity|].
    split; [intros _; split; reflexivity|]. intros H2. simpl in H2. lia.
  - rewrite <- Ev in *.
    assert (Hlen : (2 <= length values)%nat) by (rewrite Ev; simpl; lia).
    assert (Hf : (1 <= RequestTimesSmooth.fallback_window (length values)
                  <= 10)%Z)
      by (unfold RequestTimesSmooth.fallback_window; zdiv).
    assert (Hfn : (RequestTimesSmooth.fallback_window (length values)
                   <= Z.of_nat (length values))%Z)
      by (unfold RequestTimesSmooth.fallback_window; zdiv).
    rewrite rolling_mean_entries by lia.
    eexists. split; [reflexivity|].
    split; [now rewrite length_map, length_seq|].
    split; [intros H1; lia|]. intros _.
    split; [exact Hf|]. apply rolling_defined_count; lia.
Qed.

Lemma savgol_fallback_shape_witness :
  exists ys,
    RequestTimesSmooth.smooth_savgol [3; 1; 4; 1; 5] 50 = Some ys /\
    Z.of_nat (length (defined ys)) = 4%Z.
Proof.
  destruct (savgol_fallback_shape [3; 1; 4; 1; 5] 50)
    as (ys & E & _ & _ & H); [discriminate|simpl; lia|].
  exists ys. split; [exact E|]. apply H. simpl. lia.
Defined.

(* ------------------------------------------------------------------ *)
(** ** What the retained buckets carry *)

Lemma Qsquare_nonneg (x : Q) : 0 <= x * x.
Proof.
  destruct (Qlt_le_dec x 0).
  - setoid_replace (x * x) with ((- x) * (- x)) by ring.
    apply Qmult_le_0_compat; lra.
  - apply Qmult_le_0_compat; lra.
Qed.

Lemma Qsum_nonneg (l : list Q) : Forall (fun x => 0 <= x) l -> 0 <= Qsum l.
Proof. induction 1; simpl; lra. Qed.

Lemma variance_defined (vs : list Q) :
  (2 <= length vs)%nat -> exists v, Pd.variance vs = Some v /\ 0 <= v.
Proof.
  intros H. unfold Pd.variance.
  destruct (Nat.ltb_spec (length vs) 2); [lia|].
  eexists. split; [reflexivity|].
  assert (Hn := Qof_nat_le 2 (length vs) H). change (Qof_nat 2) with 2 in Hn.
  apply Qle_shift_div_l; [lra|]. rewrite Qmult_0_l.
  apply Qsum_nonneg, Forall_forall. intros y Hy. apply in_map_iff in Hy.
  destruct Hy as (v & <- & _). apply Qsquare_nonneg.
Qed.

(** X15.  Every bucket the resample method plots has a defined mean and a
    defined spread (the square of the [std] column, which is never
    negative), computed from at least three samples; the mean lies between
    the least and the greatest duration of the series. *)
Theorem retained_buckets_defined (http_duration : list (Z * Q))
    (resample_freq : positive) (b : Pd.bucket) :
  In b (RequestTimesSmooth.smooth_resample http_duration resample_freq) ->
  exists mean var,
    Pd.b_mean b = Some mean /\
    Pd.b_var b = Some var /\
    0 <= var /\
    Np.min (map snd http_duration) <= mean /\
    mean <= Np.max (map snd http_duration).
Proof.
  unfold RequestTimesSmooth.smooth_resample. intros Hb.
  apply filter_In in Hb. destruct Hb as [Hb Hc]. apply Nat.leb_le in Hc.
  unfold Pd.resample in Hb.
  destruct http_duration as [|s0 rest] eqn:Es; [destruct Hb|].
  rewrite <- Es in *.
  destruct (Pd.range_edges _ _ _) as [fresult lresult].
  apply in_map_iff in Hb. destruct Hb as (k & <- & _).
  remember (map snd (filter (Pd.in_bucket (fresult + Z.of_nat k
                                                    * Z.pos resample_freq)
                                          (Z.pos resample_freq))
                            http_duration)) as vs eqn:Evs.
  unfold Pd.aggregate in *. simpl in Hc. simpl.
  destruct (variance_defined vs ltac:(lia)) as (var & Evar & Hvar).
  destruct vs as [|v vs'] eqn:E; [simpl in Hc; lia|]. rewrite <- E in *.
  exists (Np.mean vs), var. split; [reflexivity|].
  split; [exact Evar|]. split; [exact Hvar|].
  assert (Hsub : forall x, In x vs -> In x (map snd http_duration)).
  { intros x Hx. rewrite Evs in Hx. apply in_map_iff in Hx.
    destruct Hx as (s & <- & Hs). apply filter_In in Hs.
    apply in_map. tauto. }
  apply mean_between; [rewrite E; discriminate| |];
    apply Forall_forall; intros x Hx; apply Hsub in Hx.
  - now apply min_le.
  - now apply max_ge.
Qed.

Lemma retained_buckets_defined_witness :
  exists mean var,
    Pd.b_mean (Pd.aggregate 0 [5; 6; 7]) = Some mean /\
    Pd.b_var (Pd.aggregate 0 [5; 6; 7]) = Some var /\
    0 <= var.
Proof.
  destruct (retained_buckets_defined
              [(0%Z, 5); (400000000%Z, 6); (900000000%Z, 7)] 1000000000
              (Pd.aggregate 0 [5; 6; 7]))
    as (mean & var & A & B & C & _).
  - vm_compute. left. reflexivity.
  - exists mean, var. repeat split; assumption.
Defined.

(* ------------------------------------------------------------------ *)
(** ** A negative point count *)

Lemma interpolate_negative_points (sorted_rps : list Z) (num_points : Z) :
  (4 < length (fst (RpsCdfSmooth.unique_points sorted_rps)))%nat ->
  (num_points < 0)%Z ->
  RpsCdfSmooth.interpolate sorted_rps num_points = None.
Proof.
  intros Hlen Hn. unfold RpsCdfSmooth.interpolate.
  destruct (RpsCdfSmooth.unique_points sorted_rps) as [ux uy]. simpl in Hlen.
  destruct (Nat.ltb_spec 4 (length ux)); [|lia].
  destruct (Sp.interp1d_cubic ux uy 0 1); [|reflexivity].
  unfold Np.linspace. destruct (Z.ltb_spec num_points 0); [reflexivity|lia].
Qed.

(** X16.  With five or more distinct counts, a negative [--points] makes
    the Interpolate method (and "both") raise, and the run ends in [main]'s
    error handler with nothing plotted or saved; with four or fewer the
    point count is never looked at. *)
Theorem negative_points_is_caught (exp : Q -> Q) (base_name : String.string)
    (df : list Pd.row) (m : RpsCdfSmooth.smoothing_method)
    (smoothing_factor : Q) (num_points : Z) :
  let rows := Pd.filter_metric "http_reqs"%string df in
  let sorted_rps := Np.sortZ (Rps.per_second rows) in
  m = RpsCdfSmooth.Interpolate \/ m = RpsCdfSmooth.Both ->
  (4 < length (fst (RpsCdfSmooth.unique_points sorted_rps)))%nat ->
  (num_points < 0)%Z ->
  RpsCdfSmooth.plot_rps_cdf_smooth exp base_name df m smoothing_factor
    num_points
  = [Print Loading; Print UsingSmoothing; Print ErrorCaught].
Proof.
  intros rows sorted_rps Hm Hlen Hn. subst sorted_rps rows.
  unfold RpsCdfSmooth.plot_rps_cdf_smooth.
  destruct (Pd.filter_metric "http_reqs"%string df) as [|r rest];
    [simpl in Hlen; lia|].
  cbv iota zeta. cbn [app].
  assert (S : RpsCdfSmooth.smooth exp m
                (Np.sortZ (Rps.per_second (r :: rest))) smoothing_factor
                num_points = None).
  { destruct Hm as [-> | ->]; simpl;
      now apply interpolate_negative_points. }
  rewrite S. destruct (Pd.to_datetime _); reflexivity.
Qed.

Definition five_seconds : list Pd.row :=
  [ Pd.mk_row 0 "http_reqs"%string 1;
    Pd.mk_row 1 "http_reqs"%string 1; Pd.mk_row (3 # 2) "http_reqs"%string 1;
    Pd.mk_row 2 "http_reqs"%string 1; Pd.mk_row (21 # 10) "http_reqs"%string 1;
    Pd.mk_row (22 # 10) "http_reqs"%string 1;
    Pd.mk_row 3 "http_reqs"%string 1; Pd.mk_row (31 # 10) "http_reqs"%string 1;
    Pd.mk_row (32 # 10) "http_reqs"%string 1;
    Pd.mk_row (33 # 10) "http_reqs"%string 1;
    Pd.mk_row 4 "http_reqs"%string 1; Pd.mk_row (41 # 10) "http_reqs"%string 1;
    Pd.mk_row (42 # 10) "http_reqs"%string 1;
    Pd.mk_row (43 # 10) "http_reqs"%string 1;
    Pd.mk_row (44 # 10) "http_reqs"%string 1 ].

Lemma negative_points_is_caught_witness :
  RpsCdfSmooth.plot_rps_cdf_smooth exp_approx "run"%string five_seconds
    RpsCdfSmooth.Interpolate (1 # 2) (-1)
  = [Print Loading; Print UsingSmoothing; Print ErrorCaught].
Proof.
  apply negative_points_is_caught.
  - left. reflexivity.
  - vm_compute. lia.
  - lia.
Defined.

(* ------------------------------------------------------------------ *)
(** ** Where the resample buckets start *)

Lemma range_edges_aligned (first last freq : Z) :
  (0 < freq)%Z -> (freq | Pd.day_ns)%Z ->
  (freq | fst (Pd.range_edges first last freq))%Z.
Proof.
  intros Hf Hd. unfold Pd.range_edges. cbv zeta.
  set (origin := (first - first mod Pd.day_ns)%Z).
  assert (Ho : (freq | origin)%Z).
  { apply Z.divide_trans with Pd.day_ns; [exact Hd|].
    unfold origin. rewrite Z.mod_eq by discriminate.
    exists (first / Pd.day_ns)%Z. lia. }
  assert (Hq : (freq | first - (first - origin) mod freq)%Z).
  { replace (first - (first - origin) mod freq)%Z
      with (origin + freq * ((first - origin) / freq))%Z
      by (rewrite (Z.mod_eq (first - origin) freq) by lia; lia).
    apply Z.divide_add_r; [exact Ho|]. apply Z.divide_factor_l. }
  destruct (Z.ltb_spec 0 ((first - origin) mod freq)); simpl; [exact Hq|].
  assert (E : ((first - origin) mod freq = 0)%Z)
    by (assert (B := Z.mod_pos_bound (first - origin) freq Hf); lia).
  rewrite E in Hq. now rewrite Z.sub_0_r in Hq.
Qed.

Lemma StronglySorted_filter {A} (R : A -> A -> Prop) (p : A -> bool) l :
  StronglySorted R l -> StronglySorted R (filter p l).
Proof.
  induction 1 as [|x l Hs IH Hx]; simpl; [constructor|].
  destruct (p x); [|exact IH]. constructor; [exact IH|].
  apply Forall_forall. intros y Hy. apply filter_In in Hy.
  rewrite Forall_forall in Hx. now apply Hx.
Qed.

Lemma resample_unfold (freq : positive) (samples : list (Z * Q)) :
  samples <> [] ->
  let edges := Pd.range_edges (Pd.Zmin_list (map fst samples))
                 (Pd.Zmax_list (map fst samples)) (Z.pos freq) in
  Pd.resample freq samples
  = map (fun k =>
           Pd.aggregate (fst edges + Z.of_nat k * Z.pos freq)
             (map snd
                (filter (Pd.in_bucket (fst edges + Z.of_nat k * Z.pos freq)
                           (Z.pos freq)) samples)))
        (seq 0 (Z.to_nat ((snd edges - fst edges) / Z.pos freq))).
Proof.
  intros Hne. cbv zeta. unfold Pd.resample.
  destruct samples as [|s0 rest]; [congruence|].
  destruct (Pd.range_edges (Pd.Zmin_list (map fst (s0 :: rest)))
              (Pd.Zmax_list (map fst (s0 :: rest))) (Z.pos freq))
    as [fresult lresult].
  reflexivity.
Qed.

(** X17.  The plotted buckets are in strictly increasing time order; each
    starts less than one bucket width before the first sample (so a plotted
    x-value can be negative, but lies above minus one width), and every
    plotted bucket after the first starts after the first sample.  When the
    bucket width divides a day (as the default second does), every bucket
    starts on a multiple of the width since the epoch. *)
Theorem resample_bucket_starts (http_duration : list (Z * Q))
    (resample_freq : positive) :
  http_duration <> [] ->
  let start_time := Pd.Zmin_list (map fst http_duration) in
  let resampled :=
    RequestTimesSmooth.smooth_resample http_duration resample_freq in
  StronglySorted Z.lt (map Pd.b_timestamp resampled) /\
  Forall (fun b => (start_time - Z.pos resample_freq < Pd.b_timestamp b)%Z)
         resampled /\
  (forall b b', In b resampled -> In b' resampled ->
     (Pd.b_timestamp b < Pd.b_timestamp b')%Z ->
     (start_time < Pd.b_timestamp b')%Z) /\
  ((Z.pos resample_freq | Pd.day_ns)%Z ->
   Forall (fun b => (Z.pos resample_freq | Pd.b_timestamp b)%Z) resampled).
Proof.
  intros Hne. cbv zeta.
  assert (Hts : map fst http_duration <> [])
    by (intros E; apply map_eq_nil in E; contradiction).
  assert (Hmm : (Pd.Zmin_list (map fst http_duration)
                 <= Pd.Zmax_list (map fst http_duration))%Z)
    by (apply Zmax_list_ge, Zmin_list_In, Hts).
  destruct (range_edges_spec (Pd.Zmin_list (map fst http_duration))
              (Pd.Zmax_list (map fst http_duration))
              (Z.pos resample_freq) ltac:(lia) Hmm)
    as (nb & Hnb & Hl & Hf & Hlast).
  assert (Hal := range_edges_aligned (Pd.Zmin_list (map fst http_duration))
                   (Pd.Zmax_list (map fst http_duration))
                   (Z.pos resample_freq) ltac:(lia)).
  unfold RequestTimesSmooth.smooth_resample.
  rewrite (resample_unfold resample_freq http_duration Hne).
  destruct (Pd.range_edges (Pd.Zmin_list (map fst http_duration))
              (Pd.Zmax_list (map fst http_duration)) (Z.pos resample_freq))
    as [fresult lresult].
  simpl fst in *. simpl snd in *.
  remember (Z.to_nat ((lresult - fresult) / Z.pos resample_freq)) as n eqn:En.
  clear En.
  remember (Pd.Zmin_list (map fst http_duration)) as start_time eqn:Est.
  remember (map (fun k =>
                   Pd.aggregate (fresult + Z.of_nat k * Z.pos resample_freq)
                     (map snd
                        (filter
                           (Pd.in_bucket
                              (fresult + Z.of_nat k * Z.pos resample_freq)
                              (Z.pos resample_freq)) http_duration)))
                (seq 0 n)) as buckets eqn:Eb.
  assert (Hstart : forall b,
            In b (filter (fun b => (3 <=? Pd.b_count b)%nat) buckets) ->
            exists k, Pd.b_timestamp b
                      = (fresult + Z.of_nat k * Z.pos resample_freq)%Z).
  { intros b Hb. apply filter_In in Hb. destruct Hb as [Hb _].
    rewrite Eb in Hb. apply in_map_iff in Hb. destruct Hb as (k & <- & _).
    exists k. reflexivity. }
  assert (S : StronglySorted
                (fun a b => (Pd.b_timestamp a < Pd.b_timestamp b)%Z)
                (filter (fun b => (3 <=? Pd.b_count b)%nat) buckets)).
  { apply StronglySorted_filter. rewrite Eb.
    apply (StronglySorted_map_in lt); [|apply seq_increasing].
    intros i j _ _ Hij. unfold Pd.aggregate. simpl. nia. }
  split; [|split; [|split]].
  - apply (StronglySorted_map_in
             (fun a b => (Pd.b_timestamp a < Pd.b_timestamp b)%Z) Z.lt
             Pd.b_timestamp _ (fun a b _ _ H => H) S).
  - apply Forall_forall. intros b Hb. destruct (Hstart b Hb) as [k ->]. nia.
  - intros b b' Hb Hb' Hlt.
    destruct (Hstart b Hb) as [k Ek]. destruct (Hstart b' Hb') as [k' Ek'].
    rewrite Ek, Ek' in *.
    assert (Hk : (k < k')%nat) by nia. nia.
  - intros Hd. specialize (Hal Hd).
    apply Forall_forall. intros b Hb. destruct (Hstart b Hb) as [k ->].
    apply Z.divide_add_r; [exact Hal|]. apply Z.divide_factor_r.
Qed.

Lemma resample_bucket_starts_witness :
  Forall (fun b => (1000000000 | Pd.b_timestamp b)%Z)
    (RequestTimesSmooth.smooth_resample
       [(1500000000%Z, 5); (1600000000%Z, 6); (1900000000%Z, 7)] 1000000000).
Proof.
  apply (resample_bucket_starts
           [(1500000000%Z, 5); (1600000000%Z, 6); (1900000000%Z, 7)]
           1000000000).
  - discriminate.
  - exists 86400%Z. reflexivity.
Defined.

(* ------------------------------------------------------------------ *)
(** ** Output file names *)

Lemma append_cancel_l (p s t : String.string) :
  String.append p s = String.append p t -> s = t.
Proof.
  induction p as [|c p IH]; simpl; intros H; [exact H|].
  injection H as H. now apply IH.
Qed.

Lemma append_assoc (p s t : String.string) :
  String.append (String.append p s) t = String.append p (String.append s t).
Proof.
  induction p as [|c p IH]; simpl; [reflexivity|]. now rewrite IH.
Qed.

(** X18.  For one input file, the smoothing scripts write a different image
    for each smoothing method: two runs overwrite each other's image only
    if they use the same method. *)
Theorem output_names_distinct (base_name config : String.string)
    (m m' : RpsCdfSmooth.smoothing_method)
    (k k' : RequestTimesSmooth.smoothing_method) :
  (m <> m' ->
   RpsCdfSmooth.output_name base_name m
   <> RpsCdfSmooth.output_name base_name m') /\
  (k <> k' ->
   RequestTimesSmooth.output_file config k
   <> RequestTimesSmooth.output_file config k').
Proof.
  split.
  - intros Hm H. apply Hm. unfold RpsCdfSmooth.output_name in H.
    apply append_cancel_l in H. apply append_cancel_l in H.
    destruct m, m'; try reflexivity; discriminate H.
  - intros Hk H. apply Hk.
    unfold RequestTimesSmooth.output_file, Latency.output_prefix in H.
    rewrite !append_assoc in H.
    apply append_cancel_l in H. apply append_cancel_l in H.
    apply append_cancel_l in H.
    destruct k, k'; try reflexivity; discriminate H.
Qed.

Lemma output_names_distinct_witness :
  RpsCdfSmooth.output_name "run"%string RpsCdfSmooth.Interpolate
  <> RpsCdfSmooth.output_name "run"%string RpsCdfSmooth.Gaussian /\
  RequestTimesSmooth.output_file "otel"%string RequestTimesSmooth.Rolling
  <> RequestTimesSmooth.output_file "otel"%string RequestTimesSmooth.Savgol.
Proof.
  destruct (output_names_distinct "run"%string "otel"%string
              RpsCdfSmooth.Interpolate RpsCdfSmooth.Gaussian
              RequestTimesSmooth.Rolling RequestTimesSmooth.Savgol)
    as [A B].
  split; [apply A|apply B]; discriminate.
Defined.
